(** * expr: an arithmetic expression parser, optimizer and evaluator

    A shallow embedding of [src/expression.hpp] and [src/expression.cpp]
    (namespace [expr]), and the properties of the pipeline
    string -> tokens -> tree -> (optimized tree) -> value.

    Conventions of the embedding.
    - [const_t] is C++ [double]: Rocq's primitive binary64 [float].  The
      operators [+ - * /], [std::abs] and [std::sqrt] are the IEEE 754
      operations of [PrimFloat].
    - What the C and C++ libraries leave to the implementation is collected
      in the record [platform]: the transcendental functions of <cmath>, the
      decimal conversion of [std::stod] outside the exactly representable
      integer literals, and the order in which the two arguments of a call
      are evaluated.
    - [std::shared_ptr<node>] is [node_ptr]: [null], or a node with its
      content and its two children.
    - A C++ call either returns, throws, or has undefined behaviour
      (dereferencing a null pointer, [top()] of an empty stack, a [double]
      that does not fit the [long] it is converted to, a remainder the
      language does not define): [outcome].
      Its fourth case, [OutOfFuel], is for the one loop of the model that
      is bounded by fuel, the parser's; [parse_ends] shows that the fuel
      [parse_impl] gives it is never used up.
    - [std::map<char, const_t>] is a [gmap ascii float]. *)

From Stdlib Require Import ZArith Ascii String List Lia Bool.
From Stdlib Require Import Floats.PrimFloat Floats.SpecFloat Floats.FloatOps.
From stdpp Require Import base option list gmap strings.

Local Open Scope Z_scope.

(** ** expression.hpp: the data model *)

Abbreviation const_t := float (only parsing).
Abbreviation unary_f := (const_t -> const_t) (only parsing).
Abbreviation binary_f := (const_t -> const_t -> option const_t) (only parsing).
Abbreviation param_t := ascii (only parsing).

(** [unary_f] and [binary_f] are [std::function]s.  The functions the
    program stores in them throw nothing; a call of a [unary_f] returns, and
    a call of a [binary_f] returns or has undefined behaviour: that is
    [None].

    [std::variant<nothing, const_t, param_t, unary_f, binary_f>] *)
Inductive variant_t : Type :=
  | nothing
  | Const (value : const_t)
  | Param (param : param_t)
  | Unary (unary : unary_f)
  | Binary (binary : binary_f).

(** [std::shared_ptr<node>], with [struct node { content; left; right; }] *)
Inductive node_ptr : Type :=
  | null
  | Node (content : variant_t) (left right : node_ptr).

(** [std::make_shared<node>(src)]: a node without children. *)
Definition make_shared (src : variant_t) : node_ptr := Node src null null.

Record expression : Type := Expression {
  _head : node_ptr;
  _dictionary : gmap ascii const_t
}.

(** A default-constructed [expression]: no tree, no bindings. *)
Definition expression_default : expression := Expression null ∅.

Inductive policy : Type := policy_build | policy_optimize.

(** ** Outcomes of a call *)

Inductive exception : Type :=
  | logic_error (what : string)
  | invalid_argument (what : string)
  | out_of_range (what : string).

Inductive outcome (A : Type) : Type :=
  | Ret (a : A)
  | Throw (e : exception)
  | Undefined
  | OutOfFuel.

Arguments Ret {A} a.
Arguments Throw {A} e.
Arguments Undefined {A}.
Arguments OutOfFuel {A}.

(** Sequencing: the first call that does not return ends the computation.
    With these instances [x ← o; k] is stdpp's notation for it. *)
#[global] Instance outcome_bind : MBind outcome := fun A B k o =>
  match o with
  | Ret a => k a
  | Throw e => Throw e
  | Undefined => Undefined
  | OutOfFuel => OutOfFuel
  end.

#[global] Instance outcome_ret : MRet outcome := fun A a => Ret a.

(** ** <cctype> in the "C" locale *)

Definition code (c : ascii) : N := N_of_ascii c.

Definition isdigit (c : ascii) : bool := ((48 <=? code c) && (code c <=? 57))%N.

Definition isspace (c : ascii) : bool :=
  (((9 <=? code c) && (code c <=? 13)) || (code c =? 32))%N.

Definition tolower (c : ascii) : ascii :=
  if ((65 <=? code c) && (code c <=? 90))%N then ascii_of_N (code c + 32) else c.

Definition toupper (c : ascii) : ascii :=
  if ((97 <=? code c) && (code c <=? 122))%N then ascii_of_N (code c - 32) else c.

Definition in_chars (c : ascii) (l : list ascii) : bool :=
  existsb (Ascii.eqb c) l.

(** ** The implementation-defined part of the C and C++ libraries *)

Record platform : Type := Platform {
  (* <cmath> *)
  libm_pow : const_t -> const_t -> const_t;
  libm_sin : const_t -> const_t;
  libm_cos : const_t -> const_t;
  libm_tan : const_t -> const_t;
  libm_asin : const_t -> const_t;
  libm_acos : const_t -> const_t;
  libm_atan : const_t -> const_t;
  libm_exp : const_t -> const_t;
  libm_log : const_t -> const_t;
  libm_cbrt : const_t -> const_t;
  (* [strtod] on a literal matched by [regex::real]; [None] is ERANGE *)
  libc_strtod : string -> option const_t;
  (* whether the arguments of a call are evaluated last to first *)
  args_right_to_left : bool
}.

(** ** Conversions between [double] and [long] *)

Definition LONG_MIN : Z := - 2 ^ 63.
Definition LONG_MAX : Z := 2 ^ 63 - 1.

(** [static_cast<long>(a)]: truncation towards zero, defined when the
    truncated value is a [long]. *)
Definition long_of_double (a : const_t) : option Z :=
  match Prim2SF a with
  | S754_zero _ => Some 0
  | S754_finite s m e =>
      let magnitude :=
        if 0 <=? e then Z.pos m * 2 ^ e else Z.pos m / 2 ^ (- e) in
      let z := if s then - magnitude else magnitude in
      if (LONG_MIN <=? z) && (z <=? LONG_MAX) then Some z else None
  | S754_infinity _ | S754_nan => None
  end.

(** The conversion of a [long] to [double], rounding to nearest even. *)
Definition double_of_long (z : Z) : const_t :=
  SF2Prim (binary_normalize prec emax z 0 false).

(** ** namespace detail *)

Module detail.

Fixpoint evalutable (node : node_ptr) : bool :=
  match node with
  | null => false
  | Node (Const _) _ _ => true
  | Node (Binary _) l r => evalutable l && evalutable r
  | Node (Unary _) l _ => evalutable l
  | Node _ _ _ => false
  end.

Definition sign_priority (x : ascii) : Z :=
  let x := tolower x in
  if in_chars x ["+"; "-"]%char then 0
  else if in_chars x ["*"; "/"]%char then 1
  else if in_chars x ["^"]%char then 2
  else if in_chars x ["s"; "c"; "t"; "e"; "l"; "a"; "v"]%char then 3
  else -1.

Definition stronger_sign (A B : ascii) : bool :=
  sign_priority B <? sign_priority A.

Definition is_binary_f (ch : ascii) : bool :=
  in_chars ch ["+"; "-"; "*"; "/"; "^"; "%"]%char.

Module function.
Definition plus : binary_f := fun a b => Some (a + b)%float.
Definition minus : binary_f := fun a b => Some (a - b)%float.
Definition multiplies : binary_f := fun a b => Some (a * b)%float.
Definition divides : binary_f := fun a b => Some (a / b)%float.

(** [static_cast<long>(a) % static_cast<long>(b)], converted back to
    [double].  The behaviour is undefined when an operand does not fit a
    [long], when the divisor is 0, and for [LONG_MIN % -1], whose quotient
    is no [long]. *)
Definition modulus : binary_f := fun a b =>
  match long_of_double a, long_of_double b with
  | Some x, Some y =>
      if (y =? 0) || ((x =? LONG_MIN) && (y =? -1))
      then None
      else Some (double_of_long (Z.rem x y))
  | _, _ => None
  end.

Definition pow (M : platform) : binary_f := fun a b => Some (libm_pow M a b).
Definition sin (M : platform) : unary_f := libm_sin M.
Definition cos (M : platform) : unary_f := libm_cos M.
Definition tan (M : platform) : unary_f := libm_tan M.
Definition asin (M : platform) : unary_f := libm_asin M.
Definition acos (M : platform) : unary_f := libm_acos M.
Definition atan (M : platform) : unary_f := libm_atan M.
Definition exp (M : platform) : unary_f := libm_exp M.
Definition ln (M : platform) : unary_f := libm_log M.
Definition abs : unary_f := PrimFloat.abs.
Definition sqrt : unary_f := PrimFloat.sqrt.
Definition cbrt (M : platform) : unary_f := libm_cbrt M.
End function.

Definition sign_to_binary (M : platform) (ch : ascii) : outcome binary_f :=
  match ch with
  | "+" => Ret function.plus
  | "-" => Ret function.minus
  | "*" => Ret function.multiplies
  | "/" => Ret function.divides
  | "^" => Ret (function.pow M)
  | "%" => Ret function.modulus
  | _ => Throw (logic_error
           ("Fount bad operator without correspective function: " +:+ String ch EmptyString))
  end%char.

Definition sign_to_unary (M : platform) (ch : ascii) : outcome unary_f :=
  match ch with
  | "s" => Ret (function.sin M)
  | "c" => Ret (function.cos M)
  | "t" => Ret (function.tan M)
  | "S" => Ret (function.asin M)
  | "C" => Ret (function.acos M)
  | "T" => Ret (function.atan M)
  | "l" => Ret (function.ln M)
  | "e" => Ret (function.exp M)
  | "|" => Ret function.abs
  | "v" => Ret function.sqrt
  | "V" => Ret (function.cbrt M)
  | _ => Throw (logic_error
           ("Found bad operator without correspective function: " +:+ String ch EmptyString))
  end%char.

End detail.

(** ** namespace regex

    [std::regex_search] with the three patterns the parser uses.  [real] and
    [fun_] are anchored by [^] at the start of the line and return what is
    left of the line after [match[0]]; [valid] is searched anywhere and
    returns [match.prefix()]. *)

Module regex.

(** A starred digit class: the longest run of digits, and the rest. *)
Fixpoint digits (s : string) : string * string :=
  match s with
  | String c r =>
      if isdigit c then let '(d, rest) := digits r in (String c d, rest)
      else (EmptyString, s)
  | EmptyString => (EmptyString, EmptyString)
  end.

(** The optional fraction of [real]: a dot and a run of digits. *)
Definition fraction (s : string) : string * string :=
  match s with
  | String "." r => let '(d, rest) := digits r in (String "." d, rest)
  | _ => (EmptyString, s)
  end.

(** The optional exponent of [real]: [E] or [e], an optional sign and
    one digit or more; skipped unless a digit follows the mark and the
    sign. *)
Definition exponent (s : string) : string * string :=
  match s with
  | String c r =>
      if in_chars c ["E"; "e"]%char then
        let '(sign, r1) :=
          match r with
          | String x r' =>
              if in_chars x ["+"; "-"]%char then (String x EmptyString, r')
              else (EmptyString, r)
          | EmptyString => (EmptyString, r)
          end in
        let '(d, rest) := digits r1 in
        match d with
        | EmptyString => (EmptyString, s)
        | _ => (String c (sign +:+ d), rest)
        end
      else (EmptyString, s)
  | EmptyString => (EmptyString, s)
  end.

(** [real]: at the start of the line, one digit or more, then the
    optional fraction, then the optional exponent.  Every part is greedy
    and what follows it may match the empty string, so the first match
    the backtracking matcher finds is the one computed here. *)
Definition real (line : string) : option (string * string) :=
  let '(i, r1) := digits line in
  match i with
  | EmptyString => None
  | _ =>
      let '(f, r2) := fraction r1 in
      let '(e, r3) := exponent r2 in
      Some (i +:+ f +:+ e, r3)
  end.

(** The words [fun] matches at the start of the line, with its
    alternatives (sin, cos, tan or tg, each with an optional leading a;
    ln; exp; abs; sqrt or cbrt) in the order the matcher tries them. *)
Definition fun_names : list string :=
  ["asin"; "sin"; "acos"; "cos"; "atan"; "atg"; "tan"; "tg";
   "ln"; "exp"; "abs"; "sqrt"; "cbrt"].

(** [match[0].length()] of [fun], if it matches. *)
Definition fun_ (line : string) : option nat :=
  String.length <$> List.find (fun name => String.prefix name line) fun_names.

(** The character class of [oper]. *)
Definition oper (c : ascii) : bool :=
  in_chars c ["+"; "-"; "*"; "/"; "^"; "%"]%char.

(** [valid] matches a number or an operator; searched from the left, the
    match starts at the first digit or operator character. *)
Fixpoint valid (line : string) : option string :=
  match line with
  | EmptyString => None
  | String c r =>
      if isdigit c || oper c then Some EmptyString
      else String c <$> valid r
  end.

End regex.

(** ** std::string and std::string_view operations *)

(** [s.find(ch, pos)] *)
Fixpoint find (s : string) (ch : ascii) (pos : nat) : option nat :=
  match s with
  | EmptyString => None
  | String c r =>
      match pos with
      | O => if Ascii.eqb c ch then Some O else S <$> find r ch O
      | S p => S <$> find r ch p
      end
  end.

(** [s.insert(i, 1, ch)], for [i <= s.size()] *)
Fixpoint string_insert (s : string) (i : nat) (ch : ascii) {struct i} : string :=
  match i, s with
  | O, _ => String ch s
  | S i', String c r => String c (string_insert r i' ch)
  | S _, EmptyString => EmptyString
  end.

(** [line.remove_prefix(n)] *)
Fixpoint remove_prefix (n : nat) (line : string) : string :=
  match n, line with
  | O, _ => line
  | S n', String _ r => remove_prefix n' r
  | S _, EmptyString => EmptyString
  end.

(** The value of a run of decimal digits. *)
Definition digits_value (s : string) : Z :=
  fold_left (fun acc c => 10 * acc + Z.of_N (code c - 48))
            (list_ascii_of_string s) 0.

(** [std::stod(real)] on a literal matched by [regex::real].  An integer
    literal below 2^53 is a [double]; everything else is rounded, and
    range-checked, by the C library. *)
Definition stod (M : platform) (real : string) : outcome const_t :=
  let '(i, rest) := regex.digits real in
  match rest with
  | EmptyString =>
      if digits_value i <? 2 ^ 53 then Ret (double_of_long (digits_value i))
      else match libc_strtod M real with
           | Some v => Ret v
           | None => Throw (out_of_range "stod")
           end
  | _ => match libc_strtod M real with
         | Some v => Ret v
         | None => Throw (out_of_range "stod")
         end
  end.

(** ** expression::preparse *)

(** One turn of the [for] loop: [i] is the index [find] returned.  It is
    at least 1 and less than the size, so that [src.at(i-1)] is a
    character of [src]. *)
Fixpoint preparse_loop (fuel : nat) (src : string) (i : option nat) : string :=
  match fuel, i with
  | S fuel', Some i =>
      let src' :=
        match String.get (i - 1) src with
        | Some c =>
            if Ascii.eqb c ")" || isdigit c then string_insert src i "*" else src
        | None => src
        end in
      preparse_loop fuel' src' (find src' "(" (i + 1))
  | _, _ => src
  end.

(** Every opening parenthesis is visited once, and once more after a
    multiplication sign was put in front of it. *)
Definition preparse (src : string) : string :=
  preparse_loop (2 * String.length src + 1) src (find src "(" 1).

(** ** expression::parse_impl *)

(** The constant pushed for [pi]: the literal 3.141592653589793. *)
Definition pi : const_t := 0x1.921fb54442d18p+1%float.

(** The token a symbol of [sign_buffer] becomes when it is moved to
    [buffer]. *)
Definition symbol_token (M : platform) (token : ascii) : outcome variant_t :=
  if detail.is_binary_f token
  then f ← detail.sign_to_binary M token; Ret (Binary f)
  else f ← detail.sign_to_unary M token; Ret (Unary f).

(** [sign_buffer] is kept with its [back()] at the head of the list.

    The inner [while] of the operator case: symbols that [operation] is not
    stronger than leave [sign_buffer] for [buffer]. *)
Fixpoint pop_not_weaker (M : platform) (operation : ascii)
    (buffer : list variant_t) (sign_buffer : list ascii)
    : outcome (list variant_t * list ascii) :=
  match sign_buffer with
  | [] => Ret (buffer, [])
  | back :: below =>
      if negb (detail.stronger_sign operation back) then
        tok ← symbol_token M back;
        pop_not_weaker M operation (buffer ++ [tok]) below
      else Ret (buffer, sign_buffer)
  end.

(** The [for_each] over [sign_buffer.rbegin() .. rend()] that ends
    [parse_impl], and the zero pushed into an empty [buffer]. *)
Fixpoint drain (M : platform) (buffer : list variant_t) (sign_buffer : list ascii)
    : outcome (list variant_t) :=
  match sign_buffer with
  | [] => Ret (match buffer with [] => [Const 0%float] | _ => buffer end)
  | token :: below =>
      tok ← symbol_token M token;
      drain M (buffer ++ [tok]) below
  end.

(** The search for the parenthesis that closes the one at index 0: [s] is
    the line from [index] on.  The result is [line.size()] when the loop
    runs to the end of the line. *)
Fixpoint closing_index (s : string) (counter : Z) (index : nat) : nat :=
  match s with
  | EmptyString => index
  | String c r =>
      let counter :=
        if Ascii.eqb c "(" then counter + 1
        else if Ascii.eqb c ")" then counter - 1
        else counter in
      if counter =? 0 then index else closing_index r counter (S index)
  end.

(** The [switch] that names the function [regex::fun] matched. *)
Definition fun_operation (begin second : ascii) : ascii :=
  match begin with
  | "a" => if Ascii.eqb second "b" then "|" else toupper second
  | "s" => if Ascii.eqb second "q" then "v" else "s"
  | "c" => if Ascii.eqb second "b" then "V" else "c"
  | _ => begin
  end%char.

(** The symbol pushed for a function name: the [switch] on its first two
    characters. *)
Definition pushed_symbol (name : string) : ascii :=
  match name with
  | String begin (String second _) => fun_operation begin second
  | _ => Ascii.zero
  end.

(** The buffer [parse_impl] starts with: a leading 0 before a sign. *)
Definition leading_zero (line : string) : list variant_t :=
  match line with
  | String c _ => if detail.is_binary_f c then [Const 0%float] else []
  | EmptyString => []
  end.

(** The [while ( ! line.empty() )] loop of [parse_impl] and what follows
    it.  Each turn removes a character or more from [line], and the
    recursive call is on a proper substring of it: [fuel] bounds both.

    [*(begin + 1)] in the test for [pi] may be the character after the end
    of the view; that one is the parenthesis that closes the view or the
    string's terminator, never an I. *)
Fixpoint parse_loop (M : platform) (fuel : nat) (line : string)
    (buffer : list variant_t) (sign_buffer : list ascii)
    : outcome (list variant_t) :=
  match fuel with
  | O => OutOfFuel
  | S fuel =>
    match line with
    | EmptyString => drain M buffer sign_buffer
    | String begin rest =>
      match regex.real line with
      | Some (real, line') =>
          v ← stod M real;
          parse_loop M fuel line' (buffer ++ [Const v]) sign_buffer
      | None =>
        if detail.is_binary_f begin then
          '(buffer', sign_buffer') ← pop_not_weaker M begin buffer sign_buffer;
          parse_loop M fuel rest buffer' (begin :: sign_buffer')
        else if Ascii.eqb begin "(" then
          let index := closing_index rest 1 1 in
          if (index =? String.length line)%nat
          then Throw (logic_error "Unterminated parenthesis")
          else
            inner ← (if (1 <? index)%nat
                     then let sub := String.substring 1 (index - 1) line in
                          parse_loop M fuel sub (leading_zero sub) []
                     else Ret []);
            parse_loop M fuel (remove_prefix (index + 1) line)
                       (buffer ++ inner) sign_buffer
        else if Ascii.eqb begin ")" then
          Throw (logic_error "Closed parentheses without an opening correspective")
        else if isspace begin then
          parse_loop M fuel rest buffer sign_buffer
        else
          match regex.fun_ line with
          | Some len =>
              let second := match rest with String c _ => c | EmptyString => Ascii.zero end in
              parse_loop M fuel (remove_prefix len line) buffer
                         (fun_operation begin second :: sign_buffer)
          | None =>
              if Ascii.eqb (toupper begin) "P" &&
                 match rest with
                 | String c _ => Ascii.eqb (toupper c) "I"
                 | EmptyString => false
                 end
              then parse_loop M fuel (remove_prefix 2 line)
                              (buffer ++ [Const pi]) sign_buffer
              else if Ascii.eqb begin "e"
              then parse_loop M fuel rest
                              (buffer ++ [Const (libm_exp M 1%float)]) sign_buffer
              else
                let invalid_token :=
                  match regex.valid line with
                  | Some prefix => prefix
                  | None => line
                  end in
                if (1 <? String.length invalid_token)%nat
                then Throw (invalid_argument
                       (invalid_token +:+
                        " Unexpected token in parsing (name parameters must be 1 char long)"))
                else
                  match invalid_token with
                  | String c _ =>
                      parse_loop M fuel rest (buffer ++ [Param c]) sign_buffer
                  | EmptyString => Throw (out_of_range "basic_string::at")
                  end
          end
      end
    end
  end.

Definition parse_impl (M : platform) (line : string) : outcome (list variant_t) :=
  parse_loop M (S (String.length line)) line (leading_zero line) [].

(** ** expression::parse *)

Definition parse (M : platform) (src : string) : outcome (list variant_t) :=
  match src with
  | EmptyString => Ret [Const 0%float]
  | _ => parse_impl M (preparse src)
  end.

(** ** expression::eval_impl *)

Definition unassigned (param : param_t) : exception :=
  logic_error ("Unassigned parameter " +:+ String param EmptyString).

Definition found_nothing : exception :=
  logic_error "Found (literally) nothing...".

(** The body of a [binary_f] on two values. *)
Definition invoke (binary : binary_f) (x y : const_t) : outcome const_t :=
  match binary x y with
  | Some v => Ret v
  | None => Undefined
  end.

(** The call [binary(a, b)]: the two arguments are evaluated in the order
    the implementation chooses, and the first that does not return ends the
    call. *)
Definition call_binary (M : platform) (binary : binary_f)
    (a b : outcome const_t) : outcome const_t :=
  if args_right_to_left M
  then y ← b; x ← a; invoke binary x y
  else x ← a; y ← b; invoke binary x y.

(** [eval_impl(head)]: every parameter is read from the dictionary. *)
Fixpoint eval_impl (M : platform) (dictionary : gmap ascii const_t)
    (head : node_ptr) : outcome const_t :=
  match head with
  | null => Undefined
  | Node content l r =>
      match content with
      | Const value => Ret value
      | Param param =>
          match dictionary !! param with
          | None => Throw (unassigned param)
          | Some value => Ret value
          end
      | Unary unary => a ← eval_impl M dictionary l; Ret (unary a)
      | Binary binary =>
          call_binary M binary (eval_impl M dictionary r) (eval_impl M dictionary l)
      | nothing => Throw found_nothing
      end
  end.

(** [eval_impl(head, x, value)]: the parameter [x] is [value]. *)
Fixpoint eval_impl_x (M : platform) (dictionary : gmap ascii const_t)
    (head : node_ptr) (x : ascii) (value : const_t) : outcome const_t :=
  match head with
  | null => Undefined
  | Node content l r =>
      match content with
      | Const value' => Ret value'
      | Param param =>
          if Ascii.eqb param x then Ret value
          else match dictionary !! param with
               | None => Throw (unassigned param)
               | Some v => Ret v
               end
      | Unary unary => a ← eval_impl_x M dictionary l x value; Ret (unary a)
      | Binary binary =>
          call_binary M binary (eval_impl_x M dictionary r x value)
                               (eval_impl_x M dictionary l x value)
      | nothing => Throw found_nothing
      end
  end.

(** ** expression::build_impl *)

(** The builder keeps a stack of [node*] into the tree [_head] owns.  Such
    a pointer is the path from [_head] to its node. *)
Inductive slot : Type := slot_left | slot_right.

Definition raw_ptr : Type := list slot.

(** [*p], as the subtree at [p]. *)
Fixpoint deref (head : node_ptr) (p : raw_ptr) : node_ptr :=
  match p, head with
  | [], _ => head
  | _ :: _, null => null
  | slot_left :: p', Node _ l _ => deref l p'
  | slot_right :: p', Node _ _ r => deref r p'
  end.

(** [p->left = src] or [p->right = src] *)
Fixpoint assign (head : node_ptr) (p : raw_ptr) (s : slot) (src : node_ptr)
    : node_ptr :=
  match head with
  | null => null
  | Node c l r =>
      match p with
      | [] => match s with
              | slot_left => Node c src r
              | slot_right => Node c l src
              end
      | slot_left :: p' => Node c (assign l p' s src) r
      | slot_right :: p' => Node c l (assign r p' s src)
      end
  end.

(** The end of a turn of the [while ( it != end )] loop that found the
    slot [s] of [top] free: the token is hung there, a function is pushed
    (a unary one with the [nothing] node in its right slot), and the loop
    goes on. *)
Definition place (continue : node_ptr -> list raw_ptr -> outcome node_ptr)
    (token : variant_t) (head : node_ptr) (stack : list raw_ptr)
    (top : raw_ptr) (s : slot) : outcome node_ptr :=
  let head' := assign head top s (make_shared token) in
  let ptr := top ++ [s] in
  match token with
  | Unary _ =>
      continue (assign head' ptr slot_right (make_shared nothing)) (ptr :: stack)
  | Binary _ => continue head' (ptr :: stack)
  | _ => continue head' stack
  end.

(** The [while ( it != end )] loop.  The inner [walk] is the run of turns
    that pop a full node and [continue] with the same token. *)
Fixpoint build_loop (it : list variant_t) (head : node_ptr)
    (stack : list raw_ptr) : outcome node_ptr :=
  match it with
  | [] => Ret head
  | token :: it' =>
      (fix walk (stack : list raw_ptr) : outcome node_ptr :=
         match stack with
         | [] => Undefined
         | top :: below =>
             match deref head top with
             | null => Undefined
             | Node _ null _ =>
                 place (build_loop it') token head stack top slot_left
             | Node _ _ null =>
                 place (build_loop it') token head stack top slot_right
             | Node _ _ _ => walk below
             end
         end) stack
  end.

(** A member function leaves the object in some state and returns, throws
    or goes wrong. *)
Definition method (A : Type) : Type := expression * outcome A.

Definition set_head (this : expression) (head : node_ptr) : expression :=
  Expression head (_dictionary this).

Definition is_function (v : variant_t) : bool :=
  match v with Unary _ | Binary _ => true | _ => false end.

(** [build_impl] from the statement after [parse] on. *)
Definition build_tree (symbols : list variant_t) (this : expression)
    : method unit :=
  match rev symbols with
  | [] => (this, Undefined)
  | it :: rest =>
      let this1 := set_head this (make_shared it) in
      match it with
      | Const _ =>
          if (1 <? length symbols)%nat
          then (this1, Throw (logic_error "Bad parsing or semantics"))
          else (this1, Ret tt)
      | _ =>
          if is_function it && (length symbols =? 1)%nat
          then (this1, Throw (logic_error "Function or operator without arguments"))
          else match build_loop rest (make_shared it) [[]] with
               | Ret head => (set_head this head, Ret tt)
               | Throw e => (this1, Throw e)
               | Undefined => (this1, Undefined)
               | OutOfFuel => (this1, OutOfFuel)
               end
      end
  end.

Definition build_impl (M : platform) (src : string) (this : expression)
    : method unit :=
  match parse M src with
  | Ret symbols => build_tree symbols this
  | Throw e => (this, Throw e)
  | Undefined => (this, Undefined)
  | OutOfFuel => (this, OutOfFuel)
  end.

(** ** expression::optimize_impl *)

(** The first composition of the binary case: a unary [right] child gives
    its function to the node and its [left] child to the node's [right]. *)
Definition fuse_right (f : binary_f) (l r : node_ptr) : outcome node_ptr :=
  match r with
  | null => Undefined
  | Node (Unary g) rl _ => Ret (Node (Binary (fun a b => f a (g b))) l rl)
  | Node _ _ _ => Ret (Node (Binary f) l r)
  end.

(** The second composition of the binary case, on the node the first one
    left: the same for a unary [left] child. *)
Definition fuse_left (node : node_ptr) : outcome node_ptr :=
  match node with
  | Node (Binary f) l r =>
      match l with
      | null => Undefined
      | Node (Unary g) ll _ => Ret (Node (Binary (fun a b => f (g a) b)) ll r)
      | Node _ _ _ => Ret node
      end
  | _ => Undefined
  end.

Fixpoint optimize_impl (M : platform) (dictionary : gmap ascii const_t)
    (node : node_ptr) : outcome node_ptr :=
  match node with
  | null => Undefined
  | Node (Binary f) l r =>
      l' ← optimize_impl M dictionary l;
      r' ← optimize_impl M dictionary r;
      let node := Node (Binary f) l' r' in
      if detail.evalutable node then
        value ← eval_impl M dictionary node;
        Ret (Node (Const value) l' r')
      else
        node ← fuse_right f l' r';
        fuse_left node
  | Node (Unary f) l r =>
      l' ← optimize_impl M dictionary l;
      if detail.evalutable l' then
        value ← eval_impl M dictionary (Node (Unary f) l' r);
        Ret (Node (Const value) l' r)
      else
        match l' with
        | Node (Unary g) ll _ =>
            Ret (Node (Unary (fun a => f (g a))) ll null)
        | Node (Binary g) ll lr =>
            Ret (Node (Binary (fun a b => f <$> g a b)) ll lr)
        | _ => Ret (Node (Unary f) l' r)
        end
  | Node _ _ _ => Ret node
  end.

(** ** The public member functions *)

Definition optimize (M : platform) (this : expression) : method unit :=
  match _head this with
  | null => (this, Ret tt)
  | head =>
      match optimize_impl M (_dictionary this) head with
      | Ret head' => (set_head this head', Ret tt)
      | Throw e => (this, Throw e)
      | Undefined => (this, Undefined)
      | OutOfFuel => (this, OutOfFuel)
      end
  end.

(** [build(p, src)]; [build(src)] is [build(policy::build, src)]. *)
Definition build (M : platform) (p : policy) (src : string) (this : expression)
    : method unit :=
  match build_impl M src this with
  | (this', Ret _) =>
      match p with
      | policy_optimize => optimize M this'
      | policy_build => (this', Ret tt)
      end
  | failed => failed
  end.

(** The constructors: [build] on a fresh object.  When it throws there is
    no object. *)
Definition construct (M : platform) (p : policy) (source : string)
    : outcome expression :=
  let '(this, result) := build M p source expression_default in
  _ ← result; Ret this.

Definition eval (M : platform) (this : expression) : outcome (option const_t) :=
  match _head this with
  | null => Ret None
  | head => v ← eval_impl M (_dictionary this) head; Ret (Some v)
  end.

Definition eval_x (M : platform) (this : expression) (ch : ascii) (value : const_t)
    : outcome (option const_t) :=
  match _head this with
  | null => Ret None
  | head => v ← eval_impl_x M (_dictionary this) head ch value; Ret (Some v)
  end.

(** [eval() const] as a call on the object: [eval_impl] only reads the
    tree and the dictionary, and the object is left as it was. *)
Definition eval_call (M : platform) (this : expression)
    : method (option const_t) :=
  (this, eval M this).

Definition set_param (name : ascii) (value : const_t) (this : expression)
    : expression :=
  Expression (_head this) (<[name := value]> (_dictionary this)).

(** ** A platform to run the examples on

    [pow] is exact on the small integer powers the examples take; no example
    reaches a transcendental function, and every literal is a short
    integer. *)

Fixpoint pow_nat (a : const_t) (n : nat) : const_t :=
  match n with
  | O => 1%float
  | S n' => (a * pow_nat a n')%float
  end.

Definition pow_small (a b : const_t) : const_t :=
  match long_of_double b with
  | Some n =>
      if (0 <=? n) && (n <? 64) && PrimFloat.eqb (double_of_long n) b
      then pow_nat a (Z.to_nat n)
      else nan
  | None => nan
  end.

Definition example_platform : platform := {|
  libm_pow := pow_small;
  libm_sin := fun _ => nan;
  libm_cos := fun _ => nan;
  libm_tan := fun _ => nan;
  libm_asin := fun _ => nan;
  libm_acos := fun _ => nan;
  libm_atan := fun _ => nan;
  libm_exp := fun _ => nan;
  libm_log := fun _ => nan;
  libm_cbrt := fun _ => nan;
  libc_strtod := fun _ => None;
  args_right_to_left := true
|}.

(** The object a member function leaves when it returns. *)
Definition after {A : Type} (m : method A) : outcome expression :=
  let '(this, result) := m in _ ← result; Ret this.

(** [expression e{src}; e.set_param(x, value); e.eval()] *)
Definition eval_built (M : platform) (src : string) (x : ascii) (value : const_t)
    : outcome (option const_t) :=
  e ← construct M policy_build src;
  eval M (set_param x value e).

(** [expression e{src}; e.set_param(x, value); e.optimize(); e.eval()] *)
Definition eval_optimized (M : platform) (src : string) (x : ascii) (value : const_t)
    : outcome (option const_t) :=
  e ← construct M policy_build src;
  e' ← after (optimize M (set_param x value e));
  eval M e'.

(** [compute(source)] *)
Definition compute (M : platform) (source : string) : outcome (option const_t) :=
  e ← construct M policy_build source;
  eval M e.

(** ** Trees of the examples *)

(** The tree [build("sqrt(x)-1")] leaves: the operands of [-] in reverse,
    and the [nothing] node in the right slot of the function. *)
Definition sqrt_x_minus_1 : node_ptr :=
  Node (Binary detail.function.minus)
       (Node (Const 1) null null)
       (Node (Unary detail.function.sqrt)
             (Node (Param "x") null null) (Node nothing null null)).

(** The tree [optimize()] makes of it. *)
Definition sqrt_x_minus_1_fused : node_ptr :=
  Node (Binary (fun a b => detail.function.minus a (detail.function.sqrt b)))
       (Node (Const 1) null null)
       (Node (Param "x") null null).

(** The tree [build("x+1")] leaves. *)
Definition x_plus_1 : node_ptr :=
  Node (Binary detail.function.plus)
       (Node (Const 1) null null) (Node (Param "x") null null).

(** The tree [build("x+y")] leaves. *)
Definition x_plus_y : node_ptr :=
  Node (Binary detail.function.plus)
       (Node (Param "y") null null) (Node (Param "x") null null).

(** ** Shapes of trees *)

(** A node the optimizer leaves alone and cannot evaluate: a parameter or
    the [nothing] placeholder. *)
Definition inert (node : node_ptr) : bool :=
  match node with
  | Node nothing _ _ | Node (Param _) _ _ => true
  | _ => false
  end.

(** A node that is there and is not a function of one argument. *)
Definition settled (node : node_ptr) : bool :=
  match node with
  | null | Node (Unary _) _ _ => false
  | _ => true
  end.

(** The trees [optimize_impl] returns: a unary function is left only over
    an inert node, a binary one only where a parameter keeps it from being
    folded and where neither child is a unary function. *)
Fixpoint optimized (node : node_ptr) : bool :=
  match node with
  | null => false
  | Node (Unary _) l _ => inert l
  | Node (Binary _) l r =>
      negb (detail.evalutable l && detail.evalutable r)
      && settled l && settled r && optimized l && optimized r
  | Node _ _ _ => true
  end.

(** The invariant of the data model on the part of a tree [eval_impl]
    walks: a binary operator has its two operands, a unary function has its
    operand, and no [nothing] placeholder is among them. *)
Fixpoint complete (node : node_ptr) : bool :=
  match node with
  | null => false
  | Node (Const _) _ _ | Node (Param _) _ _ => true
  | Node (Unary _) l _ => complete l
  | Node (Binary _) l r => complete l && complete r
  | Node nothing _ _ => false
  end.

(** The parameters [eval_impl] reads. *)
Fixpoint parameters (node : node_ptr) : list ascii :=
  match node with
  | Node (Param param) _ _ => [param]
  | Node (Unary _) l _ => parameters l
  | Node (Binary _) l r => parameters r ++ parameters l
  | _ => []
  end.

(** The nodes [eval_impl] visits. *)
Fixpoint visited (node : node_ptr) : list node_ptr :=
  match node with
  | null => []
  | Node (Unary _) l _ => node :: visited l
  | Node (Binary _) l r => node :: visited r ++ visited l
  | Node _ _ _ => [node]
  end.

(** An operator among them whose two operands have values on which the
    call of its function has undefined behaviour. *)
Definition undefined_operation (M : platform) (dictionary : gmap ascii const_t)
    (node : node_ptr) : Prop :=
  exists (f : binary_f) (l r : node_ptr) (x y : const_t),
    Node (Binary f) l r ∈ visited node /\
    eval_impl M dictionary r = Ret x /\
    eval_impl M dictionary l = Ret y /\
    f x y = None.

(** ** The preprocessing pass in the words of the specification

    An implicit multiplication operator is inserted between a closing
    parenthesis or a digit and an immediately following opening
    parenthesis.  [previous] is the character in front of [s]. *)
Fixpoint implicit_multiplication (previous : ascii) (s : string) : string :=
  match s with
  | EmptyString => EmptyString
  | String c r =>
      if Ascii.eqb c "(" && (Ascii.eqb previous ")" || isdigit previous)
      then String "*" (String c (implicit_multiplication c r))
      else String c (implicit_multiplication c r)
  end.

Definition with_implicit_multiplication (src : string) : string :=
  match src with
  | EmptyString => EmptyString
  | String c r => String c (implicit_multiplication c r)
  end.

(** ** expression.hpp: the rest of the interface *)

(** [explicit operator bool() const] *)
Definition operator_bool (this : expression) : bool :=
  match _head this with
  | null => false
  | Node _ _ _ => true
  end.

(** [compute(source, x, value)] *)
Definition compute_x (M : platform) (source : string) (x : ascii) (value : const_t)
    : outcome (option const_t) :=
  e ← construct M policy_build source;
  eval_x M e x value.

(** What a call of the [std::function] that [as_unary] returns does: the
    call [f.eval(ch, x)] with its outcome, and then [value()] of the
    optional, which throws [std::bad_optional_access] (none of the three
    classes of [exception]) on an empty one. *)
Inductive call_result : Type :=
  | returned (result : outcome const_t)
  | bad_optional_access.

Definition value (o : outcome (option const_t)) : call_result :=
  match o with
  | Ret (Some v) => returned (Ret v)
  | Ret None => bad_optional_access
  | Throw e => returned (Throw e)
  | Undefined => returned Undefined
  | OutOfFuel => returned OutOfFuel
  end.

(** [as_unary(ch) &&], the overload on an rvalue, which [parse_function]
    calls on its local object: the object is moved into [f], which leaves
    it without a tree, and the closure is then the one owner of the tree
    the object held.  (The overload on an lvalue copies the object into
    [f]; the copy shares the nodes of the tree with the object, whose
    [optimize()] may change them afterwards.  That overload is not modelled
    here.) *)
Definition as_unary (M : platform) (ch : ascii) (this : expression)
    : option (const_t -> call_result) :=
  match _head this with
  | null => None
  | Node _ _ _ => let f := this in Some (fun x => value (eval_x M f ch x))
  end.

(** [parse_function(source, x, p)]: [std::move(expr).as_unary(x)] on the
    object [expr] it has constructed. *)
Definition parse_function (M : platform) (source : string) (x : ascii) (p : policy)
    : outcome (option (const_t -> call_result)) :=
  expr ← construct M p source;
  Ret (as_unary M x expr).

(** ** Shapes of trees the optimizer treats alike *)

(** One unary function or more over a parameter (or over the [nothing]
    placeholder): what is still a unary node after [optimize_impl]. *)
Fixpoint unary_chain (node : node_ptr) : bool :=
  match node with
  | Node (Unary _) l _ => inert l || unary_chain l
  | _ => false
  end.

(** No binary operator of the tree has such a chain as an operand. *)
Fixpoint fusion_free (node : node_ptr) : bool :=
  match node with
  | Node (Binary _) l r =>
      negb (unary_chain l) && negb (unary_chain r) && fusion_free l && fusion_free r
  | Node (Unary _) l _ => fusion_free l
  | _ => true
  end.

(** ** Token sequences and the trees of the builder *)

(** The subtrees [build_impl] hangs below the root: a constant or a
    parameter without children, a unary function with its operand on the
    left and the [nothing] node on the right, a binary operator with two
    operands. *)
Fixpoint built (node : node_ptr) : bool :=
  match node with
  | Node (Const _) null null | Node (Param _) null null => true
  | Node (Unary _) l (Node nothing null null) => built l
  | Node (Binary _) l r => built l && built r
  | _ => false
  end.

(** The root is made before the loop, which gives the [nothing] node to
    the functions it hangs only. *)
Definition as_root (node : node_ptr) : node_ptr :=
  match node with
  | Node (Unary f) l _ => Node (Unary f) l null
  | _ => node
  end.

(** The tokens of a tree in the order the builder reads them, from
    [crbegin()] on: a node, its left subtree, its right subtree. *)
Fixpoint prefix_tokens (node : node_ptr) : list variant_t :=
  match node with
  | null => []
  | Node (Unary f) l _ => Unary f :: prefix_tokens l
  | Node c l r => c :: prefix_tokens l ++ prefix_tokens r
  end.

(** A [node*] of the stack whose node has its two children. *)
Definition full (head : node_ptr) (p : raw_ptr) : bool :=
  match deref head p with
  | Node _ (Node _ _ _) (Node _ _ _) => true
  | _ => false
  end.

(** The slot the loop finds free in a node with the children [l], [r]. *)
Definition free_slot (l r : node_ptr) : option slot :=
  match l, r with
  | null, _ => Some slot_left
  | Node _ _ _, null => Some slot_right
  | Node _ _ _, Node _ _ _ => None
  end.

(** ** Postfix sequences

    The usual reading of a token sequence in postfix (reverse Polish)
    order, with a stack: an operand is pushed, a function takes the top of
    the stack, an operator the two topmost entries, the first operand
    below the second.  [postfix_trees] makes trees, [postfix_values]
    values; the values end where an operator is not defined on its
    operands. *)
Definition postfix_tree (stack : list node_ptr) (token : variant_t)
    : option (list node_ptr) :=
  match token with
  | Const _ | Param _ => Some (make_shared token :: stack)
  | Unary _ =>
      match stack with
      | a :: below => Some (Node token a (make_shared nothing) :: below)
      | [] => None
      end
  | Binary _ =>
      match stack with
      | b :: a :: below => Some (Node token b a :: below)
      | _ => None
      end
  | nothing => None
  end.

Fixpoint postfix_trees (tokens : list variant_t) (stack : list node_ptr)
    : option (list node_ptr) :=
  match tokens with
  | [] => Some stack
  | token :: tokens' =>
      match postfix_tree stack token with
      | Some stack' => postfix_trees tokens' stack'
      | None => None
      end
  end.

Definition postfix_value (dictionary : gmap ascii const_t) (stack : list const_t)
    (token : variant_t) : option (list const_t) :=
  match token with
  | Const v => Some (v :: stack)
  | Param p =>
      match dictionary !! p with
      | Some v => Some (v :: stack)
      | None => None
      end
  | Unary f =>
      match stack with
      | a :: below => Some (f a :: below)
      | [] => None
      end
  | Binary f =>
      match stack with
      | b :: a :: below => v ← f a b; Some (v :: below)
      | _ => None
      end
  | nothing => None
  end.

Fixpoint postfix_values (dictionary : gmap ascii const_t) (tokens : list variant_t)
    (stack : list const_t) : option (list const_t) :=
  match tokens with
  | [] => Some stack
  | token :: tokens' =>
      match postfix_value dictionary stack token with
      | Some stack' => postfix_values dictionary tokens' stack'
      | None => None
      end
  end.

(** The tokens of a tree in postfix order: what [parse] hands to the
    builder, which reads it from the back. *)
Definition postfix_tokens (node : node_ptr) : list variant_t :=
  rev (prefix_tokens node).

(** ** What the parser hands over *)

(** The symbols [parse_impl] pushes on [sign_buffer]: the six operators and
    the eleven function symbols [sign_to_unary] knows. *)
Definition known_symbol (c : ascii) : bool :=
  detail.is_binary_f c ||
  in_chars c ["s"; "c"; "t"; "S"; "C"; "T"; "l"; "e"; "|"; "v"; "V"]%char.

Definition is_nothing (v : variant_t) : bool :=
  match v with nothing => true | _ => false end.

(** The exceptions that leave [parse]. *)
Definition parse_error (e : exception) : Prop :=
  e = logic_error "Unterminated parenthesis" \/
  e = logic_error "Closed parentheses without an opening correspective" \/
  (exists token : string,
     (1 < String.length token)%nat /\
     e = invalid_argument
           (token +:+
            " Unexpected token in parsing (name parameters must be 1 char long)")) \/
  e = out_of_range "stod".

(** The exceptions of [build_impl] itself. *)
Definition build_error (e : exception) : Prop :=
  e = logic_error "Bad parsing or semantics" \/
  e = logic_error "Function or operator without arguments".

(** A letter that begins no function name, nor [pi], nor [e]: at the head
    of a line it can only name a parameter. *)
Definition parameter_letter (c : ascii) : bool :=
  ((97 <=? code (tolower c)) && (code (tolower c) <=? 122))%N &&
  negb (in_chars c ["a"; "s"; "c"; "t"; "l"; "e"; "p"; "P"]%char).

(** ** Parentheses *)

Definition is_parenthesis (c : ascii) : bool :=
  Ascii.eqb c "(" || Ascii.eqb c ")".

Fixpoint no_parenthesis (s : string) : bool :=
  match s with
  | EmptyString => true
  | String c r => negb (is_parenthesis c) && no_parenthesis r
  end.

(** The parentheses of a line counted from left to right, [depth] of them
    being open: [None] where one is closed that was not opened. *)
Fixpoint balance (s : string) (depth : nat) : option nat :=
  match s with
  | EmptyString => Some depth
  | String c r =>
      if Ascii.eqb c "(" then balance r (S depth)
      else if Ascii.eqb c ")" then
        match depth with
        | O => None
        | S depth' => balance r depth'
        end
      else balance r depth
  end.

Definition balanced (s : string) : bool :=
  match balance s 0 with
  | Some O => true
  | _ => false
  end.

(** ** Integer literals and operators *)

Fixpoint all_digits (s : string) : bool :=
  match s with
  | EmptyString => true
  | String c r => isdigit c && all_digits r
  end.

(** An integer literal that is a [double]. *)
Definition short_integer (s : string) : bool :=
  match s with
  | EmptyString => false
  | String _ _ => all_digits s && (digits_value s <? 2 ^ 53)
  end.

Definition literal (s : string) : const_t := double_of_long (digits_value s).

(** The function of an operator character. *)
Definition operator_function (M : platform) (op : ascii) : binary_f :=
  match detail.sign_to_binary M op with
  | Ret f => f
  | _ => fun a _ => Some a
  end.

(** What follows a literal: the end of the line or an operator. *)
Definition ends_literal (r : string) : bool :=
  match r with
  | EmptyString => true
  | String op _ => detail.is_binary_f op
  end.

(** The function [parse_impl] pushes for a name [fun] matched: the symbol
    of the [switch], read back by [sign_to_unary]. *)
Definition named_function (M : platform) (name : string) : outcome unary_f :=
  detail.sign_to_unary M (pushed_symbol name).

Definition function_named (M : platform) (name : string) : unary_f :=
  match named_function M name with
  | Ret f => f
  | _ => fun a => a
  end.

(** The names of the two constants: [pi] in any case, and [e]. *)
Definition constant_names : list string := ["pi"; "PI"; "Pi"; "pI"; "e"].

Definition constant_value (M : platform) (name : string) : const_t :=
  if String.eqb name "e" then libm_exp M 1%float else pi.

(** ** Formulas

    Integer literals, parameters, the constants, the six operators,
    parentheses and the named functions.  The text of a formula has the
    parentheses of its groups and function calls only; it is read back as
    the formula it was printed from when each operator binds no tighter
    than the operator at the root of its left operand and less tightly than
    the one at the root of its right operand: the usual precedence, with
    operators of one level taken from left to right. *)
Inductive formula : Type :=
  | Literal (n : string)
  | Letter (c : ascii)
  | Constant (name : string)
  | Operation (op : ascii) (l r : formula)
  | Group (t : formula)
  | Apply (name : string) (t : formula).

Fixpoint formula_text (t : formula) : string :=
  match t with
  | Literal n => n
  | Letter c => String c EmptyString
  | Constant name => name
  | Operation op l r => formula_text l +:+ String op (formula_text r)
  | Group t' => String "(" (formula_text t' +:+ ")")
  | Apply name t' => name +:+ String "(" (formula_text t' +:+ ")")
  end.

(** The tokens of a formula in postfix order. *)
Fixpoint formula_tokens (M : platform) (t : formula) : list variant_t :=
  match t with
  | Literal n => [Const (literal n)]
  | Letter c => [Param c]
  | Constant name => [Const (constant_value M name)]
  | Operation op l r =>
      formula_tokens M l ++ formula_tokens M r
      ++ [Binary (operator_function M op)]
  | Group t' => formula_tokens M t'
  | Apply name t' => formula_tokens M t' ++ [Unary (function_named M name)]
  end.

(** The value of a formula, where the dictionary binds its parameters and
    every operator is defined on its operands. *)
Fixpoint formula_value (M : platform) (dictionary : gmap ascii const_t)
    (t : formula) : option const_t :=
  match t with
  | Literal n => Some (literal n)
  | Letter c => dictionary !! c
  | Constant name => Some (constant_value M name)
  | Operation op l r =>
      match formula_value M dictionary l, formula_value M dictionary r with
      | Some a, Some b => operator_function M op a b
      | _, _ => None
      end
  | Group t' => formula_value M dictionary t'
  | Apply name t' => function_named M name <$> formula_value M dictionary t'
  end.

(** Whether an operator of priority [p] may stand over the formula: on the
    left ([strict] false) over operators that are not weaker, on the right
    over stronger ones only; over a function call when the function binds
    tighter. *)
Definition binds (strict : bool) (p : Z) (t : formula) : bool :=
  match t with
  | Operation op _ _ =>
      if strict then p <? detail.sign_priority op
      else p <=? detail.sign_priority op
  | Apply name _ => p <=? detail.sign_priority (pushed_symbol name)
  | _ => true
  end.

Fixpoint well_formed (t : formula) : bool :=
  match t with
  | Literal n => short_integer n
  | Letter c => parameter_letter c
  | Constant name => existsb (String.eqb name) constant_names
  | Operation op l r =>
      detail.is_binary_f op && well_formed l && well_formed r
      && binds false (detail.sign_priority op) l
      && binds true (detail.sign_priority op) r
  | Group t' => well_formed t'
  | Apply name t' =>
      existsb (String.eqb name) regex.fun_names && well_formed t'
  end.

(** The token of a symbol of [sign_buffer]. *)
Definition symbol_variant (M : platform) (symbol : ascii) : variant_t :=
  match symbol_token M symbol with
  | Ret token => token
  | _ => nothing
  end.

(** The state of the parser when it has read a formula: the symbols still
    on [sign_buffer], and the tokens already in [buffer]. *)
Fixpoint pending (t : formula) : list ascii :=
  match t with
  | Operation op _ r => pending r ++ [op]
  | Apply name _ => [pushed_symbol name]
  | _ => []
  end.

Fixpoint buffered (M : platform) (t : formula) : list variant_t :=
  match t with
  | Operation _ l r => formula_tokens M l ++ buffered M r
  | Apply _ t' => formula_tokens M t'
  | _ => formula_tokens M t
  end.

(** The top of [sign_buffer] is weaker than the priority [p]. *)
Definition weaker_top (sign_buffer : list ascii) (p : Z) : bool :=
  match sign_buffer with
  | [] => true
  | back :: _ => detail.sign_priority back <? p
  end.

(** A string of white space only. *)
Fixpoint blank (s : string) : bool :=
  match s with
  | EmptyString => true
  | String c r => isspace c && blank r
  end.

(** * Properties *)

(** The two orders of evaluation of a call's arguments are the two values
    of the last field of the platform. *)
Ltac both_orders M :=
  destruct M as [? ? ? ? ? ? ? ? ? ? ? []].

Ltac run M := both_orders M; reflexivity.

Ltac each_char c := destruct c as [[] [] [] [] [] [] [] []].

(** ** Running the examples of the specification *)

Lemma compute_precedence (M : platform) :
  compute M "2+3*4" = Ret (Some 14%float) /\
  compute M "(2+3)*4" = Ret (Some 20%float).
Proof. split; run M. Qed.

Lemma compute_power_chain (M : platform) :
  compute M "2^3^2" = Ret (Some (libm_pow M (libm_pow M 2 3) 2)).
Proof. run M. Qed.

(** It is 64 where [pow] is exact on 2^3 and 8^2. *)
Lemma compute_power_chain_exact (M : platform) :
  libm_pow M 2 3 = 8%float -> libm_pow M 8 2 = 64%float ->
  compute M "2^3^2" = Ret (Some 64%float).
Proof. intros H1 H2. rewrite compute_power_chain, H1, H2. reflexivity. Qed.

Lemma compute_power_chain_example :
  compute example_platform "2^3^2" = Ret (Some 64%float).
Proof. apply compute_power_chain_exact; reflexivity. Qed.

Lemma compute_leading_sign (M : platform) :
  compute M "-5+2" = Ret (Some (-3)%float).
Proof. run M. Qed.

Lemma compute_functions (M : platform) :
  compute M "sqrt(16)" = Ret (Some 4%float) /\
  compute M "abs(-5)" = Ret (Some 5%float) /\
  compute M "pi" = Ret (Some pi) /\
  compute M "e" = Ret (Some (libm_exp M 1)).
Proof. repeat split; run M. Qed.

Lemma compute_unassigned (M : platform) :
  compute M "y" = Throw (logic_error "Unassigned parameter y").
Proof. run M. Qed.

Lemma compute_empty (M : platform) :
  compute M EmptyString = Ret (Some 0%float).
Proof. run M. Qed.

(** The trees of the examples are the trees [build] leaves. *)
Lemma example_trees (M : platform) :
  construct M policy_build "sqrt(x)-1" = Ret (Expression sqrt_x_minus_1 ∅) /\
  after (optimize M (Expression sqrt_x_minus_1 ∅)) =
    Ret (Expression sqrt_x_minus_1_fused ∅) /\
  construct M policy_optimize "sqrt(x)-1" = Ret (Expression sqrt_x_minus_1_fused ∅) /\
  construct M policy_build "x+1" = Ret (Expression x_plus_1 ∅) /\
  construct M policy_build "x+y" = Ret (Expression x_plus_y ∅).
Proof. repeat split; run M. Qed.

(** The levels of [sign_priority] on the symbols the parser keeps in
    [sign_buffer], and the tie-break. *)
Lemma sign_priority_levels :
  map detail.sign_priority ["+"; "-"]%char = [0; 0] /\
  map detail.sign_priority ["*"; "/"]%char = [1; 1] /\
  detail.sign_priority "^" = 2 /\
  map detail.sign_priority ["s"; "c"; "t"; "S"; "C"; "T"; "l"; "e"; "v"; "V"]%char
    = [3; 3; 3; 3; 3; 3; 3; 3; 3; 3] /\
  map detail.sign_priority ["|"; "%"]%char = [-1; -1].
Proof. repeat split. Qed.

Lemma equal_priority_pops (A B : ascii) :
  detail.sign_priority A = detail.sign_priority B ->
  detail.stronger_sign A B = false.
Proof. unfold detail.stronger_sign. intros ->. apply Z.ltb_irrefl. Qed.

(** ** The optimizer on a binary operator over a function *)

(** C1: the value of [eval()] after [optimize()] differs from the value
    before it when a binary operator is fused with a unary child.  The
    composed function applies the child's function to the other operand:
    "sin(x)-1" becomes x - sin(1) and "1-sin(x)" becomes sin(1) - x on every
    platform; with the IEEE square root, "sqrt(x)-1" at x = 4 is 1 before and
    3 after, and "1-sqrt(x)" is -1 before and -3 after. *)
Theorem optimize_fuses_onto_the_other_operand (M : platform) (x : const_t) :
  eval_built M "sin(x)-1" "x" x = Ret (Some (libm_sin M x - 1)%float) /\
  eval_optimized M "sin(x)-1" "x" x = Ret (Some (x - libm_sin M 1)%float) /\
  eval_built M "1-sin(x)" "x" x = Ret (Some (1 - libm_sin M x)%float) /\
  eval_optimized M "1-sin(x)" "x" x = Ret (Some (libm_sin M 1 - x)%float) /\
  eval_built M "sqrt(x)-1" "x" 4 = Ret (Some 1%float) /\
  eval_optimized M "sqrt(x)-1" "x" 4 = Ret (Some 3%float) /\
  eval_built M "1-sqrt(x)" "x" 4 = Ret (Some (-1)%float) /\
  eval_optimized M "1-sqrt(x)" "x" 4 = Ret (Some (-3)%float).
Proof. repeat split; run M. Qed.

(** ** The builder on an operator without its operand *)

(** C2: [build("1+")] returns, and the root of the tree it leaves is the
    binary operator [+] with a null right child; [eval()] on it dereferences
    that null pointer. *)
Theorem build_accepts_missing_operand (M : platform) :
  construct M policy_build "1+" =
    Ret (Expression
           (Node (Binary detail.function.plus) (Node (Const 1) null null) null)
           ∅) /\
  compute M "1+" = Undefined.
Proof. split; run M. Qed.

(** ** Precedence of [abs] *)

(** C3: [sign_priority] gives 3 to the symbol of every named function but
    the one of [abs]: that symbol is the bar, which is not in the list of
    [sign_priority] (the list has an a, a symbol nothing is pushed as), so
    [abs] falls to -1, below [+].  "abs(0-3)+1" is parsed as abs((0-3)+1)
    and evaluates to 2, not to 4.  The rest of the claim holds: "2+3*4" is
    14, "(2+3)*4" is 20 and "2^3^2" is pow(pow(2,3),2). *)
Theorem abs_binds_weaker_than_plus (M : platform) :
  map pushed_symbol regex.fun_names =
    ["S"; "s"; "C"; "c"; "T"; "T"; "t"; "t"; "l"; "e"; "|"; "v"; "V"]%char /\
  map (fun name => detail.sign_priority (pushed_symbol name)) regex.fun_names =
    [3; 3; 3; 3; 3; 3; 3; 3; 3; 3; -1; 3; 3] /\
  detail.stronger_sign "+" "|" = true /\
  parse M "abs(0-3)+1" =
    Ret [Const 0; Const 3; Binary detail.function.minus; Const 1;
         Binary detail.function.plus; Unary detail.function.abs] /\
  compute M "abs(0-3)+1" = Ret (Some 2%float) /\
  compute M "2+3*4" = Ret (Some 14%float) /\
  compute M "(2+3)*4" = Ret (Some 20%float) /\
  compute M "2^3^2" = Ret (Some (libm_pow M (libm_pow M 2 3) 2)).
Proof. repeat split; run M. Qed.

(** ** Parameters *)

(** C4: a [Parameter] node evaluates to the override value when
    [eval(name, value)] names it, otherwise to its dictionary entry, and
    fails with "Unassigned parameter " followed by its name when it has
    neither; for "x+1", [set_param('x', 4)] then [eval()] is 5, and
    [eval('x', 10)] without a binding is 11. *)
Theorem parameter_resolution (M : platform) :
  (forall (d : gmap ascii const_t) (p x : ascii) (value : const_t) (l r : node_ptr),
     eval_impl_x M d (Node (Param p) l r) x value =
       if decide (p = x) then Ret value
       else match d !! p with
            | Some v => Ret v
            | None => Throw (logic_error ("Unassigned parameter " +:+ String p EmptyString))
            end) /\
  (forall (d : gmap ascii const_t) (p : ascii) (l r : node_ptr),
     eval_impl M d (Node (Param p) l r) =
       match d !! p with
       | Some v => Ret v
       | None => Throw (logic_error ("Unassigned parameter " +:+ String p EmptyString))
       end) /\
  (e ← construct M policy_build "x+1"; eval M (set_param "x" 4 e))
    = Ret (Some 5%float) /\
  (e ← construct M policy_build "x+1"; eval_x M e "x" 10)
    = Ret (Some 11%float) /\
  (e ← construct M policy_build "x+1"; eval M e)
    = Throw (logic_error "Unassigned parameter x") /\
  (e ← construct M policy_build "x+1"; eval_x M e "y" 10)
    = Throw (logic_error "Unassigned parameter x").
Proof.
  split; [| split].
  - intros d p x value l r. cbn [eval_impl_x]. unfold unassigned.
    destruct (Ascii.eqb_spec p x) as [-> | Hne].
    + rewrite decide_True by reflexivity. reflexivity.
    + rewrite decide_False by assumption. reflexivity.
  - intros d p l r. reflexivity.
  - repeat split; run M.
Qed.

(** ** Malformed input *)

(** C8: constructing an expression from "(1+2", from "1+2)" and from "sin"
    throws [logic_error] with the messages "Unterminated parenthesis",
    "Closed parentheses without an opening correspective" and "Function or
    operator without arguments", under either policy; a constructor that
    throws yields no object. *)
Theorem malformed_input_throws (M : platform) (p : policy) :
  construct M p "(1+2" = Throw (logic_error "Unterminated parenthesis") /\
  construct M p "1+2)" =
    Throw (logic_error "Closed parentheses without an opening correspective") /\
  construct M p "sin" =
    Throw (logic_error "Function or operator without arguments").
Proof. destruct p; repeat split. Qed.

(** The two parse errors are raised before [build] touches the object. *)
Lemma parse_error_keeps_object (M : platform) (p : policy) (this : expression) :
  build M p "(1+2" this = (this, Throw (logic_error "Unterminated parenthesis")) /\
  build M p "1+2)" this =
    (this, Throw (logic_error "Closed parentheses without an opening correspective")).
Proof. destruct p; split; reflexivity. Qed.

(** The arity error is raised after [_head] was replaced. *)
Lemma arity_error_replaces_head (M : platform) (this : expression) :
  build M policy_build "sin" this =
    (set_head this (make_shared (Unary (detail.function.sin M))),
     Throw (logic_error "Function or operator without arguments")).
Proof. reflexivity. Qed.

(** ** Tokens in front of a trailing parameter *)

Lemma assign_root (c : variant_t) (l r : node_ptr) (p : raw_ptr) (s : slot)
    (src : node_ptr) :
  exists l' r', assign (Node c l r) p s src = Node c l' r'.
Proof. destruct p as [| [] p], s; simpl; eauto. Qed.

(** One turn of the loop, for a token and a stack. *)
Lemma build_loop_turn (token : variant_t) (it' : list variant_t)
    (head : node_ptr) (top : raw_ptr) (below : list raw_ptr) :
  build_loop (token :: it') head (top :: below) =
    match deref head top with
    | null => Undefined
    | Node _ null _ =>
        place (build_loop it') token head (top :: below) top slot_left
    | Node _ _ null =>
        place (build_loop it') token head (top :: below) top slot_right
    | Node _ _ _ => build_loop (token :: it') head below
    end.
Proof. reflexivity. Qed.

(** The loop of the builder never throws, and it leaves the content of the
    root as it found it. *)
Lemma build_loop_root (it : list variant_t) :
  forall (c : variant_t) (l r : node_ptr) (stack : list raw_ptr),
    match build_loop it (Node c l r) stack with
    | Ret head => exists l' r', head = Node c l' r'
    | Throw _ => False
    | Undefined => True
    | OutOfFuel => False
    end.
Proof.
  induction it as [| token it' IH]; intros c l r stack; [simpl; eauto |].
  induction stack as [| top below IHwalk]; [exact I |].
  rewrite build_loop_turn.
  assert (Hplace : forall s : slot,
    match place (build_loop it') token (Node c l r) (top :: below) top s with
    | Ret head => exists l' r', head = Node c l' r'
    | Throw _ => False
    | Undefined => True
    | OutOfFuel => False
    end).
  { intros s. unfold place.
    destruct (assign_root c l r top s (make_shared token)) as (l1 & r1 & E1).
    rewrite E1.
    destruct (assign_root c l1 r1 (top ++ [s]) slot_right (make_shared nothing))
      as (l2 & r2 & E2).
    rewrite E2.
    destruct token; apply IH. }
  destruct (deref (Node c l r) top) as [| c0 l0 r0]; [exact I |].
  destruct l0; [apply Hplace |].
  destruct r0; [apply Hplace |].
  apply IHwalk.
Qed.

(** When the last token is a [Parameter], [build_impl] throws nothing
    whatever the tokens in front of it (the size check is made for a last
    token that is a [Constant] or a function); with one or two tokens in
    front it returns; whenever it returns, the root it leaves is that
    parameter with the dictionary untouched, and [eval()] is the parameter's
    binding alone.  "3x" is the tokens 3 and x, its tree is the node x with
    3 hung below it, and with x bound to 5 it evaluates to 5. *)
Lemma trailing_parameter_hides_tokens (M : platform) :
  (forall (symbols : list variant_t) (p : ascii) (this : expression),
     match build_tree (symbols ++ [Param p]) this with
     | (this', Ret _) =>
         exists l r, this' = Expression (Node (Param p) l r) (_dictionary this)
     | (_, Throw _) => False
     | (_, Undefined) => True
     | (_, OutOfFuel) => False
     end) /\
  (forall (a : variant_t) (p : ascii) (this : expression),
     exists l r,
       build_tree [a; Param p] this =
         (Expression (Node (Param p) l r) (_dictionary this), Ret tt)) /\
  (forall (a b : variant_t) (p : ascii) (this : expression),
     exists l r,
       build_tree [a; b; Param p] this =
         (Expression (Node (Param p) l r) (_dictionary this), Ret tt)) /\
  (forall (p : ascii) (l r : node_ptr) (d : gmap ascii const_t),
     eval M (Expression (Node (Param p) l r) d) =
       match d !! p with
       | Some value => Ret (Some value)
       | None => Throw (unassigned p)
       end) /\
  parse M "3x" = Ret [Const 3; Param "x"] /\
  construct M policy_build "3x" =
    Ret (Expression (Node (Param "x") (Node (Const 3) null null) null) ∅) /\
  eval_built M "3x" "x" 5 = Ret (Some 5%float).
Proof.
  split; [| split; [| split; [| split; [| repeat split; run M]]]].
  - intros symbols p this. unfold build_tree.
    rewrite rev_app_distr. simpl.
    pose proof (build_loop_root (rev symbols) (Param p) null null [[]]) as H.
    unfold make_shared.
    destruct (build_loop (rev symbols) (Node (Param p) null null) [[]]);
      try exact H.
    destruct H as (l & r & ->). exists l, r. reflexivity.
  - intros a p this. destruct a; do 2 eexists; reflexivity.
  - intros a b p this. destruct a, b; do 2 eexists; reflexivity.
  - intros p l r d. unfold eval. cbn [_head _dictionary eval_impl].
    destruct (d !! p); reflexivity.
Qed.

(** C9: with three tokens in front of the trailing parameter the builder
    does not return.  "1 2 3x" is the tokens 1, 2, 3, x; the root x takes 3
    and 2 as its children, is popped as full when 1 is read, and the next
    turn of the loop takes [top()] of the empty stack: the loop pops without
    a test for an empty stack.  With a [Constant] as the last token the
    builder throws for tokens in front of it: "1 2 3" is refused with "Bad
    parsing or semantics".  With one or two tokens in front of the parameter
    it does what the claim says: "3x" and "2 3x" are built without an error
    and evaluate to the binding of x. *)
Theorem trailing_parameter_stack_runs_empty (M : platform) :
  parse M "1 2 3x" = Ret [Const 1; Const 2; Const 3; Param "x"] /\
  build_loop [Const 3; Const 2; Const 1] (make_shared (Param "x")) [[]] =
    Undefined /\
  construct M policy_build "1 2 3x" = Undefined /\
  eval_built M "1 2 3x" "x" 5 = Undefined /\
  construct M policy_build "1 2 3" =
    Throw (logic_error "Bad parsing or semantics") /\
  eval_built M "3x" "x" 5 = Ret (Some 5%float) /\
  eval_built M "2 3x" "x" 5 = Ret (Some 5%float).
Proof. repeat split; run M. Qed.

(** ** The priority of the modulus operator *)

(** C10, as stated: a later operator does pop [%] when it is [%] itself; in
    "7%4%2" the second [%] moves the first to the output, so the line is
    (7%4)%2. *)
Lemma later_modulus_pops_modulus :
  detail.is_binary_f "%" = true /\
  detail.stronger_sign "%" "%" = false /\
  pop_not_weaker example_platform "%" [Const 7; Const 4] ["%"%char] =
    Ret ([Const 7; Const 4; Binary detail.function.modulus], []) /\
  parse example_platform "7%4%2" =
    Ret [Const 7; Const 4; Binary detail.function.modulus;
         Const 2; Binary detail.function.modulus] /\
  compute example_platform "7%4%2" = Ret (Some 1%float).
Proof. repeat split. Qed.

Lemma modulus_never_stronger (back : ascii) :
  detail.stronger_sign "%" back = false.
Proof. each_char back; reflexivity. Qed.

Lemma pop_not_weaker_modulus (M : platform) (sign_buffer : list ascii) :
  forall buffer : list variant_t,
    match pop_not_weaker M "%" buffer sign_buffer with
    | Ret (_, sign_buffer') => sign_buffer' = []
    | _ => True
    end.
Proof.
  induction sign_buffer as [| back below IH]; intros buffer; simpl; [reflexivity |].
  rewrite modulus_never_stronger. simpl.
  destruct (symbol_token M back); simpl; try exact I. apply IH.
Qed.

(** C10, amended: [%] has priority -1, below the 0 of [+] and [-] and below
    every other operator; reading [%] moves every pending symbol to the
    output, so that [%] is pushed on an empty [sign_buffer]; a later
    operator other than [%] is stronger and leaves it there; "1+2%3" is the
    postfix line 1 2 + 3 %, that is (1+2)%3, and evaluates to 0. *)
Theorem modulus_has_lowest_priority (M : platform) :
  detail.sign_priority "%" = -1 /\
  (forall op : ascii,
     detail.is_binary_f op = true -> op <> "%"%char ->
     detail.sign_priority "%" < detail.sign_priority op /\
     detail.stronger_sign op "%" = true) /\
  (forall back : ascii, detail.stronger_sign "%" back = false) /\
  (forall (buffer : list variant_t) (sign_buffer : list ascii),
     match pop_not_weaker M "%" buffer sign_buffer with
     | Ret (_, sign_buffer') => sign_buffer' = []
     | _ => True
     end) /\
  parse M "1+2%3" =
    Ret [Const 1; Const 2; Binary detail.function.plus; Const 3;
         Binary detail.function.modulus] /\
  compute M "1+2%3" = Ret (Some 0%float).
Proof.
  split; [reflexivity |].
  split.
  { intros op Hop Hne.
    each_char op; try discriminate Hop; try (split; reflexivity).
    contradiction Hne; reflexivity. }
  split; [exact modulus_never_stronger |].
  split; [intros; apply pop_not_weaker_modulus |].
  split; run M.
Qed.

(** The amended claim at the operator [+]. *)
Lemma modulus_has_lowest_priority_witness :
  detail.sign_priority "%" < detail.sign_priority "+" /\
  detail.stronger_sign "+" "%" = true.
Proof.
  apply (proj1 (proj2 (modulus_has_lowest_priority example_platform)) "+"%char).
  - reflexivity.
  - discriminate.
Defined.

(** ** The optimizer is idempotent *)

Lemma inert_not_evalutable (node : node_ptr) :
  inert node = true -> detail.evalutable node = false.
Proof. destruct node as [| [] l r]; simpl; congruence. Qed.

Lemma inert_settled (node : node_ptr) : inert node = true -> settled node = true.
Proof. destruct node as [| [] l r]; simpl; congruence. Qed.

Lemma inert_optimized (node : node_ptr) : inert node = true -> optimized node = true.
Proof. destruct node as [| [] l r]; simpl; congruence. Qed.

(** What [optimize_impl] returns has the shape [optimized]. *)
Lemma optimize_impl_optimized (M : platform) (d : gmap ascii float) (node : node_ptr) :
  match optimize_impl M d node with
  | Ret node' => optimized node' = true
  | _ => True
  end.
Proof.
  induction node as [| content l IHl r IHr]; [exact I |].
  destruct content as [| value | param | f | f]; try reflexivity.
  - (* a unary function *)
    cbn [optimize_impl].
    destruct (optimize_impl M d l) as [l' | | |]; try exact I.
    cbn [mbind outcome_bind].
    destruct (detail.evalutable l') eqn:El.
    + destruct (eval_impl M d (Node (Unary f) l' r)); exact I || reflexivity.
    + destruct l' as [| [| value | param | g | g] ll lr];
        simpl in *; congruence.
  - (* a binary operator *)
    cbn [optimize_impl].
    destruct (optimize_impl M d l) as [l' | | |]; try exact I.
    destruct (optimize_impl M d r) as [r' | | |]; try exact I.
    cbn [mbind outcome_bind].
    destruct (detail.evalutable (Node (Binary f) l' r')) eqn:E.
    + destruct (eval_impl M d (Node (Binary f) l' r')); exact I || reflexivity.
    + simpl in E.
      destruct r' as [| [| rv | rp | rg | rg] rl rr]; try discriminate IHr;
      destruct l' as [| [| lv | lp | lg | lg] ll lr]; try discriminate IHl;
        simpl in *;
        rewrite ?(inert_not_evalutable _ IHl), ?(inert_not_evalutable _ IHr),
                ?(inert_settled _ IHl), ?(inert_settled _ IHr),
                ?(inert_optimized _ IHl), ?(inert_optimized _ IHr),
                ?IHl, ?IHr, ?E, ?andb_false_r, ?andb_true_r;
        try reflexivity; try congruence.
Qed.

Lemma settled_cases (node : node_ptr) :
  settled node = true ->
  exists c l r, node = Node c l r /\
    match c with Unary _ => False | _ => True end.
Proof.
  destruct node as [| c l r]; [discriminate |].
  intros H. exists c, l, r. split; [reflexivity |].
  destruct c; simpl in H; try exact I. discriminate.
Qed.

(** A tree of that shape is a fixed point of [optimize_impl], whatever the
    dictionary. *)
Lemma optimized_fixed (M : platform) (d : gmap ascii float) (node : node_ptr) :
  optimized node = true -> optimize_impl M d node = Ret node.
Proof.
  induction node as [| content l IHl r IHr]; [discriminate |].
  destruct content as [| value | param | f | f]; try reflexivity.
  - (* a unary function over an inert node *)
    cbn [optimized optimize_impl]. intros Hl.
    rewrite (IHl (inert_optimized _ Hl)). cbn [mbind outcome_bind].
    rewrite (inert_not_evalutable _ Hl).
    destruct l as [| [] ll lr]; try discriminate Hl; reflexivity.
  - (* a binary operator that cannot be folded, over settled nodes *)
    cbn [optimized optimize_impl]. intros H.
    apply andb_prop in H as [H Hr]. apply andb_prop in H as [H Hl].
    apply andb_prop in H as [H Sr]. apply andb_prop in H as [E Sl].
    rewrite (IHl Hl), (IHr Hr). cbn [mbind outcome_bind detail.evalutable].
    apply negb_true_iff in E. rewrite E.
    destruct (settled_cases _ Sl) as (cl & ll & lr & -> & Hcl).
    destruct (settled_cases _ Sr) as (cr & rl & rr & -> & Hcr).
    destruct cl, cr; try contradiction; reflexivity.
Qed.

(** C5: when [optimize()] has returned, a second [optimize()] returns and
    leaves the tree as the first one left it, also when parameters were
    bound in between; so [eval()] gives the same after two passes as after
    one, for every binding.  A node folded to a constant is returned as it
    is. *)
Theorem optimize_idempotent (M : platform) (this this1 : expression) :
  optimize M this = (this1, Ret tt) ->
  (forall d : gmap ascii float,
     optimize M (Expression (_head this1) d) =
       (Expression (_head this1) d, Ret tt)) /\
  (forall d : gmap ascii float,
     (e ← after (optimize M (Expression (_head this1) d)); eval M e) =
       eval M (Expression (_head this1) d)) /\
  (forall (d : gmap ascii float) (value : float) (l r : node_ptr),
     optimize_impl M d (Node (Const value) l r) = Ret (Node (Const value) l r)).
Proof.
  intros H.
  assert (Hfixed : forall d : gmap ascii float,
    optimize M (Expression (_head this1) d) =
      (Expression (_head this1) d, Ret tt)).
  { intros d. unfold optimize in *. cbn [_head _dictionary].
    destruct this as [head dict]. cbn [_head _dictionary] in H.
    destruct head as [| c l r].
    - injection H as <-. reflexivity.
    - pose proof (optimize_impl_optimized M dict (Node c l r)) as Hshape.
      destruct (optimize_impl M dict (Node c l r)) as [head' | | |];
        try discriminate H.
      injection H as <-. cbn [set_head _head].
      pose proof (optimized_fixed M d head' Hshape) as Hd.
      destruct head'; [discriminate Hshape |].
      rewrite Hd. reflexivity. }
  split; [exact Hfixed |].
  split; [| reflexivity].
  intros d. rewrite Hfixed. reflexivity.
Qed.

(** The theorem on the tree of "sqrt(x)-1": the first pass fuses the
    square root into the subtraction, the second, with x bound to 4 in
    between, changes nothing. *)
Lemma optimize_idempotent_witness :
  optimize example_platform (Expression sqrt_x_minus_1 ∅) =
    (Expression sqrt_x_minus_1_fused ∅, Ret tt) /\
  optimize example_platform
    (Expression sqrt_x_minus_1_fused (<["x"%char := 4%float]> ∅)) =
    (Expression sqrt_x_minus_1_fused (<["x"%char := 4%float]> ∅), Ret tt).
Proof.
  split; [reflexivity |].
  apply (optimize_idempotent example_platform
           (Expression sqrt_x_minus_1 ∅) (Expression sqrt_x_minus_1_fused ∅)).
  reflexivity.
Defined.

(** ** Retrying a failed evaluation *)

Lemma unassigned_inj (p q : ascii) : unassigned p = unassigned q -> p = q.
Proof. unfold unassigned. intros H. injection H. auto. Qed.

Lemma call_binary_returns (M : platform) (f : float -> float -> option float)
    (a b : outcome float) (x y : float) :
  a = Ret x -> b = Ret y -> call_binary M f a b = invoke f x y.
Proof. intros -> ->. unfold call_binary. destruct (args_right_to_left M); reflexivity. Qed.

(** What [call_binary] throws, one of its arguments threw. *)
Lemma call_binary_throws (M : platform) (f : float -> float -> option float)
    (a b : outcome float) (e : exception) :
  call_binary M f a b = Throw e -> a = Throw e \/ b = Throw e.
Proof.
  unfold call_binary, invoke.
  destruct (args_right_to_left M), a as [x | | |], b as [y | | |]; simpl; intros H;
    try discriminate H; auto; destruct (f x y); discriminate H.
Qed.

(** An unassigned-parameter error names a parameter of the tree that the
    dictionary does not bind. *)
Lemma eval_impl_unassigned (M : platform) (d : gmap ascii float) (p : ascii)
    (node : node_ptr) :
  eval_impl M d node = Throw (unassigned p) ->
  p ∈ parameters node /\ d !! p = None.
Proof.
  induction node as [| content l IHl r IHr]; [discriminate |].
  destruct content as [| value | param | f | f]; cbn [eval_impl parameters].
  - intros H. discriminate H.
  - discriminate.
  - destruct (d !! param) eqn:E; [discriminate |].
    intros H. injection H as H.
    assert (param = p) as -> by (apply unassigned_inj; unfold unassigned; congruence).
    split; [apply list_elem_of_singleton; reflexivity | exact E].
  - destruct (eval_impl M d l); try discriminate.
    intros H. injection H as ->. apply IHl. reflexivity.
  - intros H. apply call_binary_throws in H as [H | H].
    + destruct (IHr H) as [Hin Hd]. split; [| exact Hd].
      apply elem_of_app. left. exact Hin.
    + destruct (IHl H) as [Hin Hd]. split; [| exact Hd].
      apply elem_of_app. right. exact Hin.
Qed.

(** The nodes [eval_impl] visits below a node are visited from above. *)
Lemma undefined_operation_left (M : platform) (d : gmap ascii float)
    (c : variant_t) (l r : node_ptr) :
  is_function c = true ->
  undefined_operation M d l -> undefined_operation M d (Node c l r).
Proof.
  intros Hc (f & fl & fr & x & y & Hin & H).
  exists f, fl, fr, x, y. split; [| exact H].
  destruct c; try discriminate Hc; cbn [visited];
    apply elem_of_cons; right; [exact Hin |].
  apply elem_of_app. right. exact Hin.
Qed.

Lemma undefined_operation_right (M : platform) (d : gmap ascii float)
    (g : float -> float -> option float) (l r : node_ptr) :
  undefined_operation M d r -> undefined_operation M d (Node (Binary g) l r).
Proof.
  intros (f & fl & fr & x & y & Hin & H).
  exists f, fl, fr, x, y. split; [| exact H].
  cbn [visited]. apply elem_of_cons. right. apply elem_of_app. left. exact Hin.
Qed.

Lemma undefined_operation_here (M : platform) (d : gmap ascii float)
    (f : float -> float -> option float) (l r : node_ptr) (x y : float) :
  eval_impl M d r = Ret x -> eval_impl M d l = Ret y -> f x y = None ->
  undefined_operation M d (Node (Binary f) l r).
Proof.
  intros Hr Hl Hf. exists f, l, r, x, y.
  split; [cbn [visited]; apply elem_of_cons; left; reflexivity | auto].
Qed.

(** On a complete tree whose parameters are all bound, [eval_impl] returns,
    unless it comes to an operator whose call on the values of its operands
    has undefined behaviour. *)
Lemma eval_impl_returns (M : platform) (d : gmap ascii float) (node : node_ptr) :
  complete node = true ->
  (forall q, q ∈ parameters node -> is_Some (d !! q)) ->
  (exists value, eval_impl M d node = Ret value) \/
  (eval_impl M d node = Undefined /\ undefined_operation M d node).
Proof.
  induction node as [| content l IHl r IHr]; [discriminate |].
  destruct content as [| value | param | f | f];
    cbn [eval_impl parameters complete]; intros Hc Hp.
  - discriminate Hc.
  - eauto.
  - destruct (Hp param) as [value E]; [apply list_elem_of_singleton; reflexivity |].
    rewrite E. eauto.
  - destruct (IHl Hc Hp) as [[a ->] | [-> Hu]]; simpl; [eauto |].
    right. split; [reflexivity |]. apply undefined_operation_left; auto.
  - apply andb_prop in Hc as [Hl Hr].
    destruct (IHl Hl) as [[a Ea] | [Ea Hu]];
      [intros q Hq; apply Hp, elem_of_app; auto | |];
    (destruct (IHr Hr) as [[b Eb] | [Eb Hv]];
      [intros q Hq; apply Hp, elem_of_app; auto | |]).
    + rewrite (call_binary_returns M f _ _ b a Eb Ea). unfold invoke.
      destruct (f b a) as [v |] eqn:Ef; [eauto |].
      right. split; [reflexivity |].
      exact (undefined_operation_here M d f l r b a Eb Ea Ef).
    + right. split; [| apply undefined_operation_right; exact Hv].
      rewrite Ea, Eb. unfold call_binary. destruct (args_right_to_left M); reflexivity.
    + right. split; [| apply undefined_operation_left; auto].
      rewrite Ea, Eb. unfold call_binary. destruct (args_right_to_left M); reflexivity.
    + right. split; [| apply undefined_operation_left; auto].
      rewrite Ea, Eb. unfold call_binary. destruct (args_right_to_left M); reflexivity.
Qed.

Lemma call_binary_ret (M : platform) (f : float -> float -> option float)
    (a b : outcome float) (v : float) :
  call_binary M f a b = Ret v ->
  exists x y, a = Ret x /\ b = Ret y /\ f x y = Some v.
Proof.
  unfold call_binary, invoke.
  destruct (args_right_to_left M), a as [x | | |], b as [y | | |]; simpl; intros H;
    try discriminate H; exists x, y;
    destruct (f x y); try discriminate H; injection H as <-; auto.
Qed.

(** When [eval_impl] returns, so it did on every node it visited. *)
Lemma eval_impl_ret_visited (M : platform) (d : gmap ascii float) (node : node_ptr) :
  forall v : float, eval_impl M d node = Ret v ->
  forall sub, sub ∈ visited node -> exists w, eval_impl M d sub = Ret w.
Proof.
  induction node as [| content l IHl r IHr]; intros v H sub Hin; [discriminate H |].
  destruct content as [| value | param | f | f]; cbn [visited] in Hin.
  - apply list_elem_of_singleton in Hin as ->. eauto.
  - apply list_elem_of_singleton in Hin as ->. eauto.
  - apply list_elem_of_singleton in Hin as ->. eauto.
  - apply elem_of_cons in Hin as [-> | Hin]; [eauto |].
    cbn [eval_impl] in H.
    destruct (eval_impl M d l) as [a | | |] eqn:El; try discriminate H.
    exact (IHl a eq_refl sub Hin).
  - apply elem_of_cons in Hin as [-> | Hin]; [eauto |].
    cbn [eval_impl] in H. apply call_binary_ret in H as (x & y & Hr & Hl & _).
    apply elem_of_app in Hin as [Hin | Hin]; eauto.
Qed.

(** So no operator was called where it is undefined. *)
Lemma eval_impl_ret_defined (M : platform) (d : gmap ascii float) (node : node_ptr)
    (v : float) :
  eval_impl M d node = Ret v -> ~ undefined_operation M d node.
Proof.
  intros H (f & l & r & x & y & Hin & Hr & Hl & Hf).
  destruct (eval_impl_ret_visited M d node v H _ Hin) as [w Hw].
  cbn [eval_impl] in Hw. apply call_binary_ret in Hw as (x' & y' & Hr' & Hl' & Hf').
  congruence.
Qed.

(** C6, as stated: a retry after the one binding the error asked for need
    not succeed.  The error names one parameter, and the binding of that one
    is not enough when another is missing too: for "x+y" with an empty
    dictionary [eval()] fails on y, the operand this platform evaluates
    first, and after [set_param('y', 1)] the same call fails on x.  For "x+",
    whose operator was built without its second operand, [eval()] on this
    platform, which evaluates the last argument of a call first, fails on
    x, and after [set_param('x', 1)] it dereferences the null pointer.  For
    "5%x" it fails on x, and after [set_param('x', 0)] it takes the
    remainder of a division by 0. *)
Lemma retried_eval_may_fail_again :
  (construct example_platform policy_build "x+y" = Ret (Expression x_plus_y ∅) /\
   eval example_platform (Expression x_plus_y ∅) = Throw (unassigned "y") /\
   eval example_platform (set_param "y" 1 (Expression x_plus_y ∅)) =
     Throw (unassigned "x")) /\
  (construct example_platform policy_build "x+" =
     Ret (Expression
            (Node (Binary detail.function.plus) (Node (Param "x") null null) null) ∅) /\
   compute example_platform "x+" = Throw (unassigned "x") /\
   eval_built example_platform "x+" "x" 1 = Undefined) /\
  (construct example_platform policy_build "5%x" =
     Ret (Expression
            (Node (Binary detail.function.modulus)
                  (Node (Param "x") null null) (Node (Const 5) null null)) ∅) /\
   compute example_platform "5%x" = Throw (unassigned "x") /\
   eval_built example_platform "5%x" "x" 0 = Undefined).
Proof. repeat split. Qed.

(** [eval(x, value)] is [eval()] under the dictionary with [x] bound to
    [value]. *)
Lemma eval_impl_x_insert (M : platform) (d : gmap ascii float) (x : ascii)
    (value : float) (node : node_ptr) :
  eval_impl_x M d node x value = eval_impl M (<[x := value]> d) node.
Proof.
  induction node as [| content l IHl r IHr]; [reflexivity |].
  destruct content as [| v | param | f | f]; cbn [eval_impl eval_impl_x];
    try reflexivity.
  - destruct (Ascii.eqb_spec param x) as [-> | Hne].
    + rewrite lookup_insert_eq. reflexivity.
    + rewrite lookup_insert_ne by congruence. reflexivity.
  - rewrite IHl. reflexivity.
  - rewrite IHl, IHr. reflexivity.
Qed.

(** C6, amended: a call of [eval()], failed or not, leaves tree and
    dictionary as they were.  When it failed with the unassigned-parameter
    error for [p], the dictionary has no binding for [p], which the tree
    reads; and when [p] is the only parameter the tree reads that has none,
    [eval()] after [set_param(p, value)] no longer fails for a missing
    binding, and on a tree that has the operands of all its functions it
    returns a value, unless it comes to an operator whose call on the
    values of its operands has undefined behaviour. *)
Theorem failed_eval_can_be_retried (M : platform) (this : expression)
    (p : ascii) (value : float) :
  eval M this = Throw (unassigned p) ->
  (forall q, q ∈ parameters (_head this) -> q <> p ->
     is_Some (_dictionary this !! q)) ->
  eval_call M this = (this, Throw (unassigned p)) /\
  _dictionary this !! p = None /\
  p ∈ parameters (_head this) /\
  (forall q, eval M (set_param p value this) <> Throw (unassigned q)) /\
  (complete (_head this) = true ->
   (~ undefined_operation M (<[p := value]> (_dictionary this)) (_head this) ->
    exists result, eval M (set_param p value this) = Ret (Some result)) /\
   (undefined_operation M (<[p := value]> (_dictionary this)) (_head this) ->
    eval M (set_param p value this) = Undefined)).
Proof.
  intros Hfail Hothers.
  split; [unfold eval_call; rewrite Hfail; reflexivity |].
  destruct this as [head d]. unfold eval, set_param in *.
  cbn [_head _dictionary] in *.
  destruct head as [| c l r]; [discriminate Hfail |].
  assert (Hthrow : eval_impl M d (Node c l r) = Throw (unassigned p)).
  { destruct (eval_impl M d (Node c l r)); try discriminate Hfail.
    injection Hfail as ->. reflexivity. }
  destruct (eval_impl_unassigned M d p _ Hthrow) as [Hin Hnone].
  assert (Hbound : forall q, q ∈ parameters (Node c l r) ->
                     is_Some (<[p := value]> d !! q)).
  { intros q Hq. destruct (decide (q = p)) as [-> | Hne].
    - rewrite lookup_insert_eq. eauto.
    - rewrite lookup_insert_ne by congruence. apply Hothers; assumption. }
  split; [exact Hnone |]. split; [exact Hin |]. split.
  - intros q Hq.
    assert (Hq' : eval_impl M (<[p := value]> d) (Node c l r) = Throw (unassigned q)).
    { destruct (eval_impl M (<[p := value]> d) (Node c l r)); try discriminate Hq.
      injection Hq as ->. reflexivity. }
    destruct (eval_impl_unassigned M _ q _ Hq') as [Hqin Hqnone].
    destruct (Hbound q Hqin) as [v Hv]. congruence.
  - intros Hcomplete.
    destruct (eval_impl_returns M (<[p := value]> d) (Node c l r) Hcomplete Hbound)
      as [[result E] | [E Hu]]; rewrite E.
    + split; [exists result; reflexivity |].
      intros Hu. contradiction (eval_impl_ret_defined M _ _ _ E Hu).
    + split; [intros Hn; contradiction | reflexivity].
Qed.

(** The theorem on "x+1" with an empty dictionary: the retry returns 5. *)
Lemma failed_eval_can_be_retried_witness :
  eval example_platform (Expression x_plus_1 ∅) = Throw (unassigned "x") /\
  _dictionary (Expression x_plus_1 ∅) !! "x"%char = None /\
  eval example_platform (set_param "x" 4 (Expression x_plus_1 ∅)) = Ret (Some 5%float).
Proof.
  split; [reflexivity |].
  split; [| reflexivity].
  apply (failed_eval_can_be_retried example_platform
           (Expression x_plus_1 ∅) "x"%char 4%float).
  - reflexivity.
  - intros q Hq Hne. apply list_elem_of_singleton in Hq. contradiction.
Defined.

(** ** The preprocessing pass *)

Lemma append_nil (r : string) : EmptyString +:+ r = r.
Proof. reflexivity. Qed.

Lemma append_cons (c : ascii) (p r : string) :
  String c p +:+ r = String c (p +:+ r).
Proof. reflexivity. Qed.

Lemma append_last (pre : string) (c : ascii) (r : string) :
  (pre +:+ String c EmptyString) +:+ r = pre +:+ String c r.
Proof.
  induction pre as [| a pre IH]; [reflexivity |].
  rewrite !append_cons, IH. reflexivity.
Qed.

Lemma length_append_last (pre : string) (c : ascii) :
  String.length (pre +:+ String c EmptyString) = S (String.length pre).
Proof.
  induction pre as [| a pre IH]; [reflexivity |].
  rewrite append_cons. simpl. rewrite IH. reflexivity.
Qed.

(** [find] from the end of a prefix looks at what follows the prefix. *)
Lemma find_append (pre rest : string) (ch : ascii) :
  find (pre +:+ rest) ch (String.length pre) =
    (fun i => (String.length pre + i)%nat) <$> find rest ch 0.
Proof.
  induction pre as [| a pre IH].
  - rewrite append_nil. simpl. destruct (find rest ch 0); reflexivity.
  - rewrite append_cons. simpl. rewrite IH.
    destruct (find rest ch 0); reflexivity.
Qed.

Lemma get_append (pre : string) (c : ascii) (rest : string) :
  String.get (String.length pre) (pre +:+ String c rest) = Some c.
Proof.
  induction pre as [| a pre IH]; [reflexivity |].
  rewrite append_cons. simpl. exact IH.
Qed.

Lemma string_insert_append (pre rest : string) (ch : ascii) :
  string_insert (pre +:+ rest) (String.length pre) ch = pre +:+ String ch rest.
Proof.
  induction pre as [| a pre IH]; [reflexivity |].
  rewrite !append_cons. simpl. rewrite IH. reflexivity.
Qed.

(** The loop, started behind a prefix that ends in [previous], leaves the
    prefix as it is and rewrites the rest as the specification says. *)
Lemma preparse_loop_spec (rest : string) :
  forall (pre : string) (previous : ascii) (fuel : nat),
    (2 * String.length rest + 1 <= fuel)%nat ->
    preparse_loop fuel (pre +:+ String previous rest)
      (find (pre +:+ String previous rest) "(" (S (String.length pre))) =
    pre +:+ String previous (implicit_multiplication previous rest).
Proof.
  induction rest as [| c r IH]; intros pre previous fuel Hfuel.
  - (* nothing is left: no parenthesis is found *)
    assert (E : find (pre +:+ String previous EmptyString) "("
                  (S (String.length pre)) = None).
    { rewrite <- (append_last pre previous EmptyString).
      rewrite <- (length_append_last pre previous).
      rewrite find_append. reflexivity. }
    rewrite E. destruct fuel; reflexivity.
  - rewrite <- (append_last pre previous (String c r)).
    rewrite <- (length_append_last pre previous).
    rewrite find_append.
    set (pre1 := pre +:+ String previous EmptyString).
    cbn [find implicit_multiplication].
    destruct (Ascii.eqb_spec c "(") as [-> | Hc].
    + (* an opening parenthesis, at the index [find] returns *)
      cbn [fmap option_fmap option_map andb].
      rewrite Nat.add_0_r.
      destruct fuel as [| fuel]; [simpl in Hfuel; lia |].
      assert (Hget : String.get (String.length pre1 - 1)
                       (pre1 +:+ String "(" r) = Some previous).
      { unfold pre1. rewrite length_append_last, append_last.
        replace (S (String.length pre) - 1)%nat with (String.length pre) by lia.
        apply get_append. }
      cbn [preparse_loop]. rewrite Hget.
      destruct (Ascii.eqb previous ")" || isdigit previous).
      * (* the sign is inserted; the next turn finds the same parenthesis *)
        rewrite string_insert_append.
        rewrite <- (append_last pre1 "*" (String "(" r)).
        replace (String.length pre1 + 1)%nat
          with (String.length (pre1 +:+ String "*" EmptyString))
          by (rewrite length_append_last; lia).
        rewrite find_append. cbn [find Ascii.eqb Bool.eqb fmap option_fmap option_map].
        rewrite Nat.add_0_r.
        destruct fuel as [| fuel]; [simpl in Hfuel; lia |].
        assert (Hstar : String.get
                          (String.length (pre1 +:+ String "*" EmptyString) - 1)
                          ((pre1 +:+ String "*" EmptyString) +:+ String "(" r)
                        = Some "*"%char).
        { rewrite length_append_last, append_last.
          replace (S (String.length pre1) - 1)%nat with (String.length pre1) by lia.
          apply get_append. }
        cbn [preparse_loop]. rewrite Hstar.
        replace (Ascii.eqb "*" ")" || isdigit "*") with false by reflexivity.
        replace (String.length (pre1 +:+ String "*" EmptyString) + 1)%nat
          with (S (String.length (pre1 +:+ String "*" EmptyString))) by lia.
        rewrite (IH (pre1 +:+ String "*" EmptyString) "("%char fuel)
          by (simpl in Hfuel; lia).
        unfold pre1. rewrite !append_last. reflexivity.
      * (* nothing is inserted *)
        replace (String.length pre1 + 1)%nat with (S (String.length pre1)) by lia.
        rewrite (IH pre1 "("%char fuel) by (simpl in Hfuel; lia).
        unfold pre1. rewrite !append_last. reflexivity.
    + (* another character: [find] goes past it *)
      destruct (Ascii.eqb c "(") eqn:E;
        [apply Ascii.eqb_eq in E; contradiction |].
      cbn [andb].
      specialize (IH pre1 c fuel ltac:(simpl in Hfuel; lia)).
      rewrite <- (append_last pre1 c r) in IH.
      rewrite <- (length_append_last pre1 c) in IH.
      rewrite find_append in IH.
      rewrite (append_last pre1 c r), length_append_last in IH.
      unfold pre1 in IH at 3. rewrite append_last in IH.
      rewrite <- IH. f_equal.
      destruct (find r "(" 0); simpl; f_equal; lia.
Qed.

(** C7: [preparse] inserts the multiplication sign exactly between a
    closing parenthesis or a digit and an immediately following opening
    parenthesis; "2(3+4)" becomes "2*(3+4)" and evaluates to 14, and
    "(1+1)(2+2)" becomes "(1+1)*(2+2)" and evaluates to 8. *)
Theorem preparse_inserts_multiplication (M : platform) :
  (forall src : string, preparse src = with_implicit_multiplication src) /\
  preparse "2(3+4)" = "2*(3+4)" /\
  preparse "(1+1)(2+2)" = "(1+1)*(2+2)" /\
  compute M "2(3+4)" = Ret (Some 14%float) /\
  compute M "(1+1)(2+2)" = Ret (Some 8%float).
Proof.
  split; [| repeat split; run M].
  intros [| c r]; [reflexivity |].
  unfold preparse, with_implicit_multiplication.
  apply (preparse_loop_spec r EmptyString c).
  simpl. lia.
Qed.

(** ** The parser ends

    [parse_loop] is given one unit of fuel more than the line is long; it
    never uses it up. *)

Lemma digits_length (s : string) :
  (String.length (regex.digits s).1 + String.length (regex.digits s).2
    = String.length s)%nat.
Proof.
  induction s as [| c r IH]; [reflexivity |].
  simpl. destruct (isdigit c); [| reflexivity].
  destruct (regex.digits r) as [d rest]. simpl in *. lia.
Qed.

Lemma fraction_length (s : string) :
  (String.length (regex.fraction s).2 <= String.length s)%nat.
Proof.
  unfold regex.fraction.
  destruct s as [| c r]; [reflexivity |].
  assert (H := digits_length r).
  destruct (Ascii.eqb_spec c "."%char) as [-> | Hc].
  - destruct (regex.digits r) as [d rest]. simpl in *. lia.
  - each_char c; try reflexivity. contradiction Hc; reflexivity.
Qed.

Lemma exponent_length (s : string) :
  (String.length (regex.exponent s).2 <= String.length s)%nat.
Proof.
  unfold regex.exponent.
  destruct s as [| c r]; [reflexivity |].
  destruct (in_chars c ["E"; "e"]%char); [| reflexivity].
  destruct r as [| x r'].
  - reflexivity.
  - destruct (in_chars x ["+"; "-"]%char).
    + assert (H := digits_length r').
      destruct (regex.digits r') as [[| a d] rest]; simpl in *; lia.
    + assert (H := digits_length (String x r')).
      destruct (regex.digits (String x r')) as [[| a d] rest]; simpl in *; lia.
Qed.

(** A match of [real] takes a character or more off the line. *)
Lemma real_shortens (line real line' : string) :
  regex.real line = Some (real, line') ->
  (String.length line' < String.length line)%nat.
Proof.
  unfold regex.real.
  assert (Hd := digits_length line).
  destruct (regex.digits line) as [i r1].
  assert (Hf := fraction_length r1).
  destruct (regex.fraction r1) as [f r2].
  assert (He := exponent_length r2).
  destruct (regex.exponent r2) as [e r3].
  destruct i as [| a i]; [discriminate |].
  intros H. injection H as _ <-. simpl in *. lia.
Qed.

Lemma fun_length (line : string) (len : nat) :
  regex.fun_ line = Some len -> (2 <= len)%nat.
Proof.
  unfold regex.fun_.
  destruct (List.find _ regex.fun_names) as [name |] eqn:E; [| discriminate].
  intros H. injection H as <-.
  apply List.find_some in E as [Hin _].
  simpl in Hin.
  repeat (destruct Hin as [<- | Hin]; [simpl; lia |]).
  contradiction.
Qed.

Lemma remove_prefix_length (n : nat) (line : string) :
  String.length (remove_prefix n line) = (String.length line - n)%nat.
Proof.
  revert line. induction n as [| n IH]; intros [| c r]; simpl; auto.
Qed.

Lemma substring_length (n m : nat) (s : string) :
  (String.length (String.substring n m s) <= m)%nat.
Proof.
  revert n m. induction s as [| c r IH]; intros [| n] [| m]; simpl; auto; try lia.
  specialize (IH 0%nat m). lia.
Qed.

Lemma closing_index_bound (s : string) (counter : Z) (index : nat) :
  (closing_index s counter index <= index + String.length s)%nat.
Proof.
  revert counter index. induction s as [| c r IH]; intros counter index; simpl.
  - lia.
  - destruct (_ =? 0); [lia |]. specialize (IH
      (if Ascii.eqb c "(" then counter + 1
       else if Ascii.eqb c ")" then counter - 1 else counter) (S index)). lia.
Qed.

Lemma symbol_token_ends (M : platform) (token : ascii) :
  symbol_token M token <> OutOfFuel.
Proof.
  unfold symbol_token.
  destruct (detail.is_binary_f token).
  - destruct (detail.sign_to_binary M token) eqn:E; try discriminate.
    each_char token; discriminate E.
  - destruct (detail.sign_to_unary M token) eqn:E; try discriminate.
    each_char token; discriminate E.
Qed.

Lemma pop_not_weaker_ends (M : platform) (operation : ascii)
    (sign_buffer : list ascii) :
  forall buffer, pop_not_weaker M operation buffer sign_buffer <> OutOfFuel.
Proof.
  induction sign_buffer as [| back below IH]; intros buffer; simpl; [discriminate |].
  destruct (negb _); [| discriminate].
  pose proof (symbol_token_ends M back) as H.
  destruct (symbol_token M back); simpl; try discriminate; [apply IH | contradiction].
Qed.

Lemma drain_ends (M : platform) (sign_buffer : list ascii) :
  forall buffer, drain M buffer sign_buffer <> OutOfFuel.
Proof.
  induction sign_buffer as [| token below IH]; intros buffer; simpl; [discriminate |].
  pose proof (symbol_token_ends M token) as H.
  destruct (symbol_token M token); simpl; try discriminate; [apply IH | contradiction].
Qed.

Lemma stod_ends (M : platform) (real : string) : stod M real <> OutOfFuel.
Proof.
  unfold stod. destruct (regex.digits real) as [i [| c rest]].
  - destruct (_ <? _); [discriminate |]. destruct (libc_strtod M real); discriminate.
  - destruct (libc_strtod M real); discriminate.
Qed.

Lemma parse_loop_ends (M : platform) (fuel : nat) :
  forall (line : string) (buffer : list variant_t) (sign_buffer : list ascii),
    (String.length line < fuel)%nat ->
    parse_loop M fuel line buffer sign_buffer <> OutOfFuel.
Proof.
  induction fuel as [| fuel IH]; intros line buffer sign_buffer Hfuel; [lia |].
  cbn [parse_loop].
  destruct line as [| begin rest]; [apply drain_ends |].
  cbn [String.length] in Hfuel.
  destruct (regex.real (String begin rest)) as [[real line'] |] eqn:Ereal.
  { apply real_shortens in Ereal. cbn [String.length] in Ereal.
    pose proof (stod_ends M real) as Hstod.
    destruct (stod M real); cbn [mbind outcome_bind];
      try discriminate; [apply IH; lia | contradiction]. }
  destruct (detail.is_binary_f begin).
  { pose proof (pop_not_weaker_ends M begin sign_buffer buffer) as Hpop.
    destruct (pop_not_weaker M begin buffer sign_buffer) as [[b s] | | |];
      cbn [mbind outcome_bind]; try discriminate; [apply IH; lia | contradiction]. }
  destruct (Ascii.eqb begin "(").
  { pose proof (closing_index_bound rest 1 1) as Hindex.
    destruct (Nat.eqb_spec (closing_index rest 1 1) (String.length (String begin rest)))
      as [| Hne]; [discriminate |].
    cbn [String.length] in Hne.
    assert (Hrest : forall inner,
      parse_loop M fuel (remove_prefix (closing_index rest 1 1 + 1) (String begin rest))
        (buffer ++ inner) sign_buffer <> OutOfFuel).
    { intros inner. apply IH. rewrite remove_prefix_length. cbn [String.length]. lia. }
    destruct (1 <? closing_index rest 1 1)%nat.
    - pose proof (substring_length 1 (closing_index rest 1 1 - 1) (String begin rest))
        as Hsub.
      pose proof (IH (String.substring 1 (closing_index rest 1 1 - 1) (String begin rest))
                     (leading_zero (String.substring 1 (closing_index rest 1 1 - 1)
                                      (String begin rest))) []) as Hinner.
      destruct (parse_loop M fuel (String.substring 1 (closing_index rest 1 1 - 1)
                                     (String begin rest)) _ []);
        cbn [mbind outcome_bind]; try discriminate; [apply Hrest |].
      exfalso. apply Hinner; [lia | reflexivity].
    - cbn [mbind outcome_bind]. apply Hrest. }
  destruct (Ascii.eqb begin ")"); [discriminate |].
  destruct (isspace begin); [apply IH; lia |].
  destruct (regex.fun_ (String begin rest)) as [len |] eqn:Efun.
  { apply fun_length in Efun. apply IH. rewrite remove_prefix_length.
    cbn [String.length]. lia. }
  destruct (_ && _).
  { apply IH. rewrite remove_prefix_length. cbn [String.length]. lia. }
  destruct (Ascii.eqb begin "e"); [apply IH; lia |].
  destruct (1 <? _)%nat; [discriminate |].
  destruct (match regex.valid (String begin rest) with
            | Some prefix => prefix
            | None => String begin rest
            end); [discriminate |].
  apply IH. lia.
Qed.

(** [parse_impl] and [parse] return or throw. *)
Lemma parse_ends (M : platform) (src : string) :
  parse_impl M src <> OutOfFuel /\ parse M src <> OutOfFuel.
Proof.
  split.
  - apply parse_loop_ends. lia.
  - unfold parse. destruct src; [discriminate |]. apply parse_loop_ends. lia.
Qed.

(** ** The token sequence is never empty

    [build_impl] dereferences [symbols.crbegin()] without a test. *)

Lemma drain_nonempty (M : platform) (sign_buffer : list ascii) :
  forall buffer symbols,
    drain M buffer sign_buffer = Ret symbols -> symbols <> [].
Proof.
  induction sign_buffer as [| token below IH]; intros buffer symbols; simpl.
  - intros H. injection H as <-. destruct buffer; discriminate.
  - destruct (symbol_token M token); simpl; try discriminate. apply IH.
Qed.

Lemma parse_loop_nonempty (M : platform) (fuel : nat) :
  forall line buffer sign_buffer symbols,
    parse_loop M fuel line buffer sign_buffer = Ret symbols -> symbols <> [].
Proof.
  induction fuel as [| fuel IH]; intros line buffer sign_buffer symbols;
    [discriminate |].
  cbn [parse_loop].
  destruct line as [| begin rest]; [apply drain_nonempty |].
  destruct (regex.real (String begin rest)) as [[real line'] |].
  { destruct (stod M real); cbn [mbind outcome_bind]; try discriminate. apply IH. }
  destruct (detail.is_binary_f begin).
  { destruct (pop_not_weaker M begin buffer sign_buffer) as [[b s] | | |];
      cbn [mbind outcome_bind]; try discriminate. apply IH. }
  destruct (Ascii.eqb begin "(").
  { destruct (_ =? _)%nat; [discriminate |].
    destruct (1 <? _)%nat.
    - destruct (parse_loop M fuel _ _ []); cbn [mbind outcome_bind];
        try discriminate. apply IH.
    - cbn [mbind outcome_bind]. apply IH. }
  destruct (Ascii.eqb begin ")"); [discriminate |].
  destruct (isspace begin); [apply IH |].
  destruct (regex.fun_ (String begin rest)); [apply IH |].
  destruct (_ && _); [apply IH |].
  destruct (Ascii.eqb begin "e"); [apply IH |].
  destruct (1 <? _)%nat; [discriminate |].
  destruct (match regex.valid (String begin rest) with
            | Some prefix => prefix
            | None => String begin rest
            end); [discriminate | apply IH].
Qed.

Lemma parse_nonempty (M : platform) (src : string) (symbols : list variant_t) :
  parse M src = Ret symbols -> symbols <> [].
Proof.
  unfold parse. destruct src.
  - intros H. injection H as <-. discriminate.
  - apply parse_loop_nonempty.
Qed.

(** * Further properties of the code *)

(** ** The evaluator *)

(** A tree [evalutable] accepts has no parameter. *)
Lemma evalutable_parameters (node : node_ptr) :
  detail.evalutable node = true -> parameters node = [].
Proof.
  induction node as [| content l IHl r IHr]; [discriminate |].
  destruct content as [| value | param | f | f];
    cbn [detail.evalutable parameters]; intros H; try discriminate H.
  - reflexivity.
  - auto.
  - apply andb_prop in H as [Hl Hr]. rewrite (IHl Hl), (IHr Hr). reflexivity.
Qed.

Lemma evalutable_complete (node : node_ptr) :
  detail.evalutable node = true -> complete node = true.
Proof.
  induction node as [| content l IHl r IHr]; [discriminate |].
  destruct content as [| value | param | f | f];
    cbn [detail.evalutable complete]; intros H; try discriminate H.
  - reflexivity.
  - auto.
  - apply andb_prop in H as [Hl Hr]. rewrite (IHl Hl), (IHr Hr). reflexivity.
Qed.

(** [eval_impl] reads the dictionary at the parameters of the tree only. *)
Lemma eval_impl_agree (M : platform) (d d' : gmap ascii float) (node : node_ptr) :
  (forall q, q ∈ parameters node -> d !! q = d' !! q) ->
  eval_impl M d node = eval_impl M d' node.
Proof.
  induction node as [| content l IHl r IHr]; [reflexivity |].
  destruct content as [| value | param | f | f];
    cbn [eval_impl parameters]; intros H; try reflexivity.
  - rewrite (H param) by (apply list_elem_of_singleton; reflexivity). reflexivity.
  - rewrite (IHl H). reflexivity.
  - rewrite IHl, IHr; [reflexivity | |];
      intros q Hq; apply H, elem_of_app; auto.
Qed.

(** No dictionary changes what [eval_impl] does on a tree [evalutable]
    accepts. *)
Lemma evalutable_any_dictionary (M : platform) (d d' : gmap ascii float)
    (node : node_ptr) :
  detail.evalutable node = true -> eval_impl M d node = eval_impl M d' node.
Proof.
  intros H. apply eval_impl_agree.
  rewrite (evalutable_parameters _ H). intros q Hq. inversion Hq.
Qed.

(** On such a tree [eval_impl] returns a value, unless it comes to an
    operator that is undefined on the values of its operands. *)
Lemma evalutable_value (M : platform) (d : gmap ascii float) (node : node_ptr) :
  detail.evalutable node = true ->
  (exists v, eval_impl M d node = Ret v) \/
  (eval_impl M d node = Undefined /\ undefined_operation M d node).
Proof.
  intros H. apply eval_impl_returns; [exact (evalutable_complete _ H) |].
  rewrite (evalutable_parameters _ H). intros q Hq. inversion Hq.
Qed.

(** X1: a subtree that [detail::evalutable] accepts (constants under
    functions and operators, no parameter) is evaluated alike under every
    dictionary, by [eval_impl] and by [eval_impl] with a parameter given in
    the call.  It throws nothing and reaches no null pointer there: it
    returns a value, the one value of the subtree, unless it comes to an
    operator whose call on the values of its operands has undefined
    behaviour. *)
Theorem evalutable_has_one_value (M : platform) (node : node_ptr) :
  detail.evalutable node = true ->
  exists o : outcome float,
    (forall d : gmap ascii float, eval_impl M d node = o) /\
    (forall (d : gmap ascii float) (x : ascii) (value : float),
       eval_impl_x M d node x value = o) /\
    ((exists v, o = Ret v) \/
     (o = Undefined /\ forall d : gmap ascii float, undefined_operation M d node)).
Proof.
  intros H. exists (eval_impl M ∅ node).
  assert (Hany : forall d : gmap ascii float, eval_impl M d node = eval_impl M ∅ node)
    by (intros d; apply evalutable_any_dictionary, H).
  split; [exact Hany |]. split.
  - intros d x value. rewrite eval_impl_x_insert. apply Hany.
  - destruct (evalutable_value M ∅ node H) as [Hv | [E Hu]]; [left; exact Hv |].
    right. split; [exact E |]. intros d.
    destruct (evalutable_value M d node H) as [[v Hv] | [_ Hd]]; [| exact Hd].
    rewrite Hany, E in Hv. discriminate Hv.
Qed.

Lemma evalutable_has_one_value_witness :
  exists o : outcome float,
    (forall d : gmap ascii float,
       eval_impl example_platform d
         (Node (Binary detail.function.plus)
               (Node (Const 3) null null)
               (Node (Unary detail.function.sqrt)
                     (Node (Const 4) null null) (Node nothing null null))) = o) /\
    (forall (d : gmap ascii float) (x : ascii) (value : float),
       eval_impl_x example_platform d
         (Node (Binary detail.function.plus)
               (Node (Const 3) null null)
               (Node (Unary detail.function.sqrt)
                     (Node (Const 4) null null) (Node nothing null null))) x value = o) /\
    ((exists v, o = Ret v) \/
     (o = Undefined /\
      forall d : gmap ascii float,
        undefined_operation example_platform d
          (Node (Binary detail.function.plus)
                (Node (Const 3) null null)
                (Node (Unary detail.function.sqrt)
                      (Node (Const 4) null null) (Node nothing null null))))).
Proof.
  apply (evalutable_has_one_value example_platform). reflexivity.
Defined.

(** When [eval_impl] returns, the tree is complete and its parameters are
    bound. *)
Lemma eval_impl_ret_complete (M : platform) (d : gmap ascii float) (node : node_ptr)
    (v : float) :
  eval_impl M d node = Ret v ->
  complete node = true /\ forall q, q ∈ parameters node -> is_Some (d !! q).
Proof.
  revert v.
  induction node as [| content l IHl r IHr]; intros v; [discriminate |].
  destruct content as [| value | param | f | f];
    cbn [eval_impl parameters complete].
  - discriminate.
  - intros _. split; [reflexivity |]. intros q Hq. inversion Hq.
  - destruct (d !! param) eqn:E; [| discriminate].
    intros _. split; [reflexivity |].
    intros q Hq. apply list_elem_of_singleton in Hq as ->. rewrite E. eauto.
  - destruct (eval_impl M d l) as [a | | |] eqn:El; try discriminate.
    intros _. exact (IHl a eq_refl).
  - intros H. apply call_binary_ret in H as (x & y & Hr & Hl & _).
    destruct (IHl y Hl) as [Cl Pl]. destruct (IHr x Hr) as [Cr Pr].
    split; [rewrite Cl, Cr; reflexivity |].
    intros q Hq. apply elem_of_app in Hq as [Hq | Hq]; auto.
Qed.

Lemma call_binary_ends (M : platform) (f : float -> float -> option float)
    (a b : outcome float) :
  a <> OutOfFuel -> b <> OutOfFuel -> call_binary M f a b <> OutOfFuel.
Proof.
  unfold call_binary, invoke.
  destruct (args_right_to_left M), a as [x | | |], b as [y | | |]; simpl;
    try congruence; destruct (f x y); congruence.
Qed.

(** What makes a call of [call_binary] go wrong. *)
Lemma call_binary_undefined (M : platform) (f : float -> float -> option float)
    (a b : outcome float) :
  call_binary M f a b = Undefined ->
  a = Undefined \/ b = Undefined \/
  exists x y, a = Ret x /\ b = Ret y /\ f x y = None.
Proof.
  unfold call_binary, invoke.
  destruct (args_right_to_left M), a as [x | | |], b as [y | | |]; simpl; intros H;
    try discriminate H; auto;
    right; right; exists x, y; destruct (f x y); try discriminate H; auto.
Qed.

(** [eval_impl] goes wrong on a tree that lacks an operand, or at an
    operator that is undefined on the values of its operands. *)
Lemma eval_impl_undefined (M : platform) (d : gmap ascii float) (node : node_ptr) :
  eval_impl M d node = Undefined ->
  complete node = false \/ undefined_operation M d node.
Proof.
  induction node as [| content l IHl r IHr]; [left; reflexivity |].
  destruct content as [| value | param | f | f];
    cbn [eval_impl complete]; try discriminate.
  - destruct (d !! param); discriminate.
  - destruct (eval_impl M d l) as [a | | |]; try discriminate.
    intros _. destruct (IHl eq_refl) as [C | U]; [left; exact C |].
    right. apply undefined_operation_left; auto.
  - intros H. apply call_binary_undefined in H as [H | [H | (x & y & Hr & Hl & Hf)]].
    + destruct (IHr H) as [C | U]; [left; rewrite C; apply andb_false_r |].
      right. apply undefined_operation_right. exact U.
    + destruct (IHl H) as [C | U]; [left; rewrite C; reflexivity |].
      right. apply undefined_operation_left; auto.
    + right. exact (undefined_operation_here M d f l r x y Hr Hl Hf).
Qed.

(** X2: what [eval_impl] can do.  It returns a value exactly when the tree
    has the operands of all its functions (no null child, no [nothing]
    placeholder among them), the dictionary binds every parameter the tree
    reads, and no operator is called on operands where its behaviour is
    undefined; the only exceptions it throws are the logic errors "Found
    (literally) nothing..." and "Unassigned parameter p" for a parameter p
    of the tree without a binding; and where its behaviour is undefined, an
    operand is missing or such an operator was met.  Of the operators of
    [detail::function] the remainder alone can be one: it is undefined
    where an operand does not fit a [long], where the divisor is 0, and for
    [LONG_MIN % -1]. *)
Theorem eval_impl_outcomes (M : platform) (d : gmap ascii float) (node : node_ptr) :
  ((exists v, eval_impl M d node = Ret v) <->
     complete node = true /\
     (forall q, q ∈ parameters node -> is_Some (d !! q)) /\
     ~ undefined_operation M d node) /\
  (forall e, eval_impl M d node = Throw e ->
     e = found_nothing \/
     exists p, e = unassigned p /\ p ∈ parameters node /\ d !! p = None) /\
  (eval_impl M d node = Undefined ->
     complete node = false \/ undefined_operation M d node) /\
  eval_impl M d node <> OutOfFuel /\
  (forall (f : float -> float -> option float) (x y : float),
     f ∈ [detail.function.plus; detail.function.minus; detail.function.multiplies;
          detail.function.divides; detail.function.pow M] ->
     is_Some (f x y)) /\
  (forall x y : float,
     detail.function.modulus x y = None <->
     match long_of_double x, long_of_double y with
     | Some a, Some b => b = 0 \/ (a = LONG_MIN /\ b = -1)
     | _, _ => True
     end).
Proof.
  split; [split | split; [| split; [| split; [| split]]]].
  - intros [v Hv]. destruct (eval_impl_ret_complete M d node v Hv) as [Hc Hp].
    split; [exact Hc |]. split; [exact Hp |].
    exact (eval_impl_ret_defined M d node v Hv).
  - intros (Hc & Hp & Hn).
    destruct (eval_impl_returns M d node Hc Hp) as [Hv | [_ Hu]];
      [exact Hv | contradiction].
  - induction node as [| content l IHl r IHr]; intros e; [discriminate |].
    destruct content as [| value | param | f | f]; cbn [eval_impl parameters].
    + intros H. injection H as <-. left. reflexivity.
    + discriminate.
    + destruct (d !! param) eqn:E; [discriminate |].
      intros H. injection H as <-. right. exists param.
      split; [reflexivity |]. split; [apply list_elem_of_singleton; reflexivity | exact E].
    + destruct (eval_impl M d l); try discriminate.
      intros H. injection H as <-. apply IHl. reflexivity.
    + intros H. apply call_binary_throws in H as [H | H].
      * destruct (IHr e H) as [-> | (p & -> & Hin & Hd)]; [left; reflexivity |].
        right. exists p. split; [reflexivity |]. split; [| exact Hd].
        apply elem_of_app. left. exact Hin.
      * destruct (IHl e H) as [-> | (p & -> & Hin & Hd)]; [left; reflexivity |].
        right. exists p. split; [reflexivity |]. split; [| exact Hd].
        apply elem_of_app. right. exact Hin.
  - exact (eval_impl_undefined M d node).
  - induction node as [| content l IHl r IHr]; [discriminate |].
    destruct content as [| value | param | f | f]; cbn [eval_impl];
      try discriminate.
    + destruct (d !! param); discriminate.
    + destruct (eval_impl M d l); try discriminate. contradiction.
    + apply call_binary_ends; assumption.
  - intros f x y Hf.
    repeat (apply elem_of_cons in Hf as [-> | Hf]; [eexists; reflexivity |]).
    inversion Hf.
  - intros x y. unfold detail.function.modulus.
    destruct (long_of_double x) as [a |]; [| tauto].
    destruct (long_of_double y) as [b |]; [| tauto].
    destruct (Z.eqb_spec b 0) as [Hb | Hb]; cbn [orb].
    + split; [auto | reflexivity].
    + destruct (Z.eqb_spec a LONG_MIN) as [Ha | Ha],
               (Z.eqb_spec b (-1)) as [Hc | Hc]; cbn [andb];
        (split; [intros H; try discriminate H; auto | intros [H | [H1 H2]]; congruence]).
Qed.

(** X3: [eval()] depends on the dictionary only through the parameters the
    tree reads: two objects with the same tree whose dictionaries agree
    there evaluate alike, so binding a parameter the tree does not read with
    [set_param] changes nothing, and a second [set_param] of a name replaces
    the first. *)
Theorem eval_reads_its_parameters_only (M : platform) (this : expression) :
  (forall d' : gmap ascii float,
     (forall q, q ∈ parameters (_head this) -> _dictionary this !! q = d' !! q) ->
     eval M (Expression (_head this) d') = eval M this) /\
  (forall (name : ascii) (value : float),
     name ∉ parameters (_head this) ->
     eval M (set_param name value this) = eval M this) /\
  (forall (name : ascii) (old value : float),
     eval M (set_param name value (set_param name old this)) =
       eval M (set_param name value this)).
Proof.
  destruct this as [head d]. cbn [_head _dictionary].
  assert (Hagree : forall d' : gmap ascii float,
    (forall q, q ∈ parameters head -> d !! q = d' !! q) ->
    eval M (Expression head d') = eval M (Expression head d)).
  { intros d' H. unfold eval. cbn [_head _dictionary].
    destruct head as [| c l r]; [reflexivity |].
    rewrite (eval_impl_agree M d d' _ H). reflexivity. }
  split; [exact Hagree |]. split.
  - intros name value Hnot. apply Hagree.
    intros q Hq. rewrite lookup_insert_ne; [reflexivity |].
    intros ->. contradiction.
  - intros name old value. unfold set_param. cbn [_head _dictionary].
    rewrite insert_insert_eq. reflexivity.
Qed.

(** X4: a parameter given in the call is a binding made for the call:
    [eval(x, value)] gives what [eval()] gives after [set_param(x, value)],
    whatever the dictionary held for [x] before, and
    [compute(source, x, value)] gives what constructing the expression,
    [set_param(x, value)] and [eval()] give. *)
Theorem eval_x_is_eval_after_set_param (M : platform) (x : ascii) (value : float) :
  (forall this : expression,
     eval_x M this x value = eval M (set_param x value this)) /\
  (forall (this : expression) (old : float),
     eval_x M (set_param x old this) x value = eval_x M this x value) /\
  (forall source : string,
     compute_x M source x value = eval_built M source x value).
Proof.
  assert (H : forall this : expression,
            eval_x M this x value = eval M (set_param x value this)).
  { intros [head d]. unfold eval_x, eval, set_param. cbn [_head _dictionary].
    destruct head as [| c l r]; [reflexivity |].
    rewrite eval_impl_x_insert. reflexivity. }
  split; [exact H |]. split.
  - intros [head d] old. rewrite !H. unfold set_param. cbn [_head _dictionary].
    rewrite insert_insert_eq. reflexivity.
  - intros source. unfold compute_x, eval_built.
    destruct (construct M policy_build source) as [e | | |]; try reflexivity.
    cbn [mbind outcome_bind]. apply H.
Qed.

(** ** The optimizer *)

(** [evalutable] accepts the complete trees without parameters. *)
Lemma evalutable_spec (node : node_ptr) :
  detail.evalutable node = complete node && bool_decide (parameters node = []).
Proof.
  induction node as [| content l IHl r IHr]; [reflexivity |].
  destruct content as [| value | param | f | f];
    cbn [detail.evalutable complete parameters]; try reflexivity.
  - exact IHl.
  - rewrite IHl, IHr.
    destruct (complete l), (complete r); cbn [andb]; try reflexivity.
    + destruct (parameters l) as [| pl tl], (parameters r) as [| pr tr];
        reflexivity.
    + destruct (bool_decide (parameters l = [])); reflexivity.
Qed.

(** The dictionary plays no part in [optimize_impl]: it is read by
    [eval_impl] on subtrees without parameters only. *)
Lemma optimize_impl_dictionary (M : platform) (d d' : gmap ascii float)
    (node : node_ptr) :
  optimize_impl M d node = optimize_impl M d' node.
Proof.
  induction node as [| content l IHl r IHr]; [reflexivity |].
  destruct content as [| value | param | f | f]; try reflexivity;
    cbn [optimize_impl].
  - rewrite IHl. destruct (optimize_impl M d' l) as [l' | | |]; try reflexivity.
    cbn [mbind outcome_bind].
    destruct (detail.evalutable l') eqn:E; [| reflexivity].
    rewrite (evalutable_any_dictionary M d d' (Node (Unary f) l' r) E).
    reflexivity.
  - rewrite IHl, IHr.
    destruct (optimize_impl M d' l) as [l' | | |]; try reflexivity.
    destruct (optimize_impl M d' r) as [r' | | |]; try reflexivity.
    cbn [mbind outcome_bind].
    destruct (detail.evalutable (Node (Binary f) l' r')) eqn:E; [| reflexivity].
    rewrite (evalutable_any_dictionary M d d' (Node (Binary f) l' r') E).
    reflexivity.
Qed.

(** What [optimize_impl] returns is complete when the tree was, and reads
    the same parameters. *)
Lemma optimize_impl_preserves (M : platform) (d : gmap ascii float) (node : node_ptr) :
  match optimize_impl M d node with
  | Ret node' =>
      complete node' = complete node /\ parameters node' = parameters node
  | _ => True
  end.
Proof.
  induction node as [| content l IHl r IHr]; [exact I |].
  destruct content as [| value | param | f | f];
    cbn [optimize_impl]; try (split; reflexivity).
  - destruct (optimize_impl M d l) as [l' | | |]; try exact I.
    destruct IHl as [Cl Pl]. cbn [mbind outcome_bind].
    destruct (detail.evalutable l') eqn:E.
    + destruct (eval_impl M d (Node (Unary f) l' r)) as [v | | |]; try exact I.
      cbn [mbind outcome_bind complete parameters].
      rewrite <- Cl, <- Pl, (evalutable_complete _ E), (evalutable_parameters _ E).
      split; reflexivity.
    + cbn [complete parameters]. rewrite <- Cl, <- Pl.
      destruct l' as [| [| lv | lp | g | g] ll lr]; split; reflexivity.
  - destruct (optimize_impl M d l) as [l' | | |]; try exact I.
    destruct (optimize_impl M d r) as [r' | | |]; try exact I.
    destruct IHl as [Cl Pl]. destruct IHr as [Cr Pr]. cbn [mbind outcome_bind].
    destruct (detail.evalutable (Node (Binary f) l' r')) eqn:E.
    + destruct (eval_impl M d (Node (Binary f) l' r')) as [v | | |]; try exact I.
      cbn [mbind outcome_bind].
      pose proof (evalutable_complete _ E) as C.
      pose proof (evalutable_parameters _ E) as P.
      cbn [complete parameters] in *. rewrite <- Cl, <- Cr, <- Pl, <- Pr, C, P.
      split; reflexivity.
    + cbn [complete parameters]. rewrite <- Cl, <- Cr, <- Pl, <- Pr.
      destruct r' as [| [| rv | rp | g | g] rl rr]; try exact I;
      destruct l' as [| [| lv | lp | h | h] ll lr]; try exact I;
        split; reflexivity.
Qed.

(** So it returns a tree without parameters for one, and no other. *)
Lemma optimize_impl_evalutable (M : platform) (d : gmap ascii float)
    (node node' : node_ptr) :
  optimize_impl M d node = Ret node' ->
  detail.evalutable node' = detail.evalutable node.
Proof.
  intros E. pose proof (optimize_impl_preserves M d node) as H.
  rewrite E in H. destruct H as [C P].
  rewrite !evalutable_spec, C, P. reflexivity.
Qed.

(** [optimize_impl] throws nothing. *)
Lemma optimize_impl_no_throw (M : platform) (d : gmap ascii float) (node : node_ptr) :
  match optimize_impl M d node with
  | Ret _ | Undefined => True
  | Throw _ | OutOfFuel => False
  end.
Proof.
  induction node as [| content l IHl r IHr]; [exact I |].
  destruct content as [| value | param | f | f]; try exact I;
    cbn [optimize_impl].
  - destruct (optimize_impl M d l) as [l' | | |]; try exact IHl.
    cbn [mbind outcome_bind].
    destruct (detail.evalutable l') eqn:E.
    + destruct (evalutable_value M d (Node (Unary f) l' r) E) as [[v Hv] | [Hv _]];
        rewrite Hv; exact I.
    + destruct l' as [| [| lv | lp | g | g] ll lr]; exact I.
  - destruct (optimize_impl M d l) as [l' | | |]; try exact IHl.
    destruct (optimize_impl M d r) as [r' | | |]; try exact IHr.
    cbn [mbind outcome_bind].
    destruct (detail.evalutable (Node (Binary f) l' r')) eqn:E.
    + destruct (evalutable_value M d (Node (Binary f) l' r') E) as [[v Hv] | [Hv _]];
        rewrite Hv; exact I.
    + destruct r' as [| [| rv | rp | g | g] rl rr]; try exact I;
      destruct l' as [| [| lv | lp | h | h] ll lr]; exact I.
Qed.

(** A tree without parameters is folded into one constant node, its value;
    where its evaluation goes wrong, so does [optimize_impl]. *)
Lemma optimize_impl_folds (M : platform) (d : gmap ascii float) (node : node_ptr) :
  detail.evalutable node = true ->
  match eval_impl M d node with
  | Ret v => exists l r, optimize_impl M d node = Ret (Node (Const v) l r)
  | Undefined => optimize_impl M d node = Undefined
  | Throw _ | OutOfFuel => False
  end.
Proof.
  induction node as [| content l IHl r IHr]; [discriminate |].
  destruct content as [| value | param | f | f];
    cbn [detail.evalutable optimize_impl eval_impl]; intros H; try discriminate H.
  - exists l, r. reflexivity.
  - specialize (IHl H).
    destruct (eval_impl M d l) as [a | | |]; try contradiction.
    + destruct IHl as (ll & lr & ->). cbn [mbind outcome_bind].
      cbn [detail.evalutable eval_impl mbind outcome_bind]. eauto.
    + rewrite IHl. reflexivity.
  - apply andb_prop in H as [Hl Hr]. specialize (IHl Hl). specialize (IHr Hr).
    destruct (eval_impl M d l) as [a | | |]; try contradiction;
      destruct (eval_impl M d r) as [b | | |]; try contradiction.
    + destruct IHl as (ll & lr & ->). destruct IHr as (rl & rr & ->).
      cbn [mbind outcome_bind detail.evalutable andb eval_impl].
      rewrite !(call_binary_returns M f (Ret b) (Ret a) b a eq_refl eq_refl).
      unfold invoke. destruct (f b a); cbn [mbind outcome_bind]; eauto.
    + destruct IHl as (ll & lr & ->). rewrite IHr.
      unfold call_binary. destruct (args_right_to_left M); reflexivity.
    + rewrite IHl.
      unfold call_binary. destruct (args_right_to_left M); reflexivity.
    + rewrite IHl.
      unfold call_binary. destruct (args_right_to_left M); reflexivity.
Qed.

(** A constant [optimize_impl] returns is the value of the tree. *)
Lemma optimize_impl_constant (M : platform) (d : gmap ascii float)
    (node l r : node_ptr) (v : float) :
  optimize_impl M d node = Ret (Node (Const v) l r) ->
  eval_impl M d node = Ret v.
Proof.
  intros E.
  pose proof (optimize_impl_evalutable M d _ _ E) as Hev. cbn in Hev.
  pose proof (optimize_impl_folds M d node (eq_sym Hev)) as H.
  destruct (eval_impl M d node) as [w | | |]; try contradiction.
  - destruct H as (l0 & r0 & H). congruence.
  - congruence.
Qed.

(** A tree without parameters that [optimize_impl] returns is a constant
    node. *)
Lemma optimized_evalutable (node : node_ptr) :
  optimized node = true -> detail.evalutable node = true ->
  exists v l r, node = Node (Const v) l r.
Proof.
  destruct node as [| [| v | p | f | f] l r]; cbn [optimized detail.evalutable];
    intros Ho He; try discriminate He.
  - eauto.
  - rewrite (inert_not_evalutable _ Ho) in He. discriminate He.
  - rewrite He in Ho. discriminate Ho.
Qed.

(** [optimize_impl] goes wrong on a tree that lacks an operand, or where it
    folds an operator that is undefined on the values of its operands. *)
Lemma optimize_impl_undefined (M : platform) (d : gmap ascii float) (node : node_ptr) :
  optimize_impl M d node = Undefined ->
  complete node = false \/ undefined_operation M d node.
Proof.
  induction node as [| content l IHl r IHr]; [left; reflexivity |].
  destruct content as [| value | param | f | f];
    cbn [optimize_impl complete]; try discriminate.
  - (* a unary function *)
    pose proof (optimize_impl_optimized M d l) as Hshape.
    destruct (optimize_impl M d l) as [l' | | |] eqn:El; try discriminate.
    + cbn [mbind outcome_bind].
      destruct (detail.evalutable l') eqn:E.
      * destruct (optimized_evalutable _ Hshape E) as (a & ll & lr & ->).
        discriminate.
      * destruct l' as [| [| lv | lp | g | g] ll lr]; discriminate.
    + intros _. destruct (IHl eq_refl) as [C | U]; [left; exact C |].
      right. apply undefined_operation_left; auto.
  - (* a binary operator *)
    pose proof (optimize_impl_optimized M d l) as Sl.
    pose proof (optimize_impl_optimized M d r) as Sr.
    pose proof (optimize_impl_preserves M d l) as Pl.
    pose proof (optimize_impl_preserves M d r) as Pr.
    destruct (optimize_impl M d l) as [l' | | |] eqn:El; try discriminate.
    2: { intros _. destruct (IHl eq_refl) as [C | U]; [left; rewrite C; reflexivity |].
         right. apply undefined_operation_left; auto. }
    destruct (optimize_impl M d r) as [r' | | |] eqn:Er; try discriminate.
    2: { intros _. destruct (IHr eq_refl) as [C | U];
           [left; rewrite C; apply andb_false_r |].
         right. apply undefined_operation_right. exact U. }
    cbn [mbind outcome_bind].
    destruct Pl as [Cl _]. destruct Pr as [Cr _].
    destruct (detail.evalutable (Node (Binary f) l' r')) eqn:E.
    + cbn [detail.evalutable] in E. apply andb_prop in E as [Hl Hr].
      destruct (optimized_evalutable _ Sl Hl) as (a & ll & lr & ->).
      destruct (optimized_evalutable _ Sr Hr) as (b & rl & rr & ->).
      cbn [eval_impl].
      rewrite (call_binary_returns M f (Ret b) (Ret a) b a eq_refl eq_refl).
      unfold invoke. destruct (f b a) eqn:Ef; [discriminate |]. intros _.
      right. apply (undefined_operation_here M d f l r b a); [| | exact Ef].
      * exact (optimize_impl_constant M d _ _ _ _ Er).
      * exact (optimize_impl_constant M d _ _ _ _ El).
    + destruct r' as [| [| rv | rp | g | g] rl rr];
        [intros _; left; rewrite <- Cr; apply andb_false_r | ..];
      (destruct l' as [| [| lv | lp | h | h] ll lr];
        [intros _; left; rewrite <- Cl; reflexivity | ..]);
        discriminate.
Qed.

(** X5: [optimize()] throws nothing.  Where its behaviour is undefined, the
    tree lacks an operand of a function, or has an operator whose call on
    the values of its operands is undefined; on every other tree it
    returns.  When it returns it has left the dictionary alone, an empty
    object empty and a tree in place of a tree, the new tree is complete
    when the old one was and reads the same parameters in the same order,
    and the bindings of the object played no part in what it did. *)
Theorem optimize_outcomes (M : platform) (this : expression) :
  match optimize M this with
  | (this', Ret _) =>
      _dictionary this' = _dictionary this /\
      operator_bool this' = operator_bool this /\
      parameters (_head this') = parameters (_head this) /\
      complete (_head this') = complete (_head this) /\
      (forall d : gmap ascii float,
         optimize M (Expression (_head this) d) =
           (Expression (_head this') d, Ret tt))
  | (_, Undefined) =>
      operator_bool this = true /\
      (complete (_head this) = false \/
       forall d : gmap ascii float, undefined_operation M d (_head this))
  | (_, Throw _) | (_, OutOfFuel) => False
  end.
Proof.
  destruct this as [head d]. unfold optimize. cbn [_head _dictionary].
  destruct head as [| c l r]; [repeat split |].
  pose proof (optimize_impl_no_throw M d (Node c l r)) as Hno.
  pose proof (optimize_impl_optimized M d (Node c l r)) as Hshape.
  destruct (optimize_impl M d (Node c l r)) as [head' | | |] eqn:E;
    try contradiction.
  - cbn [set_head _head _dictionary].
    pose proof (optimize_impl_preserves M d (Node c l r)) as Hp.
    rewrite E in Hp. destruct Hp as [C P].
    split; [reflexivity |].
    split; [destruct head'; [discriminate Hshape | reflexivity] |].
    split; [exact P |]. split; [exact C |].
    intros d0. rewrite (optimize_impl_dictionary M d0 d), E. reflexivity.
  - split; [reflexivity |].
    destruct (complete (Node c l r)) eqn:C; [right | left; reflexivity].
    intros d0. rewrite (optimize_impl_dictionary M d d0) in E.
    destruct (optimize_impl_undefined M d0 _ E) as [C' | U]; [congruence | exact U].
Qed.

(** X6: constant folding.  On an expression without parameters (constants
    under functions and operators) [optimize()] does what [eval()] does:
    where [eval()] returns a value, [optimize()] returns and leaves one
    constant node as the root, that value, which [eval()] returns
    afterwards; and where the behaviour of [eval()] is undefined, so is that
    of [optimize()].  [eval()] does nothing else on such an expression. *)
Theorem optimize_folds_constants (M : platform) (this : expression) :
  detail.evalutable (_head this) = true ->
  match eval M this with
  | Ret (Some v) =>
      exists l r : node_ptr,
        optimize M this = (set_head this (Node (Const v) l r), Ret tt) /\
        eval M (set_head this (Node (Const v) l r)) = Ret (Some v)
  | Undefined =>
      snd (optimize M this) = Undefined /\
      undefined_operation M (_dictionary this) (_head this)
  | _ => False
  end.
Proof.
  destruct this as [head d]. cbn [_head _dictionary]. intros H.
  pose proof (optimize_impl_folds M d head H) as Hfold.
  pose proof (evalutable_value M d head H) as Hvalue.
  unfold optimize, eval. cbn [_head _dictionary set_head].
  destruct head as [| c hl hr]; [discriminate H |].
  destruct (eval_impl M d (Node c hl hr)) as [v | | |]; try contradiction.
  - destruct Hfold as (l & r & ->). exists l, r. split; reflexivity.
  - rewrite Hfold. split; [reflexivity |].
    destruct Hvalue as [[v Hv] | [_ Hu]]; [discriminate Hv | exact Hu].
Qed.

(** The theorem on the tree of "3+sqrt(4)", folded into 5. *)
Lemma optimize_folds_constants_witness :
  exists l r : node_ptr,
    optimize example_platform
      (Expression (Node (Binary detail.function.plus)
                        (Node (Const 3) null null)
                        (Node (Unary detail.function.sqrt)
                              (Node (Const 4) null null) (Node nothing null null))) ∅) =
      (Expression (Node (Const 5) l r) ∅, Ret tt) /\
    eval example_platform (Expression (Node (Const 5) l r) ∅) = Ret (Some 5%float).
Proof.
  apply (optimize_folds_constants example_platform
           (Expression (Node (Binary detail.function.plus)
                        (Node (Const 3) null null)
                        (Node (Unary detail.function.sqrt)
                              (Node (Const 4) null null) (Node nothing null null))) ∅)).
  reflexivity.
Defined.

(** What [optimize_impl] makes of a function node is no parameter and no
    placeholder; every other node it returns as it is. *)
Lemma optimize_impl_root (M : platform) (d : gmap ascii float) (node : node_ptr) :
  match optimize_impl M d node with
  | Ret node' =>
      match node with
      | Node (Unary _) _ _ | Node (Binary _) _ _ => inert node' = false
      | _ => node' = node
      end
  | _ => True
  end.
Proof.
  destruct node as [| content l r]; [exact I |].
  destruct content as [| value | param | f | f]; try reflexivity;
    cbn [optimize_impl].
  - destruct (optimize_impl M d l) as [l' | | |]; try exact I.
    cbn [mbind outcome_bind].
    destruct (detail.evalutable l').
    + destruct (eval_impl M d (Node (Unary f) l' r)); exact I || reflexivity.
    + destruct l' as [| [| lv | lp | g | g] ll lr]; reflexivity.
  - destruct (optimize_impl M d l) as [l' | | |]; try exact I.
    destruct (optimize_impl M d r) as [r' | | |]; try exact I.
    cbn [mbind outcome_bind].
    destruct (detail.evalutable (Node (Binary f) l' r')).
    + destruct (eval_impl M d (Node (Binary f) l' r')); exact I || reflexivity.
    + destruct r' as [| [| rv | rp | g | g] rl rr]; try exact I;
      destruct l' as [| [| lv | lp | h | h] ll lr]; try exact I; reflexivity.
Qed.

(** A unary node is left only where the tree was a chain of unary
    functions over a parameter. *)
Lemma optimize_impl_unary (M : platform) (d : gmap ascii float) (node : node_ptr) :
  match optimize_impl M d node with
  | Ret (Node (Unary _) _ _) => unary_chain node = true
  | _ => True
  end.
Proof.
  induction node as [| content l IHl r IHr]; [exact I |].
  destruct content as [| value | param | f | f]; try exact I;
    cbn [optimize_impl unary_chain].
  - pose proof (optimize_impl_root M d l) as Hroot.
    pose proof (optimize_impl_optimized M d l) as Hshape.
    destruct (optimize_impl M d l) as [l' | | |]; try exact I.
    cbn [mbind outcome_bind].
    destruct (detail.evalutable l') eqn:E.
    + destruct (eval_impl M d (Node (Unary f) l' r)); exact I.
    + destruct l' as [| [| lv | lp | g | g] ll lr]; try exact I.
      * discriminate Hshape.
      * destruct l as [| [] ? ?]; try discriminate Hroot; reflexivity.
      * discriminate E.
      * destruct l as [| [] ? ?]; try discriminate Hroot; reflexivity.
      * rewrite IHl. apply orb_true_r.
  - destruct (optimize_impl M d l) as [l' | | |]; try exact I.
    destruct (optimize_impl M d r) as [r' | | |]; try exact I.
    cbn [mbind outcome_bind].
    destruct (detail.evalutable (Node (Binary f) l' r')).
    + destruct (eval_impl M d (Node (Binary f) l' r')); exact I.
    + destruct r' as [| [| rv | rp | g | g] rl rr]; try exact I;
      destruct l' as [| [| lv | lp | h | h] ll lr]; exact I.
Qed.

(** Where no operand of a binary operator is such a chain, the tree
    [optimize_impl] returns has the value of the tree it was given, under
    every dictionary. *)
Lemma optimize_impl_sound (M : platform) (d : gmap ascii float) (node : node_ptr) :
  fusion_free node = true ->
  forall node', optimize_impl M d node = Ret node' ->
  forall d' : gmap ascii float, eval_impl M d' node' = eval_impl M d' node.
Proof.
  induction node as [| content l IHl r IHr]; [discriminate |].
  destruct content as [| value | param | f | f];
    cbn [fusion_free optimize_impl]; intros Hf node';
    try (intros H; injection H as <-; reflexivity).
  - (* a unary function *)
    destruct (optimize_impl M d l) as [l' | | |]; try discriminate.
    pose proof (IHl Hf l' eq_refl) as Hl. cbn [mbind outcome_bind].
    destruct (detail.evalutable l') eqn:E.
    + pose proof (evalutable_any_dictionary M d) as Hany.
      destruct (eval_impl M d (Node (Unary f) l' r)) as [v | | |] eqn:Hv;
        try discriminate.
      cbn [mbind outcome_bind]. intros H. injection H as <-.
      intros d'. rewrite (Hany d' (Node (Unary f) l' r) E) in Hv.
      cbn [eval_impl] in *. rewrite <- Hl. symmetry. exact Hv.
    + destruct l' as [| [| lv | lp | g | g] ll lr];
        intros H; injection H as <-; intros d'; cbn [eval_impl];
        rewrite <- Hl; cbn [eval_impl]; try reflexivity.
      * destruct (eval_impl M d' ll); reflexivity.
      * unfold call_binary, invoke.
        destruct (args_right_to_left M), (eval_impl M d' lr) as [x | | |],
                 (eval_impl M d' ll) as [y | | |];
          try reflexivity; cbn [mbind outcome_bind]; destruct (g x y); reflexivity.
  - (* a binary operator *)
    apply andb_prop in Hf as [Hf Fr]. apply andb_prop in Hf as [Hf Fl].
    apply andb_prop in Hf as [Cl Cr].
    apply negb_true_iff in Cl. apply negb_true_iff in Cr.
    pose proof (optimize_impl_unary M d l) as Ul.
    pose proof (optimize_impl_unary M d r) as Ur.
    destruct (optimize_impl M d l) as [l' | | |]; try discriminate.
    destruct (optimize_impl M d r) as [r' | | |]; try discriminate.
    pose proof (IHl Fl l' eq_refl) as Hl. pose proof (IHr Fr r' eq_refl) as Hr.
    cbn [mbind outcome_bind].
    destruct (detail.evalutable (Node (Binary f) l' r')) eqn:E.
    + pose proof (evalutable_any_dictionary M d) as Hany.
      destruct (eval_impl M d (Node (Binary f) l' r')) as [v | | |] eqn:Hv;
        try discriminate.
      cbn [mbind outcome_bind]. intros H. injection H as <-.
      intros d'. rewrite (Hany d' (Node (Binary f) l' r') E) in Hv.
      cbn [eval_impl] in *. rewrite <- Hl, <- Hr. symmetry. exact Hv.
    + destruct r' as [| [| rv | rp | g | g] rl rr]; try discriminate;
        try congruence;
      destruct l' as [| [| lv | lp | h | h] ll lr]; try discriminate;
        try congruence;
        intros H; injection H as <-; intros d'; cbn [eval_impl];
        rewrite <- Hl, <- Hr; reflexivity.
Qed.

(** X7: where [optimize()] keeps the value.  When no operand of a binary
    operator is a function (or a chain of functions) applied to a parameter
    directly, the tree [optimize()] leaves evaluates, under every
    dictionary, to what the tree it found evaluated to: same value, same
    exception.  (The fusions of a unary function with the function or
    operator below it, and the folding of constants, are right; the fusion
    of a unary operand into a binary operator is not.) *)
Theorem optimize_keeps_value (M : platform) (this this' : expression) :
  fusion_free (_head this) = true ->
  optimize M this = (this', Ret tt) ->
  forall d : gmap ascii float,
    eval M (Expression (_head this') d) = eval M (Expression (_head this) d).
Proof.
  destruct this as [head d0]. unfold optimize, eval. cbn [_head _dictionary].
  intros Hf H d.
  destruct head as [| c l r]; [injection H as <-; reflexivity |].
  pose proof (optimize_impl_optimized M d0 (Node c l r)) as Hshape.
  destruct (optimize_impl M d0 (Node c l r)) as [head' | | |] eqn:E;
    try discriminate H.
  injection H as <-. cbn [set_head _head].
  destruct head' as [| c' l' r']; [discriminate Hshape |].
  rewrite (optimize_impl_sound M d0 _ Hf _ E d). reflexivity.
Qed.

(** The theorem on the tree of "sqrt(x+1)*2": the square root is fused
    with the sum below it, and the product keeps its operands. *)
Lemma optimize_keeps_value_witness :
  eval example_platform
    (Expression
       (Node (Binary detail.function.multiplies)
             (Node (Const 2) null null)
             (Node (Binary (fun a b =>
                      detail.function.sqrt <$> detail.function.plus a b))
                   (Node (Const 1) null null) (Node (Param "x") null null)))
       (<["x"%char := 3%float]> ∅)) =
  eval example_platform
    (Expression
       (Node (Binary detail.function.multiplies)
             (Node (Const 2) null null)
             (Node (Unary detail.function.sqrt)
                   (Node (Binary detail.function.plus)
                         (Node (Const 1) null null) (Node (Param "x") null null))
                   (Node nothing null null)))
       (<["x"%char := 3%float]> ∅)).
Proof.
  apply (optimize_keeps_value example_platform
    (Expression
         (Node (Binary detail.function.multiplies)
               (Node (Const 2) null null)
               (Node (Unary detail.function.sqrt)
                     (Node (Binary detail.function.plus)
                           (Node (Const 1) null null) (Node (Param "x") null null))
                     (Node nothing null null))) ∅)
    (Expression
         (Node (Binary detail.function.multiplies)
               (Node (Const 2) null null)
               (Node (Binary (fun a b =>
                        detail.function.sqrt <$> detail.function.plus a b))
                     (Node (Const 1) null null) (Node (Param "x") null null))) ∅)).
  - reflexivity.
  - reflexivity.
Defined.

(** ** The builder *)

Lemma deref_assign (head : node_ptr) (top : raw_ptr) (s : slot) (x : node_ptr) :
  deref head top <> null -> deref (assign head top s x) (top ++ [s]) = x.
Proof.
  revert head. induction top as [| sl top IH]; intros head H.
  - destruct head as [| c l r]; [contradiction |]. destruct s, x; reflexivity.
  - destruct head as [| c l r]; [exfalso; apply H; destruct sl; reflexivity |].
    destruct sl; cbn [deref assign app] in *; apply IH, H.
Qed.

Lemma assign_assign (head : node_ptr) (top : raw_ptr) (s s' : slot)
    (x y : node_ptr) :
  x <> null ->
  assign (assign head top s x) (top ++ [s]) s' y = assign head top s (assign x [] s' y).
Proof.
  intros Hx. revert head. induction top as [| sl top IH]; intros head.
  - destruct head as [| c l r]; [reflexivity |].
    destruct x as [| cx lx rx]; [contradiction |].
    destruct s, s'; reflexivity.
  - destruct head as [| c l r]; [reflexivity |].
    destruct sl; cbn [assign app]; rewrite IH; reflexivity.
Qed.

(** The turns of the loop that pop full nodes. *)
Lemma build_loop_pops (token : variant_t) (it : list variant_t) (head : node_ptr)
    (junk stack : list raw_ptr) :
  Forall (fun q => full head q = true) junk ->
  build_loop (token :: it) head (junk ++ stack) = build_loop (token :: it) head stack.
Proof.
  induction 1 as [| q junk Hq _ IH]; [reflexivity |].
  cbn [app]. rewrite build_loop_turn. unfold full in Hq.
  destruct (deref head q) as [| c [| cl ll lr] [| cr rl rr]]; try discriminate Hq.
  exact IH.
Qed.

(** The turn that finds a slot free. *)
Lemma build_loop_places (token : variant_t) (it : list variant_t) (head : node_ptr)
    (top : raw_ptr) (below : list raw_ptr) (c : variant_t) (l r : node_ptr)
    (s : slot) :
  deref head top = Node c l r -> free_slot l r = Some s ->
  build_loop (token :: it) head (top :: below) =
    place (build_loop it) token head (top :: below) top s.
Proof.
  intros Hd Hs. rewrite build_loop_turn, Hd.
  destruct l as [| cl ll lr]; [injection Hs as <-; reflexivity |].
  destruct r as [| cr rl rr]; [injection Hs as <-; reflexivity | discriminate Hs].
Qed.

Lemma built_node (t : node_ptr) : built t = true -> t <> null.
Proof. destruct t; [discriminate | discriminate]. Qed.

(** The loop hangs a whole subtree into the free slot of the top of the
    stack, and leaves above it only pointers to full nodes. *)
Lemma build_loop_subtree (t : node_ptr) :
  built t = true ->
  forall (rest : list variant_t) (head : node_ptr) (top : raw_ptr)
         (below junk : list raw_ptr) (c : variant_t) (l r : node_ptr) (s : slot),
    Forall (fun q => full head q = true) junk ->
    deref head top = Node c l r -> free_slot l r = Some s ->
    exists junk',
      Forall (fun q => full (assign head top s t) q = true) junk' /\
      build_loop (prefix_tokens t ++ rest) head (junk ++ top :: below) =
        build_loop rest (assign head top s t) (junk' ++ top :: below).
Proof.
  induction t as [| content tl IHl tr IHr]; [discriminate |].
  intros Hb rest head top below junk c l r s Hjunk Hd Hs.
  assert (Htop : deref head top <> null) by (rewrite Hd; discriminate).
  destruct content as [| v | p | f | f].
  - discriminate Hb.
  - (* a constant *)
    destruct tl; [| discriminate Hb]. destruct tr; [| discriminate Hb].
    exists []. split; [constructor |].
    cbn [prefix_tokens app]. rewrite (build_loop_pops _ _ _ _ _ Hjunk).
    rewrite (build_loop_places _ _ _ _ _ _ _ _ _ Hd Hs). reflexivity.
  - (* a parameter *)
    destruct tl; [| discriminate Hb]. destruct tr; [| discriminate Hb].
    exists []. split; [constructor |].
    cbn [prefix_tokens app]. rewrite (build_loop_pops _ _ _ _ _ Hjunk).
    rewrite (build_loop_places _ _ _ _ _ _ _ _ _ Hd Hs). reflexivity.
  - (* a unary function *)
    cbn [built] in Hb.
    destruct tr as [| [] [] []]; try discriminate Hb.
    cbn [prefix_tokens app]. rewrite (build_loop_pops _ _ _ _ _ Hjunk).
    rewrite (build_loop_places _ _ _ _ _ _ _ _ _ Hd Hs). unfold place, make_shared.
    rewrite assign_assign by discriminate. cbn [assign].
    destruct (IHl Hb rest
                (assign head top s (Node (Unary f) null (Node nothing null null)))
                (top ++ [s]) (top :: below) [] (Unary f) null
                (Node nothing null null) slot_left)
      as (junk1 & Hj1 & E1).
    { constructor. }
    { apply deref_assign, Htop. }
    { reflexivity. }
    cbn [app] in E1.
    rewrite assign_assign in * by discriminate. cbn [assign] in *.
    exists (junk1 ++ [top ++ [s]]). split.
    + apply Forall_app. split; [exact Hj1 |].
      constructor; [| constructor]. unfold full.
      rewrite deref_assign by exact Htop.
      pose proof (built_node _ Hb). destruct tl; [contradiction | reflexivity].
    + rewrite <- app_assoc. exact E1.
  - (* a binary operator *)
    cbn [built] in Hb. apply andb_prop in Hb as [Hbl Hbr].
    cbn [prefix_tokens app]. rewrite (build_loop_pops _ _ _ _ _ Hjunk).
    rewrite (build_loop_places _ _ _ _ _ _ _ _ _ Hd Hs). unfold place, make_shared.
    rewrite <- app_assoc.
    destruct (IHl Hbl (prefix_tokens tr ++ rest)
                (assign head top s (Node (Binary f) null null))
                (top ++ [s]) (top :: below) [] (Binary f) null null slot_left)
      as (junk1 & Hj1 & E1).
    { constructor. }
    { apply deref_assign, Htop. }
    { reflexivity. }
    cbn [app] in E1.
    rewrite assign_assign in E1, Hj1 by discriminate. cbn [assign] in E1, Hj1.
    pose proof (built_node _ Hbl) as Hl.
    destruct (IHr Hbr rest
                (assign head top s (Node (Binary f) tl null))
                (top ++ [s]) (top :: below) junk1 (Binary f) tl null slot_right)
      as (junk2 & Hj2 & E2).
    { exact Hj1. }
    { apply deref_assign, Htop. }
    { destruct tl; [contradiction | reflexivity]. }
    rewrite assign_assign in E2, Hj2 by discriminate. cbn [assign] in E2, Hj2.
    exists (junk2 ++ [top ++ [s]]). split.
    + apply Forall_app. split; [exact Hj2 |].
      constructor; [| constructor]. unfold full.
      rewrite deref_assign by exact Htop.
      pose proof (built_node _ Hbr). destruct tl, tr; try contradiction; reflexivity.
    + rewrite <- app_assoc. etransitivity; [exact E1 | exact E2].
Qed.

Lemma prefix_tokens_cons (t : node_ptr) :
  built t = true ->
  exists c l r rest, t = Node c l r /\ prefix_tokens t = c :: rest.
Proof.
  destruct t as [| c l r]; [discriminate |]. intros _.
  exists c, l, r. destruct c; eexists; (split; [reflexivity |]); reflexivity.
Qed.

(** Handing the builder the tokens of a tree of its shape gives the tree
    back. *)
Lemma build_tree_tokens (t : node_ptr) (this : expression) :
  built t = true ->
  build_tree (postfix_tokens t) this = (set_head this (as_root t), Ret tt).
Proof.
  intros Hb. unfold build_tree, postfix_tokens.
  rewrite rev_involutive, length_rev.
  destruct t as [| c l r]; [discriminate Hb |].
  destruct c as [| v | p | f | f].
  - discriminate Hb.
  - destruct l; [| discriminate Hb]. destruct r; [| discriminate Hb]. reflexivity.
  - destruct l; [| discriminate Hb]. destruct r; [| discriminate Hb]. reflexivity.
  - cbn [built] in Hb. destruct r as [| [] [] []]; try discriminate Hb.
    destruct (build_loop_subtree _ Hb [] (make_shared (Unary f)) [] [] []
                (Unary f) null null slot_left) as (junk & _ & E).
    { constructor. }
    { reflexivity. }
    { reflexivity. }
    rewrite app_nil_r in E. cbn [app assign make_shared] in E.
    destruct (prefix_tokens_cons _ Hb) as (c' & l' & r' & rest' & _ & Ep).
    cbn [prefix_tokens]. rewrite Ep in *.
    cbn [length is_function andb Nat.eqb]. unfold make_shared in *.
    match goal with
    | |- context [build_loop ?a ?b ?c] =>
        replace (build_loop a b c) with (@Ret node_ptr (Node (Unary f) l null))
          by (symmetry; exact E)
    end.
    reflexivity.
  - cbn [built] in Hb. apply andb_prop in Hb as [Hl Hr].
    destruct (build_loop_subtree _ Hl (prefix_tokens r) (make_shared (Binary f))
                [] [] [] (Binary f) null null slot_left) as (junk1 & Hj1 & E1).
    { constructor. }
    { reflexivity. }
    { reflexivity. }
    cbn [app assign make_shared] in E1, Hj1.
    pose proof (built_node _ Hl) as Nl.
    destruct (build_loop_subtree _ Hr [] (Node (Binary f) l null)
                [] [] junk1 (Binary f) l null slot_right)
      as (junk2 & _ & E2).
    { exact Hj1. }
    { reflexivity. }
    { destruct l; [contradiction | reflexivity]. }
    rewrite app_nil_r in E2. cbn [assign] in E2. rewrite E2 in E1.
    destruct (prefix_tokens_cons _ Hl) as (c' & l' & r' & rest' & _ & Ep).
    cbn [prefix_tokens]. rewrite Ep in *.
    cbn [length app is_function andb Nat.eqb] in *. unfold make_shared in *.
    match goal with
    | |- context [build_loop ?a ?b ?c] =>
        replace (build_loop a b c) with (@Ret node_ptr (Node (Binary f) l r))
          by (symmetry; exact E1)
    end.
    reflexivity.
Qed.

(** A step of the postfix stack keeps the trees of the stack of the
    builder's shape, and puts the token behind their tokens. *)
Lemma postfix_tree_tokens (stack stack' : list node_ptr) (token : variant_t) :
  Forall (fun t => built t = true) stack ->
  postfix_tree stack token = Some stack' ->
  Forall (fun t => built t = true) stack' /\
  flat_map postfix_tokens (rev stack') =
    flat_map postfix_tokens (rev stack) ++ [token].
Proof.
  intros Hs. unfold postfix_tree.
  destruct token as [| v | p | f | f].
  - discriminate.
  - intros H. injection H as <-. split; [constructor; [reflexivity | exact Hs] |].
    cbn [rev]. rewrite flat_map_app. reflexivity.
  - intros H. injection H as <-. split; [constructor; [reflexivity | exact Hs] |].
    cbn [rev]. rewrite flat_map_app. reflexivity.
  - destruct stack as [| a below]; [discriminate |].
    intros H. injection H as <-.
    apply Forall_cons in Hs as [Ha Hbelow].
    split; [constructor; [exact Ha | exact Hbelow] |].
    cbn [rev]. rewrite !flat_map_app. cbn [flat_map].
    rewrite !app_nil_r, <- app_assoc. reflexivity.
  - destruct stack as [| b [| a below]]; try discriminate.
    intros H. injection H as <-.
    apply Forall_cons in Hs as [Hb Hs]. apply Forall_cons in Hs as [Ha Hbelow].
    split; [constructor; [cbn [built]; rewrite Ha, Hb; reflexivity | exact Hbelow] |].
    cbn [rev]. rewrite !flat_map_app. cbn [flat_map].
    rewrite !app_nil_r, <- !app_assoc. f_equal.
    unfold postfix_tokens. cbn [prefix_tokens rev].
    rewrite rev_app_distr, <- app_assoc. reflexivity.
Qed.

Lemma postfix_trees_tokens (tokens : list variant_t) :
  forall stack stack' : list node_ptr,
    Forall (fun t => built t = true) stack ->
    postfix_trees tokens stack = Some stack' ->
    Forall (fun t => built t = true) stack' /\
    flat_map postfix_tokens (rev stack') =
      flat_map postfix_tokens (rev stack) ++ tokens.
Proof.
  induction tokens as [| token tokens IH]; intros stack stack' Hs; cbn [postfix_trees].
  - intros H. injection H as <-. rewrite app_nil_r. auto.
  - destruct (postfix_tree stack token) as [stack1 |] eqn:E; [| discriminate].
    intros H. destruct (postfix_tree_tokens _ _ _ Hs E) as [Hs1 E1].
    destruct (IH _ _ Hs1 H) as [Hs' E']. split; [exact Hs' |].
    rewrite E', E1, <- app_assoc. reflexivity.
Qed.

(** The tree the builder makes of a postfix sequence is the tree the
    postfix stack makes, with the root as the builder leaves it. *)
Lemma build_tree_postfix (tokens : list variant_t) (t : node_ptr)
    (this : expression) :
  postfix_trees tokens [] = Some [t] ->
  build_tree tokens this = (set_head this (as_root t), Ret tt).
Proof.
  intros H. destruct (postfix_trees_tokens tokens [] [t] ltac:(constructor) H) as [Hb E].
  apply Forall_cons in Hb as [Hb _].
  cbn [rev app flat_map] in E. rewrite app_nil_r in E. subst tokens.
  apply build_tree_tokens, Hb.
Qed.

Lemma postfix_trees_app (tokens tokens' : list variant_t) :
  forall stack : list node_ptr,
    postfix_trees (tokens ++ tokens') stack =
      match postfix_trees tokens stack with
      | Some stack' => postfix_trees tokens' stack'
      | None => None
      end.
Proof.
  induction tokens as [| token tokens IH]; intros stack; [reflexivity |].
  cbn [app postfix_trees]. destruct (postfix_tree stack token); [apply IH | reflexivity].
Qed.

(** The postfix stack reads the tokens of a tree back into the tree. *)
Lemma postfix_trees_of_tree (t : node_ptr) :
  built t = true ->
  forall stack : list node_ptr,
    postfix_trees (postfix_tokens t) stack = Some (t :: stack).
Proof.
  unfold postfix_tokens.
  induction t as [| c l IHl r IHr]; [discriminate |]. intros Hb stack.
  destruct c as [| v | p | f | f].
  - discriminate Hb.
  - destruct l; [| discriminate Hb]. destruct r; [| discriminate Hb]. reflexivity.
  - destruct l; [| discriminate Hb]. destruct r; [| discriminate Hb]. reflexivity.
  - cbn [built] in Hb. destruct r as [| [] [] []]; try discriminate Hb.
    cbn [prefix_tokens rev]. rewrite postfix_trees_app, (IHl Hb). reflexivity.
  - cbn [built] in Hb. apply andb_prop in Hb as [Hl Hr].
    cbn [prefix_tokens rev]. rewrite rev_app_distr, !postfix_trees_app.
    rewrite (IHr Hr), (IHl Hl). reflexivity.
Qed.

(** X8: the builder inverts the flattening of a tree.  For a tree of the
    shape the builder makes (leaves without children, the [nothing] node to
    the right of a function, two operands below an operator), the tokens of
    the tree in postfix order are read back into that tree by the postfix
    stack, and [build_impl] makes that tree of them (its root, made before
    the loop, without the [nothing] node), throwing nothing and leaving the
    dictionary alone. *)
Theorem build_inverts_flattening (t : node_ptr) (this : expression) :
  built t = true ->
  postfix_trees (postfix_tokens t) [] = Some [t] /\
  build_tree (postfix_tokens t) this = (set_head this (as_root t), Ret tt).
Proof.
  intros Hb. split.
  - apply postfix_trees_of_tree, Hb.
  - apply build_tree_tokens, Hb.
Qed.

(** The theorem on the tree of "x+1" and its tokens x, 1, +. *)
Lemma build_inverts_flattening_witness :
  postfix_trees [Param "x"%char; Const 1; Binary detail.function.plus] [] =
    Some [x_plus_1] /\
  build_tree [Param "x"%char; Const 1; Binary detail.function.plus]
             expression_default =
    (Expression x_plus_1 ∅, Ret tt).
Proof.
  apply (build_inverts_flattening x_plus_1 expression_default). reflexivity.
Defined.

(** The postfix stack of values runs beside the postfix stack of trees:
    each value is what [eval_impl] returns on its tree. *)
Lemma postfix_values_trees (M : platform) (d : gmap ascii float)
    (tokens : list variant_t) :
  forall (trees : list node_ptr) (values values' : list float),
    Forall2 (fun t v => eval_impl M d t = Ret v) trees values ->
    postfix_values d tokens values = Some values' ->
    exists trees',
      postfix_trees tokens trees = Some trees' /\
      Forall2 (fun t v => eval_impl M d t = Ret v) trees' values'.
Proof.
  induction tokens as [| token tokens IH]; intros trees values values' Hs;
    cbn [postfix_values postfix_trees].
  - intros H. injection H as <-. eauto.
  - destruct (postfix_value d values token) as [values1 |] eqn:E; [| discriminate].
    intros H.
    assert (exists trees1, postfix_tree trees token = Some trees1 /\
              Forall2 (fun t v => eval_impl M d t = Ret v) trees1 values1)
      as (trees1 & -> & Hs1).
    { unfold postfix_value, postfix_tree in *.
      destruct token as [| v | p | f | f].
      - discriminate E.
      - injection E as <-. eexists. split; [reflexivity |].
        constructor; [reflexivity | exact Hs].
      - destruct (d !! p) as [v |] eqn:Ep; [| discriminate E].
        injection E as <-. eexists. split; [reflexivity |].
        constructor; [| exact Hs]. cbn [make_shared eval_impl]. rewrite Ep. reflexivity.
      - destruct Hs as [| ta a trees values Ha Hs]; [discriminate E |].
        injection E as <-. eexists. split; [reflexivity |].
        constructor; [| exact Hs]. cbn [eval_impl]. rewrite Ha. reflexivity.
      - destruct Hs as [| tb b trees values Hb Hs]; [discriminate E |].
        destruct Hs as [| ta a trees values Ha Hs]; [discriminate E |].
        destruct (f a b) as [w |] eqn:Ef; [| discriminate E].
        injection E as <-. eexists. split; [reflexivity |].
        constructor; [| exact Hs]. cbn [eval_impl].
        rewrite (call_binary_returns M f _ _ a b Ha Hb). unfold invoke.
        rewrite Ef. reflexivity. }
    exact (IH _ _ _ Hs1 H).
Qed.

Lemma eval_impl_as_root (M : platform) (d : gmap ascii float) (t : node_ptr) :
  eval_impl M d (as_root t) = eval_impl M d t.
Proof. destruct t as [| [] l r]; reflexivity. Qed.

(** On a sequence whose postfix evaluation ends with one value, the
    builder makes a tree that evaluates to it. *)
Lemma build_tree_value (M : platform) (d : gmap ascii float)
    (tokens : list variant_t) (v : float) :
  postfix_values d tokens [] = Some [v] ->
  exists head : node_ptr,
    (forall this : expression,
       build_tree tokens this = (set_head this head, Ret tt)) /\
    head <> null /\ eval_impl M d head = Ret v.
Proof.
  intros H.
  destruct (postfix_values_trees M d tokens [] [] [v] ltac:(constructor) H)
    as (trees & Ht & Hv).
  inversion Hv as [| t v' trees' values' Hv' Hrest]; subst.
  inversion Hrest; subst.
  exists (as_root t). split; [intros this; apply build_tree_postfix, Ht |].
  rewrite eval_impl_as_root. split; [| exact Hv'].
  destruct t as [| [] l r]; discriminate.
Qed.

(** X9: the builder and the evaluator read a token sequence as postfix
    (reverse Polish) notation.  When the stack evaluation of the tokens
    under the object's dictionary ends with the one value v (operands
    pushed, a function applied to the top of the stack, an operator to the
    two topmost values, where it is defined on them, with the lower one as
    its first argument),
    [build_impl] returns on these tokens, keeps the dictionary, and
    [eval()] returns v. *)
Theorem build_and_eval_postfix (M : platform) (tokens : list variant_t)
    (this : expression) (v : float) :
  postfix_values (_dictionary this) tokens [] = Some [v] ->
  exists this',
    build_tree tokens this = (this', Ret tt) /\
    _dictionary this' = _dictionary this /\
    eval M this' = Ret (Some v).
Proof.
  intros H.
  destruct (build_tree_value M (_dictionary this) tokens v H)
    as (head & Hbuild & Hhead & Hv).
  exists (set_head this head).
  split; [apply Hbuild |]. split; [reflexivity |].
  unfold eval. cbn [set_head _head _dictionary].
  destruct head; [contradiction |]. rewrite Hv. reflexivity.
Qed.

(** The theorem on the tokens 7, x, - with x bound to 4: the value is
    7 - 4. *)
Lemma build_and_eval_postfix_witness :
  exists this',
    build_tree [Const 7; Param "x"%char; Binary detail.function.minus]
               (Expression null (<["x"%char := 4%float]> ∅)) = (this', Ret tt) /\
    _dictionary this' =
      _dictionary (Expression null (<["x"%char := 4%float]> ∅)) /\
    eval example_platform this' = Ret (Some 3%float).
Proof.
  apply (build_and_eval_postfix example_platform
           [Const 7; Param "x"%char; Binary detail.function.minus]
           (Expression null (<["x"%char := 4%float]> ∅)) 3%float).
  reflexivity.
Defined.

(** ** What the parser returns and throws *)

Lemma symbol_token_known (M : platform) (c : ascii) :
  known_symbol c = true ->
  exists tok, symbol_token M c = Ret tok /\ is_nothing tok = false.
Proof.
  intros H. each_char c; try discriminate H;
    (eexists; split; [reflexivity | reflexivity]).
Qed.

Lemma fun_operation_known (begin : ascii) (rest : string) (len : nat) :
  regex.fun_ (String begin rest) = Some len ->
  known_symbol
    (fun_operation begin
       match rest with String c _ => c | EmptyString => Ascii.zero end) = true.
Proof.
  unfold regex.fun_.
  destruct (List.find _ regex.fun_names) as [name |] eqn:E; [| discriminate].
  intros _. apply List.find_some in E as [Hin Hp].
  destruct rest as [| second rest].
  - simpl in Hin.
    repeat (destruct Hin as [<- | Hin];
            [cbn [String.prefix] in Hp;
             destruct (ascii_dec _ begin); discriminate Hp |]).
    contradiction.
  - simpl in Hin.
    repeat (destruct Hin as [<- | Hin];
            [cbn [String.prefix] in Hp;
             destruct (ascii_dec _ begin) as [<- |]; [| discriminate Hp];
             destruct (ascii_dec _ second) as [<- |]; [| discriminate Hp];
             reflexivity |]).
    contradiction.
Qed.

Lemma pop_not_weaker_known (M : platform) (operation : ascii)
    (sign_buffer : list ascii) :
  forall buffer : list variant_t,
    Forall (fun c => known_symbol c = true) sign_buffer ->
    Forall (fun tok => is_nothing tok = false) buffer ->
    exists buffer' sign_buffer',
      pop_not_weaker M operation buffer sign_buffer = Ret (buffer', sign_buffer') /\
      Forall (fun c => known_symbol c = true) sign_buffer' /\
      Forall (fun tok => is_nothing tok = false) buffer'.
Proof.
  induction sign_buffer as [| back below IH]; intros buffer Hs Hb;
    cbn [pop_not_weaker]; [eauto |].
  destruct (negb _); [| eauto].
  apply Forall_cons in Hs as [Hback Hbelow].
  destruct (symbol_token_known M back Hback) as (tok & -> & Htok).
  cbn [mbind outcome_bind]. apply IH; [exact Hbelow |].
  apply Forall_app. split; [exact Hb |]. constructor; [exact Htok | constructor].
Qed.

Lemma drain_known (M : platform) (sign_buffer : list ascii) :
  forall buffer : list variant_t,
    Forall (fun c => known_symbol c = true) sign_buffer ->
    Forall (fun tok => is_nothing tok = false) buffer ->
    exists symbols,
      drain M buffer sign_buffer = Ret symbols /\
      Forall (fun tok => is_nothing tok = false) symbols.
Proof.
  induction sign_buffer as [| token below IH]; intros buffer Hs Hb; cbn [drain].
  - eexists. split; [reflexivity |].
    destruct buffer; [constructor; [reflexivity | constructor] | exact Hb].
  - apply Forall_cons in Hs as [Htoken Hbelow].
    destruct (symbol_token_known M token Htoken) as (tok & -> & Htok).
    cbn [mbind outcome_bind]. apply IH; [exact Hbelow |].
    apply Forall_app. split; [exact Hb |]. constructor; [exact Htok | constructor].
Qed.

Lemma stod_outcome (M : platform) (real : string) :
  (exists v, stod M real = Ret v) \/ stod M real = Throw (out_of_range "stod").
Proof.
  unfold stod. destruct (regex.digits real) as [i [| c rest]].
  - destruct (_ <? _); [eauto |]. destruct (libc_strtod M real); eauto.
  - destruct (libc_strtod M real); eauto.
Qed.

(** Where [real] does not match, the line does not begin with a digit. *)
Lemma real_none (c : ascii) (rest : string) :
  regex.real (String c rest) = None -> isdigit c = false.
Proof.
  unfold regex.real. cbn [regex.digits].
  destruct (isdigit c); [| reflexivity].
  destruct (regex.digits rest) as [d r1].
  destruct (regex.fraction r1) as [f r2]. destruct (regex.exponent r2) as [e r3].
  discriminate.
Qed.

(** The loop of the parser: the symbols it keeps are known ones, no token is
    the [nothing] placeholder, and what it throws is one of the four errors
    of [parse_error]. *)
Lemma parse_loop_outcome (M : platform) (fuel : nat) :
  forall (line : string) (buffer : list variant_t) (sign_buffer : list ascii),
    Forall (fun c => known_symbol c = true) sign_buffer ->
    Forall (fun tok => is_nothing tok = false) buffer ->
    match parse_loop M fuel line buffer sign_buffer with
    | Ret symbols => Forall (fun tok => is_nothing tok = false) symbols
    | Throw e => parse_error e
    | Undefined => False
    | OutOfFuel => True
    end.
Proof.
  induction fuel as [| fuel IH]; intros line buffer sign_buffer Hs Hb; [exact I |].
  assert (Hpush : forall tok, is_nothing tok = false ->
            Forall (fun tok => is_nothing tok = false) (buffer ++ [tok])).
  { intros tok Htok. apply Forall_app. split; [exact Hb |].
    constructor; [exact Htok | constructor]. }
  cbn [parse_loop].
  destruct line as [| begin rest].
  { destruct (drain_known M sign_buffer buffer Hs Hb) as (symbols & -> & H). exact H. }
  destruct (regex.real (String begin rest)) as [[real line'] |] eqn:Ereal.
  { destruct (stod_outcome M real) as [[v ->] | ->]; cbn [mbind outcome_bind].
    - apply IH; [exact Hs | apply Hpush; reflexivity].
    - unfold parse_error. auto. }
  destruct (detail.is_binary_f begin) eqn:Ebin.
  { destruct (pop_not_weaker_known M begin sign_buffer buffer Hs Hb)
      as (b & s & -> & Hs' & Hb').
    cbn [mbind outcome_bind]. apply IH; [| exact Hb'].
    constructor; [| exact Hs']. unfold known_symbol. rewrite Ebin. reflexivity. }
  destruct (Ascii.eqb begin "(").
  { destruct (_ =? _)%nat; [unfold parse_error; auto |].
    destruct (1 <? _)%nat.
    - match goal with
      | |- context [parse_loop M fuel ?sub ?zero []] =>
          pose proof (IH sub zero []) as Hinner;
          destruct (parse_loop M fuel sub zero [])
      end; cbn [mbind outcome_bind].
      + apply IH; [exact Hs |]. apply Forall_app. split; [exact Hb |].
        apply Hinner; [constructor |]. unfold leading_zero.
        destruct (String.substring _ _ _) as [| c ?]; [constructor |].
        destruct (detail.is_binary_f c); [| constructor].
        constructor; [reflexivity | constructor].
      + apply Hinner; [constructor |]. unfold leading_zero.
        destruct (String.substring _ _ _) as [| c ?]; [constructor |].
        destruct (detail.is_binary_f c); [| constructor].
        constructor; [reflexivity | constructor].
      + apply Hinner; [constructor |]. unfold leading_zero.
        destruct (String.substring _ _ _) as [| c ?]; [constructor |].
        destruct (detail.is_binary_f c); [| constructor].
        constructor; [reflexivity | constructor].
      + exact I.
    - cbn [mbind outcome_bind]. rewrite app_nil_r. apply IH; assumption. }
  destruct (Ascii.eqb begin ")"); [unfold parse_error; auto |].
  destruct (isspace begin); [apply IH; assumption |].
  destruct (regex.fun_ (String begin rest)) as [len |] eqn:Efun.
  { apply IH; [| exact Hb].
    constructor; [exact (fun_operation_known _ _ _ Efun) | exact Hs]. }
  destruct (_ && _); [apply IH; [exact Hs | apply Hpush; reflexivity] |].
  destruct (Ascii.eqb begin "e"); [apply IH; [exact Hs | apply Hpush; reflexivity] |].
  destruct (1 <? _)%nat eqn:Elen.
  { unfold parse_error. right. right. left. eexists. split; [| reflexivity].
    apply Nat.ltb_lt in Elen. exact Elen. }
  cbn [regex.valid].
  rewrite (real_none _ _ Ereal).
  change (regex.oper begin) with (detail.is_binary_f begin). rewrite Ebin.
  cbn [orb]. destruct (regex.valid rest); cbn [fmap option_fmap option_map];
    (apply IH; [exact Hs | apply Hpush; reflexivity]).
Qed.

Lemma leading_zero_tokens (line : string) :
  Forall (fun tok => is_nothing tok = false) (leading_zero line).
Proof.
  unfold leading_zero. destruct line as [| c rest]; [constructor |].
  destruct (detail.is_binary_f c); [| constructor].
  constructor; [reflexivity | constructor].
Qed.

(** X10: what [parse] can do, on every string and every platform.  It
    ends; it returns a token sequence that is not empty (so that
    [build_impl] may read [*crbegin()]) and holds no [nothing] token, or it
    throws one of four exceptions: the two logic errors for parentheses,
    [invalid_argument] for a name of more than one character, and the
    [out_of_range] of [std::stod].  The logic errors of [sign_to_binary]
    and [sign_to_unary] for an unknown symbol and the [out_of_range] of
    [invalid_token.at(0)] are never thrown. *)
Theorem parse_outcomes (M : platform) (src : string) :
  match parse M src with
  | Ret symbols =>
      symbols <> [] /\ Forall (fun tok => is_nothing tok = false) symbols
  | Throw e => parse_error e
  | Undefined | OutOfFuel => False
  end.
Proof.
  pose proof (proj2 (parse_ends M src)) as Hends.
  pose proof (parse_nonempty M src) as Hnonempty.
  assert (Hout : match parse M src with
                 | Ret symbols => Forall (fun tok => is_nothing tok = false) symbols
                 | Throw e => parse_error e
                 | Undefined => False
                 | OutOfFuel => True
                 end).
  { unfold parse. destruct src as [| c rest].
    - constructor; [reflexivity | constructor].
    - apply parse_loop_outcome; [constructor | apply leading_zero_tokens]. }
  destruct (parse M src) as [symbols | e | |].
  - split; [apply Hnonempty; reflexivity | exact Hout].
  - exact Hout.
  - exact Hout.
  - apply Hends. reflexivity.
Qed.

(** ** What [build] and the constructors can do *)

(** [build_impl] after [parse]: the new head and the outcome do not depend
    on the object, whose dictionary is kept. *)
Lemma build_tree_outcome (symbols : list variant_t) :
  symbols <> [] ->
  exists (head : node_ptr) (result : outcome unit),
    (forall this : expression,
       build_tree symbols this = (set_head this head, result)) /\
    head <> null /\
    (result = Ret tt \/ result = Undefined \/
     exists e, result = Throw e /\ build_error e).
Proof.
  intros Hne. unfold build_tree.
  destruct (rev symbols) as [| it rest] eqn:Erev.
  { exfalso. apply Hne. rewrite <- (rev_involutive symbols), Erev. reflexivity. }
  assert (Hloop : exists (head : node_ptr) (result : outcome unit),
    (forall this : expression,
       match build_loop rest (make_shared it) [[]] with
       | Ret head => (set_head this head, Ret tt)
       | Throw e => (set_head this (make_shared it), Throw e)
       | Undefined => (set_head this (make_shared it), Undefined)
       | OutOfFuel => (set_head this (make_shared it), OutOfFuel)
       end = (set_head this head, result)) /\
    head <> null /\
    (result = Ret tt \/ result = Undefined \/
     exists e, result = Throw e /\ build_error e)).
  { pose proof (build_loop_root rest it null null [[]]) as Hroot.
    unfold make_shared.
    destruct (build_loop rest (Node it null null) [[]]) as [head | e | |];
      try contradiction.
    - destruct Hroot as (l' & r' & ->).
      eexists _, _. split; [intros this; reflexivity |].
      split; [discriminate | auto].
    - eexists _, _. split; [intros this; reflexivity |].
      split; [discriminate | auto]. }
  destruct it as [| v | param | f | f].
  - exact Hloop.
  - destruct (1 <? length symbols)%nat.
    + eexists _, _. split; [intros this; reflexivity |].
      split; [discriminate |]. right. right. eexists. split; [reflexivity |].
      left. reflexivity.
    + eexists _, _. split; [intros this; reflexivity |].
      split; [discriminate | auto].
  - exact Hloop.
  - cbn [is_function andb]. destruct (length symbols =? 1)%nat.
    + eexists _, _. split; [intros this; reflexivity |].
      split; [discriminate |]. right. right. eexists. split; [reflexivity |].
      right. reflexivity.
    + exact Hloop.
  - cbn [is_function andb]. destruct (length symbols =? 1)%nat.
    + eexists _, _. split; [intros this; reflexivity |].
      split; [discriminate |]. right. right. eexists. split; [reflexivity |].
      right. reflexivity.
    + exact Hloop.
Qed.

(** [build(p, src)] either throws what [parse] throws and leaves the
    object alone, or puts a tree, the same for every object, where [_head]
    was, and then returns, throws one of the two errors of [build_impl], or
    goes wrong. *)
Lemma build_cases (M : platform) (p : policy) (src : string) :
  (exists e, parse_error e /\
     forall this : expression, build M p src this = (this, Throw e)) \/
  (exists (head : node_ptr) (result : outcome unit),
     head <> null /\
     (forall this : expression,
        build M p src this = (set_head this head, result)) /\
     (result = Ret tt \/ result = Undefined \/
      exists e, result = Throw e /\ build_error e)).
Proof.
  unfold build, build_impl.
  pose proof (parse_ends M src) as [_ Hends].
  pose proof (parse_nonempty M src) as Hnonempty.
  pose proof (parse_loop_outcome M (S (String.length (preparse src)))
                (preparse src) (leading_zero (preparse src)) []
                ltac:(constructor) (leading_zero_tokens _)) as Hout.
  fold (parse_impl M (preparse src)) in Hout.
  destruct (parse M src) as [symbols | e | |] eqn:Eparse.
  - right.
    destruct (build_tree_outcome symbols (Hnonempty symbols eq_refl))
      as (head & result & Hbuild & Hhead & Hresult).
    destruct head as [| c l r]; [contradiction |].
    destruct Hresult as [-> | [-> | (e & -> & He)]].
    + destruct p.
      * exists (Node c l r), (Ret tt). split; [discriminate |].
        split; [intros this; rewrite Hbuild; reflexivity | auto].
      * pose proof (optimize_impl_no_throw M ∅ (Node c l r)) as Hno.
        pose proof (optimize_impl_optimized M ∅ (Node c l r)) as Hshape.
        destruct (optimize_impl M ∅ (Node c l r)) as [head' | | |] eqn:E;
          try contradiction.
        -- exists head', (Ret tt).
           split; [destruct head'; [discriminate Hshape | discriminate] |].
           split; [| auto].
           intros this. rewrite Hbuild. unfold optimize.
           cbn [set_head _head _dictionary].
           rewrite (optimize_impl_dictionary M (_dictionary this) ∅), E.
           reflexivity.
        -- exists (Node c l r), Undefined. split; [discriminate |].
           split; [| auto].
           intros this. rewrite Hbuild. unfold optimize.
           cbn [set_head _head _dictionary].
           rewrite (optimize_impl_dictionary M (_dictionary this) ∅), E.
           reflexivity.
    + exists (Node c l r), Undefined. split; [discriminate |].
      split; [intros this; rewrite Hbuild; reflexivity | auto].
    + exists (Node c l r), (Throw e). split; [discriminate |].
      split; [intros this; rewrite Hbuild; reflexivity |].
      right. right. exists e. auto.
  - left. exists e. split; [| intros this; reflexivity].
    unfold parse in Eparse. destruct src as [| c rest]; [discriminate Eparse |].
    rewrite Eparse in Hout. exact Hout.
  - unfold parse in Eparse. destruct src as [| c rest]; [discriminate Eparse |].
    rewrite Eparse in Hout. contradiction.
  - exfalso. apply Hends. reflexivity.
Qed.

(** X11: what [build(p, src)] can do to an object.  It ends.  The
    dictionary is left as it was in every case.  When it returns, the object
    holds a tree, and that tree depends on [src] and [p] only: building the
    same string on any other object gives the same tree.  When it throws,
    the exception is one of the four of [parse], thrown before the object
    was touched, or one of the two logic errors of [build_impl], thrown
    after [_head] was replaced by the node of the last token; [optimize]
    adds none. *)
Theorem build_outcomes (M : platform) (p : policy) (src : string)
    (this : expression) :
  match build M p src this with
  | (this', Ret _) =>
      _dictionary this' = _dictionary this /\
      operator_bool this' = true /\
      (forall other : expression,
         build M p src other = (set_head other (_head this'), Ret tt))
  | (this', Throw e) =>
      _dictionary this' = _dictionary this /\
      ((parse_error e /\ this' = this) \/
       (build_error e /\ operator_bool this' = true))
  | (this', Undefined) => _dictionary this' = _dictionary this
  | (_, OutOfFuel) => False
  end.
Proof.
  destruct (build_cases M p src)
    as [(e & He & Hbuild) | (head & result & Hhead & Hbuild & Hresult)];
    rewrite Hbuild.
  - split; [reflexivity |]. left. split; [exact He | reflexivity].
  - assert (Hbool : operator_bool (set_head this head) = true).
    { unfold operator_bool. cbn [set_head _head].
      destruct head; [contradiction | reflexivity]. }
    destruct Hresult as [-> | [-> | (e & -> & He)]].
    + split; [reflexivity |]. split; [exact Hbool |].
      intros other. apply Hbuild.
    + reflexivity.
    + split; [reflexivity |]. right. split; [exact He | exact Hbool].
Qed.

(** X12: an [expression] that was constructed holds a tree and no binding,
    so that [eval()] on it never returns [nullopt], [operator bool] is
    true, and [parse_function], which moves the object it has constructed
    into the function it returns, never returns [nullopt]; a constructor,
    and [parse_function] with it, throws nothing but the four exceptions of
    [parse] and the two of [build_impl].  The function [parse_function]
    returns is the one owner of the tree its constructor made, and a call of
    it is the call [eval(x, value)] on that tree: its [value()] never throws
    [std::bad_optional_access]. *)
Theorem constructed_holds_a_tree (M : platform) (p : policy) (source : string)
    (x : ascii) :
  match construct M p source with
  | Ret e =>
      operator_bool e = true /\ _dictionary e = ∅ /\
      eval M e <> Ret None /\
      exists g,
        parse_function M source x p = Ret (Some g) /\
        forall value : float,
          g value = returned (eval_impl M (<[x := value]> ∅) (_head e))
  | Throw e =>
      (parse_error e \/ build_error e) /\
      parse_function M source x p = Throw e
  | Undefined => parse_function M source x p = Undefined
  | OutOfFuel => False
  end.
Proof.
  unfold parse_function, construct.
  destruct (build_cases M p source)
    as [(e & He & Hbuild) | (head & result & Hhead & Hbuild & Hresult)];
    rewrite Hbuild; cbn [mbind outcome_bind].
  - split; [left; exact He | reflexivity].
  - destruct head as [| c l r]; [contradiction |].
    destruct Hresult as [-> | [-> | (e & -> & He)]]; cbn [mbind outcome_bind].
    + unfold operator_bool, eval, as_unary, eval_x.
      cbn [set_head _head _dictionary expression_default].
      split; [reflexivity |]. split; [reflexivity |]. split.
      * destruct (eval_impl M ∅ (Node c l r)); discriminate.
      * eexists. split; [reflexivity |].
        intros value. cbv beta. rewrite eval_impl_x_insert.
        destruct (eval_impl M (<[x := value]> ∅) (Node c l r)); reflexivity.
    + reflexivity.
    + split; [right; exact He | reflexivity].
Qed.

(** ** The preprocessing pass, again *)

Lemma preparse_spec (src : string) :
  preparse src = with_implicit_multiplication src.
Proof.
  destruct src as [| c r]; [reflexivity |].
  unfold preparse, with_implicit_multiplication.
  apply (preparse_loop_spec r EmptyString c).
  simpl. lia.
Qed.

Lemma implicit_multiplication_twice (s : string) :
  forall previous : ascii,
    implicit_multiplication previous (implicit_multiplication previous s) =
      implicit_multiplication previous s.
Proof.
  induction s as [| c r IH]; intros previous; [reflexivity |].
  cbn [implicit_multiplication].
  destruct (Ascii.eqb c "(" && (Ascii.eqb previous ")" || isdigit previous)) eqn:E.
  - cbn [implicit_multiplication]. rewrite IH.
    apply andb_prop in E as [Ec _]. apply Ascii.eqb_eq in Ec. subst c. reflexivity.
  - cbn [implicit_multiplication]. rewrite E, IH. reflexivity.
Qed.

Lemma implicit_multiplication_length (s : string) :
  forall previous : ascii,
    (String.length s <= String.length (implicit_multiplication previous s)
       <= 2 * String.length s)%nat.
Proof.
  induction s as [| c r IH]; intros previous; [simpl; lia |].
  cbn [implicit_multiplication].
  specialize (IH c).
  destruct (_ && _); cbn [String.length]; lia.
Qed.

Lemma implicit_multiplication_none (s : string) :
  forall previous : ascii,
    find s "(" 0 = None -> implicit_multiplication previous s = s.
Proof.
  induction s as [| c r IH]; intros previous; [reflexivity |].
  cbn [find implicit_multiplication].
  destruct (Ascii.eqb c "("); [discriminate |]. cbn [andb].
  destruct (find r "(" 0) eqn:E; [discriminate |].
  intros _. rewrite (IH c eq_refl). reflexivity.
Qed.

(** X13: [preparse] is idempotent (a second pass finds every parenthesis
    it cares about behind a multiplication sign), it leaves the first
    character and every string without an opening parenthesis after it as
    they are, and it makes no string shorter and none more than twice as
    long. *)
Theorem preparse_idempotent (src : string) :
  preparse (preparse src) = preparse src /\
  (find src "(" 1 = None -> preparse src = src) /\
  String.get 0 (preparse src) = String.get 0 src /\
  (String.length src <= String.length (preparse src)
     <= 2 * String.length src)%nat.
Proof.
  rewrite !preparse_spec.
  destruct src as [| c r]; [repeat split; simpl; lia |].
  cbn [with_implicit_multiplication].
  split; [rewrite implicit_multiplication_twice; reflexivity |].
  split.
  - cbn [find]. intros H. rewrite implicit_multiplication_none; [reflexivity |].
    destruct (find r "(" 0); [discriminate H | reflexivity].
  - split; [reflexivity |].
    pose proof (implicit_multiplication_length r c). cbn [String.length]. lia.
Qed.

(** ** Literals and parameters *)

Lemma no_parenthesis_append (a b : string) :
  no_parenthesis (a +:+ b) = no_parenthesis a && no_parenthesis b.
Proof.
  induction a as [| c a IH]; [reflexivity |].
  change (String c a +:+ b) with (String c (a +:+ b)). cbn [no_parenthesis].
  rewrite IH, andb_assoc. reflexivity.
Qed.

Lemma digit_no_parenthesis (c : ascii) :
  isdigit c = true -> is_parenthesis c = false.
Proof. intros H. each_char c; try discriminate H; reflexivity. Qed.

(** What [digits] matches holds digits only, and the line is the match and
    the rest. *)
Lemma digits_split (s : string) :
  s = fst (regex.digits s) +:+ snd (regex.digits s) /\
  no_parenthesis (fst (regex.digits s)) = true.
Proof.
  induction s as [| c r [IH1 IH2]]; [split; reflexivity |].
  cbn [regex.digits]. destruct (isdigit c) eqn:E; [| split; reflexivity].
  destruct (regex.digits r) as [d rest]. cbn [fst snd] in *.
  split; [change (String c d +:+ rest) with (String c (d +:+ rest)); congruence |].
  cbn [no_parenthesis]. rewrite (digit_no_parenthesis _ E), IH2. reflexivity.
Qed.

Lemma fraction_split (s : string) :
  s = fst (regex.fraction s) +:+ snd (regex.fraction s) /\
  no_parenthesis (fst (regex.fraction s)) = true.
Proof.
  unfold regex.fraction. destruct s as [| c r]; [split; reflexivity |].
  destruct (Ascii.eqb_spec c ".") as [-> | Hne].
  - destruct (digits_split r) as [H1 H2].
    destruct (regex.digits r) as [d rest]. cbn [fst snd] in *.
    split; [change (String "." d +:+ rest) with (String "."%char (d +:+ rest)); congruence |].
    cbn [no_parenthesis]. rewrite H2. reflexivity.
  - each_char c; try (split; reflexivity). contradiction Hne. reflexivity.
Qed.

Lemma exponent_split (s : string) :
  s = fst (regex.exponent s) +:+ snd (regex.exponent s) /\
  no_parenthesis (fst (regex.exponent s)) = true.
Proof.
  unfold regex.exponent. destruct s as [| c r]; [split; reflexivity |].
  destruct (in_chars c ["E"; "e"]%char) eqn:Ec; [| split; reflexivity].
  assert (Hc : is_parenthesis c = false).
  { each_char c; try discriminate Ec; reflexivity. }
  destruct r as [| x r'].
  - split; reflexivity.
  - destruct (in_chars x ["+"; "-"]%char) eqn:Ex.
    + destruct (digits_split r') as [H1 H2].
      destruct (regex.digits r') as [d rest]. cbn [fst snd] in *.
      destruct d as [| d0 d']; [split; reflexivity |]. cbn [fst snd].
      assert (Hx : is_parenthesis x = false).
      { each_char x; try discriminate Ex; reflexivity. }
      split.
      * change (String c (String x EmptyString +:+ String d0 d') +:+ rest)
          with (String c (String x (String d0 d' +:+ rest))). congruence.
      * change (String x EmptyString +:+ String d0 d') with (String x (String d0 d')).
        cbn [no_parenthesis] in *. rewrite Hc, Hx, H2. reflexivity.
    + destruct (digits_split (String x r')) as [H1 H2].
      destruct (regex.digits (String x r')) as [d rest]. cbn [fst snd] in *.
      destruct d as [| d0 d']; [split; reflexivity |]. cbn [fst snd].
      split.
      * change (String c (EmptyString +:+ String d0 d') +:+ rest)
          with (String c (String d0 d' +:+ rest)). congruence.
      * change (EmptyString +:+ String d0 d') with (String d0 d').
        cbn [no_parenthesis] in *. rewrite Hc, H2. reflexivity.
Qed.

Lemma append_assoc (a b c : string) : (a +:+ b) +:+ c = a +:+ (b +:+ c).
Proof.
  induction a as [| x a IH]; [reflexivity |].
  change (String x ((a +:+ b) +:+ c) = String x (a +:+ (b +:+ c))).
  rewrite IH. reflexivity.
Qed.

(** What [real] matches has no parenthesis, and the line is the match and
    the rest. *)
Lemma real_split (line real rest : string) :
  regex.real line = Some (real, rest) ->
  line = real +:+ rest /\ no_parenthesis real = true.
Proof.
  unfold regex.real.
  destruct (digits_split line) as [D1 D2].
  destruct (regex.digits line) as [i r1]. cbn [fst snd] in *.
  destruct i as [| i0 i']; [discriminate |].
  destruct (fraction_split r1) as [F1 F2].
  destruct (regex.fraction r1) as [f r2]. cbn [fst snd] in *.
  destruct (exponent_split r2) as [E1 E2].
  destruct (regex.exponent r2) as [e r3]. cbn [fst snd] in *.
  intros H. injection H as <- <-. split.
  - rewrite D1, F1, E1 at 1. rewrite !append_assoc. reflexivity.
  - rewrite !no_parenthesis_append, D2, F2, E2. reflexivity.
Qed.

(** [preparse] has nothing to do where there is no parenthesis. *)
Lemma implicit_multiplication_plain (s : string) :
  forall previous : ascii,
    no_parenthesis s = true -> implicit_multiplication previous s = s.
Proof.
  induction s as [| c r IH]; intros previous; [reflexivity |].
  cbn [no_parenthesis implicit_multiplication]. unfold is_parenthesis.
  destruct (Ascii.eqb c "("); [discriminate |]. cbn [andb].
  intros H. apply andb_prop in H as [_ H]. rewrite (IH c H). reflexivity.
Qed.

Lemma real_some (c : ascii) (rest : string) (found : string * string) :
  regex.real (String c rest) = Some found ->
  isdigit c = true /\ detail.is_binary_f c = false.
Proof.
  unfold regex.real. cbn [regex.digits].
  destruct (isdigit c) eqn:E; [| discriminate].
  intros _. split; [reflexivity |]. each_char c; try discriminate E; reflexivity.
Qed.

(** X14: a numeric literal alone.  When [regex::real] matches the whole
    string, [parse] returns the one constant [std::stod] makes of it (or
    throws what [std::stod] throws), a constructor makes a tree of that one
    node under either policy, and [compute] returns the constant. *)
Theorem literal_alone (M : platform) (p : policy) (src : string) :
  regex.real src = Some (src, EmptyString) ->
  parse M src = (v ← stod M src; Ret [Const v]) /\
  construct M p src =
    (v ← stod M src; Ret (Expression (make_shared (Const v)) ∅)) /\
  compute M src = (v ← stod M src; Ret (Some v)).
Proof.
  intros Hreal.
  assert (Hparse : parse M src = (v ← stod M src; Ret [Const v])).
  { destruct (real_split _ _ _ Hreal) as [_ Hplain].
    destruct src as [| c r]; [discriminate Hreal |].
    destruct (real_some _ _ _ Hreal) as [_ Hbin].
    unfold parse. rewrite preparse_spec. cbn [with_implicit_multiplication].
    cbn [no_parenthesis] in Hplain. apply andb_prop in Hplain as [_ Hplain].
    rewrite (implicit_multiplication_plain _ _ Hplain).
    unfold parse_impl, leading_zero. rewrite Hbin.
    cbn [String.length parse_loop]. rewrite Hreal.
    destruct (stod M (String c r)); reflexivity. }
  split; [exact Hparse |].
  unfold compute, construct, build, build_impl. rewrite Hparse.
  destruct (stod M src) as [v | e | |]; cbn [mbind outcome_bind];
    destruct p; split; reflexivity.
Qed.

(** The theorem on "42". *)
Lemma literal_alone_witness :
  parse example_platform "42" = Ret [Const 42] /\
  construct example_platform policy_optimize "42" =
    Ret (Expression (make_shared (Const 42)) ∅) /\
  compute example_platform "42" = Ret (Some 42%float).
Proof.
  apply (literal_alone example_platform policy_optimize "42"). reflexivity.
Defined.

(** The branches of [parse_impl] a parameter letter passes by. *)
Lemma parameter_letter_branches (c : ascii) (rest : string) :
  parameter_letter c = true ->
  isdigit c = false /\ detail.is_binary_f c = false /\
  Ascii.eqb c "(" = false /\ Ascii.eqb c ")" = false /\
  isspace c = false /\ regex.fun_ (String c rest) = None /\
  Ascii.eqb (toupper c) "P" = false /\ Ascii.eqb c "e" = false.
Proof.
  intros H. each_char c; try discriminate H; repeat split.
Qed.

(** X15: a parameter has to be followed by a digit, an operator or the end
    of the line.  For a letter that begins no function name (any letter but
    a, c, e, l, p, s, t and P), the letter alone is parsed as a parameter,
    and the letter followed by any character that is neither a digit nor an
    operator (a space, a parenthesis, another letter) makes [parse] throw
    [invalid_argument], whatever comes after: "x + 1" is refused where
    "x+1" is accepted. *)
Theorem parameter_needs_operator_next (M : platform) (c next : ascii)
    (rest : string) :
  parameter_letter c = true ->
  isdigit next = false -> regex.oper next = false ->
  parse M (String c EmptyString) = Ret [Param c] /\
  exists token : string,
    String.prefix (String c (String next EmptyString)) token = true /\
    parse M (String c (String next rest)) =
      Throw (invalid_argument
               (token +:+
                " Unexpected token in parsing (name parameters must be 1 char long)")).
Proof.
  intros Hc Hdigit Hoper.
  assert (Hreal : forall r, regex.real (String c r) = None).
  { intros r. unfold regex.real. cbn [regex.digits].
    destruct (parameter_letter_branches c r Hc) as (-> & _). reflexivity. }
  split.
  - destruct (parameter_letter_branches c EmptyString Hc)
      as (Hd & Hb & Ho & Hcl & Hs & Hf & Hp & He).
    unfold parse. rewrite preparse_spec.
    cbn [with_implicit_multiplication implicit_multiplication].
    unfold parse_impl, leading_zero. rewrite Hb.
    cbn [String.length parse_loop].
    rewrite Hreal, Hb, Ho, Hcl, Hs, Hf, Hp, He. cbn [andb regex.valid].
    rewrite Hd. change (regex.oper c) with (detail.is_binary_f c). rewrite Hb.
    reflexivity.
  - unfold parse. rewrite preparse_spec. cbn [with_implicit_multiplication implicit_multiplication].
    destruct (parameter_letter_branches c
                (String next (implicit_multiplication next rest)) Hc)
      as (Hd & Hb & Ho & Hcl & Hs & Hf & Hp & He).
    rewrite Hcl, Hd, andb_false_r.
    unfold parse_impl, leading_zero. rewrite Hb.
    cbn [String.length parse_loop].
    rewrite Hreal, Hb, Ho, Hcl, Hs, Hf, Hp, He. cbn [andb regex.valid].
    rewrite Hd, Hdigit, Hoper.
    change (regex.oper c) with (detail.is_binary_f c). rewrite Hb. cbn [orb].
    destruct (regex.valid (implicit_multiplication next rest)) as [prefix |];
      cbn [fmap option_fmap option_map String.length Nat.ltb Nat.leb];
      eexists; (split; [| reflexivity]);
      cbn [String.prefix];
      destruct (ascii_dec c c) as [_ | []]; try reflexivity;
      destruct (ascii_dec next next) as [_ | []]; try reflexivity;
      match goal with |- String.prefix EmptyString ?s = true => destruct s end;
      reflexivity.
Qed.

(** The theorem on "x" and on "x + 1". *)
Lemma parameter_needs_operator_next_witness :
  parse example_platform "x" = Ret [Param "x"] /\
  exists token : string,
    String.prefix "x " token = true /\
    parse example_platform "x + 1" =
      Throw (invalid_argument
               (token +:+
                " Unexpected token in parsing (name parameters must be 1 char long)")).
Proof.
  apply (parameter_needs_operator_next example_platform "x" " " "+ 1");
    reflexivity.
Defined.

(** ** The order of evaluation of the operands *)

Lemma eval_impl_any_order (M M' : platform) (d : gmap ascii float) (node : node_ptr) :
  forall v : float, eval_impl M d node = Ret v -> eval_impl M' d node = Ret v.
Proof.
  induction node as [| content l IHl r IHr]; intros v; [discriminate |].
  destruct content as [| value | param | f | f]; cbn [eval_impl]; try (intros H; exact H).
  - destruct (eval_impl M d l) as [a | | |]; try discriminate.
    rewrite (IHl a eq_refl). intros H. exact H.
  - intros H. apply call_binary_ret in H as (x & y & Hr & Hl & Hf).
    rewrite (call_binary_returns M' f _ _ x y (IHr x Hr) (IHl y Hl)).
    unfold invoke. rewrite Hf. reflexivity.
Qed.

(** X16: the order in which the two operands of a binary operator are
    evaluated, which C++ leaves to the compiler, never changes the value:
    what [eval()] returns under one order it returns under the other, and
    an evaluation that fails under one order fails under the other (the
    order only chooses which failure is met first). *)
Theorem eval_value_in_any_order (M M' : platform) (this : expression) :
  (forall result, eval M this = Ret result <-> eval M' this = Ret result) /\
  ((exists e, eval M this = Throw e) \/ eval M this = Undefined <->
   (exists e, eval M' this = Throw e) \/ eval M' this = Undefined).
Proof.
  assert (Hret : forall (A B : platform) result,
            eval A this = Ret result -> eval B this = Ret result).
  { intros A B result. unfold eval.
    destruct (_head this) as [| c l r]; [intros H; exact H |].
    destruct (eval_impl A (_dictionary this) (Node c l r)) as [v | | |] eqn:E;
      try discriminate.
    rewrite (eval_impl_any_order A B _ _ v E). intros H. exact H. }
  assert (Hends : forall A : platform, eval A this <> OutOfFuel).
  { intros A. unfold eval. destruct (_head this) as [| c l r]; [discriminate |].
    assert (H : eval_impl A (_dictionary this) (Node c l r) <> OutOfFuel).
    { generalize (Node c l r). intros node.
      induction node as [| content nl IHl nr IHr]; [discriminate |].
      destruct content as [| value | param | f | f]; cbn [eval_impl]; try discriminate.
      - destruct (_dictionary this !! param); discriminate.
      - destruct (eval_impl A (_dictionary this) nl); try discriminate. contradiction.
      - apply call_binary_ends; assumption. }
    destruct (eval_impl A (_dictionary this) (Node c l r)); try discriminate.
    contradiction. }
  assert (Hfail : forall A B : platform,
            (exists e, eval A this = Throw e) \/ eval A this = Undefined ->
            (exists e, eval B this = Throw e) \/ eval B this = Undefined).
  { intros A B H. pose proof (Hends B) as HB.
    destruct (eval B this) as [result | e | |] eqn:E; eauto; [| contradiction].
    rewrite (Hret B A result E) in H. destruct H as [[e H] | H]; discriminate H. }
  split.
  - intros result. split; apply Hret.
  - split; apply Hfail.
Qed.

(** ** Parentheses *)

Lemma balance_plain (a b : string) :
  no_parenthesis a = true ->
  forall depth : nat, balance (a +:+ b) depth = balance b depth.
Proof.
  induction a as [| c a IH]; intros H depth; [reflexivity |].
  change (String c a +:+ b) with (String c (a +:+ b)).
  cbn [no_parenthesis balance] in *. unfold is_parenthesis in H.
  destruct (Ascii.eqb c "("); [discriminate H |].
  destruct (Ascii.eqb c ")"); [discriminate H |].
  apply IH, H.
Qed.

Lemma balance_char (c : ascii) (r : string) (depth : nat) :
  is_parenthesis c = false -> balance (String c r) depth = balance r depth.
Proof.
  unfold is_parenthesis. cbn [balance].
  destruct (Ascii.eqb c "("); [discriminate |].
  destruct (Ascii.eqb c ")"); [discriminate | reflexivity].
Qed.

Lemma balance_append (a b : string) :
  forall depth : nat,
    balance (a +:+ b) depth =
      match balance a depth with
      | Some depth' => balance b depth'
      | None => None
      end.
Proof.
  induction a as [| c a IH]; intros depth; [reflexivity |].
  change (String c a +:+ b) with (String c (a +:+ b)). cbn [balance].
  destruct (Ascii.eqb c "("); [apply IH |].
  destruct (Ascii.eqb c ")"); [| apply IH].
  destruct depth; [reflexivity | apply IH].
Qed.

Lemma balance_deeper (s : string) :
  forall depth depth' : nat,
    balance s depth = Some depth' -> balance s (S depth) = Some (S depth').
Proof.
  induction s as [| c r IH]; intros depth depth'; cbn [balance].
  - intros H. injection H as <-. reflexivity.
  - destruct (Ascii.eqb c "("); [apply IH |].
    destruct (Ascii.eqb c ")"); [| apply IH].
    destruct depth; [discriminate | apply IH].
Qed.

Lemma balance_implicit_multiplication (s : string) :
  forall (previous : ascii) (depth : nat),
    balance (implicit_multiplication previous s) depth = balance s depth.
Proof.
  induction s as [| c r IH]; intros previous depth; [reflexivity |].
  cbn [implicit_multiplication].
  destruct (_ && _).
  - rewrite balance_char by reflexivity. cbn [balance].
    destruct (Ascii.eqb c "("); [apply IH |].
    destruct (Ascii.eqb c ")"); [| apply IH].
    destruct depth; [reflexivity | apply IH].
  - cbn [balance].
    destruct (Ascii.eqb c "("); [apply IH |].
    destruct (Ascii.eqb c ")"); [| apply IH].
    destruct depth; [reflexivity | apply IH].
Qed.

Lemma closing_index_least (s : string) :
  forall (counter : Z) (index : nat),
    (index <= closing_index s counter index)%nat.
Proof.
  induction s as [| c r IH]; intros counter index; cbn [closing_index]; [lia |].
  destruct (_ =? 0); [lia |].
  specialize (IH (if Ascii.eqb c "(" then counter + 1
                  else if Ascii.eqb c ")" then counter - 1 else counter) (S index)).
  lia.
Qed.

(** Where the search for the closing parenthesis stops inside the line, it
    stops at a closing parenthesis. *)
Lemma closing_index_stops (s : string) :
  forall (counter : Z) (index : nat),
    1 <= counter ->
    (closing_index s counter index < index + String.length s)%nat ->
    exists a b : string,
      s = a +:+ String ")" b /\
      String.length a = (closing_index s counter index - index)%nat.
Proof.
  induction s as [| c r IH]; intros counter index Hc; cbn [closing_index String.length].
  - lia.
  - destruct (Ascii.eqb_spec c "(") as [-> | Hopen].
    + destruct (Z.eqb_spec (counter + 1) 0) as [| _]; [lia |].
      intros H. destruct (IH (counter + 1) (S index)) as (a & b & -> & Ha); [lia | lia |].
      exists (String "(" a), b. split; [reflexivity |].
      cbn [String.length]. rewrite Ha.
      pose proof (closing_index_least (a +:+ String ")" b) (counter + 1) (S index)).
      lia.
    + destruct (Ascii.eqb_spec c ")") as [-> | Hclose].
      * destruct (Z.eqb_spec (counter - 1) 0) as [| Hne].
        -- intros _. exists EmptyString, r. split; [reflexivity |].
           cbn [String.length]. lia.
        -- intros H.
           destruct (IH (counter - 1) (S index)) as (a & b & -> & Ha); [lia | lia |].
           exists (String ")" a), b. split; [reflexivity |].
           cbn [String.length]. rewrite Ha.
           pose proof (closing_index_least (a +:+ String ")" b) (counter - 1) (S index)).
           lia.
      * destruct (Z.eqb_spec counter 0) as [| _]; [lia |].
        intros H. destruct (IH counter (S index)) as (a & b & -> & Ha); [lia | lia |].
        exists (String c a), b. split; [reflexivity |].
        cbn [String.length]. rewrite Ha.
        pose proof (closing_index_least (a +:+ String ")" b) counter (S index)).
        lia.
Qed.

Lemma substring_append (a b : string) :
  String.substring 0 (String.length a) (a +:+ b) = a.
Proof.
  induction a as [| c a IH]; [destruct b; reflexivity |].
  change (String c a +:+ b) with (String c (a +:+ b)).
  cbn [String.length String.substring]. rewrite IH. reflexivity.
Qed.

Lemma remove_prefix_append_char (a b : string) (c : ascii) :
  remove_prefix (S (String.length a)) (a +:+ String c b) = b.
Proof.
  induction a as [| x a IH]; [reflexivity |].
  change (String x a +:+ ?r) with (String x (a +:+ r)).
  cbn [String.length remove_prefix]. exact IH.
Qed.

Lemma prefix_split (name line : string) :
  String.prefix name line = true ->
  line = name +:+ remove_prefix (String.length name) line.
Proof.
  revert line. induction name as [| c name IH]; intros line; [reflexivity |].
  destruct line as [| x line]; [discriminate |].
  cbn [String.prefix]. destruct (ascii_dec c x) as [<- |]; [| discriminate].
  intros H. change (String c name +:+ ?r) with (String c (name +:+ r)).
  cbn [String.length remove_prefix]. rewrite <- (IH line H). reflexivity.
Qed.

(** What [fun] matches is a name without a parenthesis at the head of the
    line. *)
Lemma fun_split (line : string) (len : nat) :
  regex.fun_ line = Some len ->
  exists name : string,
    line = name +:+ remove_prefix len line /\ no_parenthesis name = true.
Proof.
  unfold regex.fun_.
  destruct (List.find _ regex.fun_names) as [name |] eqn:E; [| discriminate].
  intros H. injection H as <-.
  apply List.find_some in E as [Hin Hp].
  exists name. split; [apply prefix_split, Hp |].
  simpl in Hin.
  repeat (destruct Hin as [<- | Hin]; [reflexivity |]).
  contradiction.
Qed.

(** When the loop of the parser returns, the parentheses of the line were
    balanced. *)
Lemma parse_loop_balanced (M : platform) (fuel : nat) :
  forall (line : string) (buffer : list variant_t) (sign_buffer : list ascii)
         (symbols : list variant_t),
    parse_loop M fuel line buffer sign_buffer = Ret symbols ->
    balance line 0 = Some 0%nat.
Proof.
  induction fuel as [| fuel IH]; intros line buffer sign_buffer symbols;
    [discriminate |].
  cbn [parse_loop].
  destruct line as [| begin rest]; [reflexivity |].
  destruct (regex.real (String begin rest)) as [[real line'] |] eqn:Ereal.
  { destruct (real_split _ _ _ Ereal) as [-> Hplain].
    destruct (stod M real); cbn [mbind outcome_bind]; try discriminate.
    intros H. rewrite (balance_plain _ _ Hplain). exact (IH _ _ _ _ H). }
  destruct (detail.is_binary_f begin) eqn:Ebin.
  { destruct (pop_not_weaker M begin buffer sign_buffer) as [[b s] | | |];
      cbn [mbind outcome_bind]; try discriminate.
    intros H. rewrite balance_char; [exact (IH _ _ _ _ H) |].
    each_char begin; try discriminate Ebin; reflexivity. }
  destruct (Ascii.eqb_spec begin "(") as [-> | Hopen].
  { pose proof (closing_index_bound rest 1 1) as Hbound.
    destruct (Nat.eqb_spec (closing_index rest 1 1) (String.length (String "(" rest)))
      as [| Hne]; [discriminate |].
    cbn [String.length] in Hne.
    destruct (closing_index_stops rest 1 1) as (a & b & -> & Ha); [lia | lia |].
    pose proof (closing_index_least (a +:+ String ")" b) 1 1) as Hleast.
    assert (Hindex : closing_index (a +:+ String ")" b) 1 1 = S (String.length a))
      by lia.
    rewrite Hindex.
    assert (Hrest : forall inner,
      parse_loop M fuel
        (remove_prefix (S (String.length a) + 1) (String "(" (a +:+ String ")" b)))
        (buffer ++ inner) sign_buffer = Ret symbols ->
      balance b 0 = Some 0%nat).
    { intros inner H.
      replace (S (String.length a) + 1)%nat with (S (S (String.length a))) in H by lia.
      change (remove_prefix (S (S (String.length a))) (String "(" (a +:+ String ")" b)))
        with (remove_prefix (S (String.length a)) (a +:+ String ")" b)) in H.
      rewrite remove_prefix_append_char in H. exact (IH _ _ _ _ H). }
    assert (Hwhole : balance a 0 = Some 0%nat -> balance b 0 = Some 0%nat ->
                     balance (String "(" (a +:+ String ")" b)) 0 = Some 0%nat).
    { intros Hba Hbb. cbn [balance Ascii.eqb Bool.eqb].
      rewrite balance_append, (balance_deeper _ _ _ Hba). exact Hbb. }
    destruct (Nat.ltb_spec 1 (S (String.length a))) as [Hlong | Hshort].
    - replace (S (String.length a) - 1)%nat with (String.length a) by lia.
      change (String.substring 1 (String.length a) (String "(" (a +:+ String ")" b)))
        with (String.substring 0 (String.length a) (a +:+ String ")" b)).
      rewrite substring_append.
      destruct (parse_loop M fuel a (leading_zero a) []) as [inner | | |] eqn:Einner;
        cbn [mbind outcome_bind]; try discriminate.
      intros H. apply Hwhole; [exact (IH _ _ _ _ Einner) | exact (Hrest _ H)].
    - cbn [mbind outcome_bind]. intros H.
      apply Hwhole; [| exact (Hrest _ H)].
      destruct a; [reflexivity | cbn [String.length] in Hshort; lia]. }
  destruct (Ascii.eqb_spec begin ")") as [-> | Hclose]; [discriminate |].
  assert (Hbegin : is_parenthesis begin = false).
  { unfold is_parenthesis.
    destruct (Ascii.eqb_spec begin "("); [contradiction |].
    destruct (Ascii.eqb_spec begin ")"); [contradiction | reflexivity]. }
  destruct (isspace begin).
  { intros H. rewrite balance_char by exact Hbegin. exact (IH _ _ _ _ H). }
  destruct (regex.fun_ (String begin rest)) as [len |] eqn:Efun.
  { intros H. destruct (fun_split _ _ Efun) as (name & Hline & Hplain).
    rewrite Hline, (balance_plain _ _ Hplain). exact (IH _ _ _ _ H). }
  destruct (_ && _) eqn:Epi.
  { apply andb_prop in Epi as [_ Epi].
    destruct rest as [| second rest]; [discriminate Epi |].
    cbn [remove_prefix]. intros H.
    rewrite balance_char by exact Hbegin.
    rewrite balance_char; [exact (IH _ _ _ _ H) |].
    each_char second; try discriminate Epi; reflexivity. }
  destruct (Ascii.eqb begin "e").
  { intros H. rewrite balance_char by exact Hbegin. exact (IH _ _ _ _ H). }
  destruct (1 <? _)%nat; [discriminate |].
  destruct (match regex.valid (String begin rest) with
            | Some prefix => prefix
            | None => String begin rest
            end); [discriminate |].
  intros H. rewrite balance_char by exact Hbegin. exact (IH _ _ _ _ H).
Qed.

(** X17: [parse] accepts balanced parentheses only.  When [parse] returns,
    every parenthesis of the string is closed and none is closed that was
    not opened; a string whose parentheses are not balanced makes [parse]
    throw one of its four exceptions, and with it every constructor,
    [build] and [compute]. *)
Theorem unbalanced_is_refused (M : platform) (src : string) :
  (forall symbols, parse M src = Ret symbols -> balanced src = true) /\
  (balanced src = false ->
   exists e, parse_error e /\ parse M src = Throw e /\
     (forall p, construct M p src = Throw e) /\
     compute M src = Throw e).
Proof.
  assert (Hret : forall symbols, parse M src = Ret symbols -> balanced src = true).
  { intros symbols. unfold parse, balanced.
    destruct src as [| c r]; [reflexivity |].
    rewrite preparse_spec. cbn [with_implicit_multiplication].
    intros H. apply parse_loop_balanced in H.
    cbn [balance] in *. rewrite !balance_implicit_multiplication in H.
    rewrite H. reflexivity. }
  split; [exact Hret |].
  intros Hno.
  pose proof (proj2 (parse_ends M src)) as Hends.
  assert (Hout : match parse M src with
                 | Ret symbols => Forall (fun tok => is_nothing tok = false) symbols
                 | Throw e => parse_error e
                 | Undefined => False
                 | OutOfFuel => True
                 end).
  { unfold parse. destruct src as [| c rest].
    - constructor; [reflexivity | constructor].
    - apply parse_loop_outcome; [constructor | apply leading_zero_tokens]. }
  destruct (parse M src) as [symbols | e | |] eqn:E.
  - rewrite (Hret symbols eq_refl) in Hno. discriminate Hno.
  - exists e. split; [exact Hout |]. split; [reflexivity |].
    unfold compute, construct, build, build_impl. rewrite E.
    split; [intros p |]; reflexivity.
  - contradiction.
  - exfalso. apply Hends. reflexivity.
Qed.

(** ** Literals and operators without parentheses *)

Lemma append_empty (s : string) : s +:+ EmptyString = s.
Proof.
  induction s as [| c s IH]; [reflexivity |].
  change (String c (s +:+ EmptyString) = String c s). rewrite IH. reflexivity.
Qed.

Lemma append_length (a b : string) :
  String.length (a +:+ b) = (String.length a + String.length b)%nat.
Proof.
  induction a as [| c a IH]; [reflexivity |].
  change (String c a +:+ b) with (String c (a +:+ b)).
  cbn [String.length]. rewrite IH. reflexivity.
Qed.

Lemma digits_literal (n r : string) :
  all_digits n = true -> ends_literal r = true ->
  regex.digits (n +:+ r) = (n, r).
Proof.
  intros Hn Hr. induction n as [| c n IH].
  - destruct r as [| op r']; [reflexivity |].
    cbn [ends_literal] in Hr. change (EmptyString +:+ String op r') with (String op r').
    cbn [regex.digits].
    replace (isdigit op) with false
      by (each_char op; try discriminate Hr; reflexivity).
    reflexivity.
  - cbn [all_digits] in Hn. apply andb_prop in Hn as [Hc Hn].
    change (String c n +:+ r) with (String c (n +:+ r)).
    cbn [regex.digits]. rewrite Hc, (IH Hn). reflexivity.
Qed.

Lemma real_literal (n r : string) :
  short_integer n = true -> ends_literal r = true ->
  regex.real (n +:+ r) = Some (n, r).
Proof.
  intros Hn Hr. unfold short_integer in Hn.
  destruct n as [| c n]; [discriminate Hn |].
  apply andb_prop in Hn as [Hn _].
  unfold regex.real. rewrite (digits_literal _ _ Hn Hr).
  destruct r as [| op r'].
  - cbn [regex.fraction regex.exponent]. rewrite !append_empty. reflexivity.
  - cbn [ends_literal] in Hr.
    assert (Hf : regex.fraction (String op r') = (EmptyString, String op r')).
    { each_char op; try discriminate Hr; reflexivity. }
    assert (He : regex.exponent (String op r') = (EmptyString, String op r')).
    { each_char op; try discriminate Hr; reflexivity. }
    rewrite Hf, He, !append_empty. reflexivity.
Qed.

Lemma stod_literal (M : platform) (n : string) :
  short_integer n = true -> stod M n = Ret (literal n).
Proof.
  intros Hn. unfold short_integer in Hn.
  destruct n as [| c n]; [discriminate Hn |].
  apply andb_prop in Hn as [Hd Hv].
  unfold stod.
  pose proof (digits_literal (String c n) EmptyString Hd eq_refl) as E.
  rewrite append_empty in E. rewrite E, Hv. reflexivity.
Qed.

(** The turn of the loop that reads an integer literal. *)
Lemma parse_loop_literal (M : platform) (fuel : nat) (n r : string)
    (buffer : list variant_t) (sign_buffer : list ascii) :
  short_integer n = true -> ends_literal r = true ->
  parse_loop M (S fuel) (n +:+ r) buffer sign_buffer =
    parse_loop M fuel r (buffer ++ [Const (literal n)]) sign_buffer.
Proof.
  intros Hn Hr. pose proof (real_literal _ _ Hn Hr) as Hreal.
  destruct n as [| c n]; [discriminate Hn |].
  change (String c n +:+ r) with (String c (n +:+ r)) in *.
  cbn [parse_loop]. rewrite Hreal, (stod_literal M _ Hn). reflexivity.
Qed.

(** The turn of the loop that reads an operator. *)
Lemma parse_loop_operator (M : platform) (fuel : nat) (op : ascii) (r : string)
    (buffer : list variant_t) (sign_buffer : list ascii) :
  detail.is_binary_f op = true ->
  parse_loop M (S fuel) (String op r) buffer sign_buffer =
    ('(buffer', sign_buffer') ← pop_not_weaker M op buffer sign_buffer;
     parse_loop M fuel r buffer' (op :: sign_buffer')).
Proof.
  intros Hop. cbn [parse_loop]. rewrite Hop.
  replace (regex.real (String op r)) with (@None (string * string)); [reflexivity |].
  each_char op; try discriminate Hop; reflexivity.
Qed.

Lemma symbol_token_operator (M : platform) (op : ascii) :
  detail.is_binary_f op = true ->
  symbol_token M op = Ret (Binary (operator_function M op)).
Proof. intros Hop. each_char op; try discriminate Hop; reflexivity. Qed.

Lemma all_digits_plain (n : string) :
  all_digits n = true -> no_parenthesis n = true.
Proof.
  induction n as [| c n IH]; [reflexivity |].
  cbn [all_digits no_parenthesis]. intros H. apply andb_prop in H as [Hc Hn].
  rewrite (digit_no_parenthesis _ Hc), (IH Hn). reflexivity.
Qed.

Lemma short_integer_digits (n : string) :
  short_integer n = true -> all_digits n = true.
Proof.
  unfold short_integer. destruct n; [discriminate |].
  intros H. apply andb_prop in H as [H _]. exact H.
Qed.

(** ** Parentheses and function names *)

(** The result of the loop does not depend on the fuel, once there is
    enough of it. *)
Lemma parse_loop_fuel (M : platform) (fuel : nat) :
  forall (fuel' : nat) (line : string) (buffer : list variant_t)
         (sign_buffer : list ascii),
    (String.length line < fuel)%nat -> (String.length line < fuel')%nat ->
    parse_loop M fuel line buffer sign_buffer =
      parse_loop M fuel' line buffer sign_buffer.
Proof.
  induction fuel as [| fuel IH]; intros fuel' line buffer sign_buffer Hfuel Hfuel';
    [lia |].
  destruct fuel' as [| fuel']; [lia |].
  cbn [parse_loop].
  destruct line as [| begin rest]; [reflexivity |].
  cbn [String.length] in Hfuel, Hfuel'.
  destruct (regex.real (String begin rest)) as [[real line'] |] eqn:Ereal.
  { apply real_shortens in Ereal. cbn [String.length] in Ereal.
    destruct (stod M real); cbn [mbind outcome_bind]; try reflexivity.
    apply IH; lia. }
  destruct (detail.is_binary_f begin).
  { destruct (pop_not_weaker M begin buffer sign_buffer) as [[b s] | | |];
      cbn [mbind outcome_bind]; try reflexivity.
    apply IH; lia. }
  destruct (Ascii.eqb begin "(").
  { pose proof (closing_index_bound rest 1 1) as Hindex.
    destruct (Nat.eqb_spec (closing_index rest 1 1) (String.length (String begin rest)))
      as [| Hne]; [reflexivity |].
    cbn [String.length] in Hne.
    assert (Hrest : forall inner,
      parse_loop M fuel (remove_prefix (closing_index rest 1 1 + 1) (String begin rest))
        (buffer ++ inner) sign_buffer =
      parse_loop M fuel' (remove_prefix (closing_index rest 1 1 + 1) (String begin rest))
        (buffer ++ inner) sign_buffer).
    { intros inner. apply IH; rewrite remove_prefix_length; cbn [String.length]; lia. }
    destruct (1 <? closing_index rest 1 1)%nat.
    - pose proof (substring_length 1 (closing_index rest 1 1 - 1) (String begin rest))
        as Hsub.
      rewrite (IH fuel' (String.substring 1 (closing_index rest 1 1 - 1)
                           (String begin rest))) by lia.
      destruct (parse_loop M fuel' _ _ []); cbn [mbind outcome_bind];
        try reflexivity.
      apply Hrest.
    - cbn [mbind outcome_bind]. apply Hrest. }
  destruct (Ascii.eqb begin ")"); [reflexivity |].
  destruct (isspace begin); [apply IH; lia |].
  destruct (regex.fun_ (String begin rest)) as [len |] eqn:Efun.
  { apply fun_length in Efun. apply IH; rewrite remove_prefix_length;
      cbn [String.length]; lia. }
  destruct (_ && _).
  { apply IH; rewrite remove_prefix_length; cbn [String.length]; lia. }
  destruct (Ascii.eqb begin "e"); [apply IH; lia |].
  destruct (1 <? _)%nat; [reflexivity |].
  destruct (match regex.valid (String begin rest) with
            | Some prefix => prefix
            | None => String begin rest
            end); [reflexivity |].
  apply IH; lia.
Qed.

(** The search for the closing parenthesis runs over a balanced stretch of
    the line without stopping. *)
Lemma closing_index_balanced (a : string) :
  forall (r : string) (depth depth' index : nat),
    balance a depth = Some depth' ->
    closing_index (a +:+ r) (Z.of_nat (S depth)) index =
      closing_index r (Z.of_nat (S depth')) (index + String.length a).
Proof.
  induction a as [| c a IH]; intros r depth depth' index.
  - cbn [balance]. intros H. injection H as <-.
    cbn [String.length]. rewrite Nat.add_0_r. reflexivity.
  - change (String c a +:+ r) with (String c (a +:+ r)).
    cbn [balance closing_index String.length].
    replace (index + S (String.length a))%nat with (S index + String.length a)%nat
      by lia.
    destruct (Ascii.eqb c "(").
    + intros H. destruct (Z.eqb_spec (Z.of_nat (S depth) + 1) 0) as [| _]; [lia |].
      replace (Z.of_nat (S depth) + 1) with (Z.of_nat (S (S depth))) by lia.
      apply IH, H.
    + destruct (Ascii.eqb c ")").
      * destruct depth as [| depth]; [discriminate |]. intros H.
        destruct (Z.eqb_spec (Z.of_nat (S (S depth)) - 1) 0) as [| _]; [lia |].
        replace (Z.of_nat (S (S depth)) - 1) with (Z.of_nat (S depth)) by lia.
        apply IH, H.
      * intros H. destruct (Z.eqb_spec (Z.of_nat (S depth)) 0) as [| _]; [lia |].
        apply IH, H.
Qed.

(** The turn of the loop at an opening parenthesis whose inside is
    balanced: the inside is parsed on its own, and its tokens go behind
    [buffer]. *)
Lemma parse_loop_group (M : platform) (fuel : nat) (arg rest : string)
    (buffer : list variant_t) (sign_buffer : list ascii) :
  balance arg 0 = Some 0%nat -> arg <> EmptyString ->
  parse_loop M (S fuel) (String "(" (arg +:+ String ")" rest)) buffer sign_buffer =
    (inner ← parse_loop M fuel arg (leading_zero arg) [];
     parse_loop M fuel rest (buffer ++ inner) sign_buffer).
Proof.
  intros Hb Harg.
  assert (Hindex : closing_index (arg +:+ String ")" rest) 1 1 =
                     S (String.length arg)).
  { etransitivity; [exact (closing_index_balanced arg (String ")" rest) 0 0 1 Hb) |].
    reflexivity. }
  change (parse_loop M (S fuel) (String "(" (arg +:+ String ")" rest)) buffer sign_buffer)
    with (let index := closing_index (arg +:+ String ")" rest) 1 1 in
          if (index =? String.length (String "(" (arg +:+ String ")" rest)))%nat
          then Throw (logic_error "Unterminated parenthesis")
          else
            inner ← (if (1 <? index)%nat
                     then let sub := String.substring 1 (index - 1)
                                       (String "(" (arg +:+ String ")" rest)) in
                          parse_loop M fuel sub (leading_zero sub) []
                     else Ret []);
            parse_loop M fuel
              (remove_prefix (index + 1) (String "(" (arg +:+ String ")" rest)))
              (buffer ++ inner) sign_buffer).
  cbv zeta. rewrite Hindex.
  cbn [String.length]. rewrite append_length. cbn [String.length].
  destruct (Nat.eqb_spec (S (String.length arg))
              (S (String.length arg + S (String.length rest)))) as [| _]; [lia |].
  destruct (Nat.ltb_spec 1 (S (String.length arg))) as [_ | Hshort].
  2:{ destruct arg; [contradiction | cbn [String.length] in Hshort; lia]. }
  replace (S (String.length arg) - 1)%nat with (String.length arg) by lia.
  change (String.substring 1 (String.length arg) (String "(" (arg +:+ String ")" rest)))
    with (String.substring 0 (String.length arg) (arg +:+ String ")" rest)).
  rewrite substring_append.
  replace (S (String.length arg) + 1)%nat with (S (S (String.length arg))) by lia.
  change (remove_prefix (S (S (String.length arg))) (String "(" (arg +:+ String ")" rest)))
    with (remove_prefix (S (String.length arg)) (arg +:+ String ")" rest)).
  rewrite remove_prefix_append_char. reflexivity.
Qed.

(** The turn of the loop at a function name in front of a parenthesis. *)
Lemma parse_loop_name (M : platform) (name : string) :
  In name regex.fun_names ->
  forall (fuel : nat) (r : string) (buffer : list variant_t)
         (sign_buffer : list ascii),
    parse_loop M (S fuel) (name +:+ String "(" r) buffer sign_buffer =
      parse_loop M fuel (String "(" r) buffer (pushed_symbol name :: sign_buffer).
Proof.
  intros Hin fuel r buffer sign_buffer. simpl in Hin.
  repeat (destruct Hin as [<- | Hin]; [reflexivity |]).
  contradiction.
Qed.

Lemma named_function_token (M : platform) (name : string) :
  In name regex.fun_names ->
  exists f, named_function M name = Ret f /\
            symbol_token M (pushed_symbol name) = Ret (Unary f).
Proof.
  intros Hin. simpl in Hin.
  repeat (destruct Hin as [<- | Hin]; [eexists; split; reflexivity |]).
  contradiction.
Qed.

Lemma name_properties (name : string) :
  In name regex.fun_names ->
  (forall r, with_implicit_multiplication (name +:+ String "(" r) =
             name +:+ String "(" (implicit_multiplication "(" r)) /\
  (forall r, leading_zero (name +:+ r) = []) /\
  (1 < String.length name)%nat /\
  (forall r, exists c r', name +:+ r = String c r').
Proof.
  intros Hin. simpl in Hin.
  repeat (destruct Hin as [<- | Hin];
          [repeat split; try (cbn; lia); intros r; eexists _, _; reflexivity |]).
  contradiction.
Qed.

Lemma implicit_multiplication_close (a : string) :
  forall previous : ascii,
    implicit_multiplication previous (a +:+ String ")" EmptyString) =
      implicit_multiplication previous a +:+ String ")" EmptyString.
Proof.
  induction a as [| c a IH]; intros previous; [reflexivity |].
  change (String c a +:+ ?r) with (String c (a +:+ r)).
  cbn [implicit_multiplication]. destruct (_ && _); rewrite IH; reflexivity.
Qed.

Lemma implicit_multiplication_inside (arg : string) :
  implicit_multiplication "(" arg = with_implicit_multiplication arg.
Proof. destruct arg as [| c r]; [reflexivity |]. cbn. rewrite andb_false_r. reflexivity. Qed.

Lemma balance_with_implicit_multiplication (s : string) (depth : nat) :
  balance (with_implicit_multiplication s) depth = balance s depth.
Proof.
  destruct s as [| c r]; [reflexivity |].
  cbn [with_implicit_multiplication balance].
  destruct (Ascii.eqb c "("); [apply balance_implicit_multiplication |].
  destruct (Ascii.eqb c ")"); [| apply balance_implicit_multiplication].
  destruct depth; [reflexivity | apply balance_implicit_multiplication].
Qed.

(** The loop on a group that ends the line: the tokens of the inside, and
    then the symbols that were waiting. *)
Lemma parse_loop_last_group (M : platform) (fuel : nat) (arg : string)
    (sign_buffer : list ascii) :
  balance arg 0 = Some 0%nat -> arg <> EmptyString ->
  (S (String.length arg) < fuel)%nat ->
  parse_loop M (S fuel) (String "(" (arg +:+ String ")" EmptyString)) [] sign_buffer =
    (inner ← parse_impl M arg; drain M inner sign_buffer).
Proof.
  intros Hb Harg Hfuel. rewrite (parse_loop_group M _ _ _ _ _ Hb Harg).
  unfold parse_impl.
  rewrite (parse_loop_fuel M fuel (S (String.length arg))) by lia.
  destruct (parse_loop M (S (String.length arg)) arg (leading_zero arg) []);
    cbn [mbind outcome_bind app]; try reflexivity.
  destruct fuel; [lia | reflexivity].
Qed.

(** X19: parentheses group, and a function name applies to the group
    behind it.  For a string [arg] that is not empty and has balanced
    parentheses, "(arg)" is parsed into the tokens of [arg], and a function
    name directly in front, as in "sin(arg)", into the tokens of [arg]
    followed by the function of that name; [parse] fails on them as it
    fails on [arg].  The thirteen names are read as asin, sin, acos, cos,
    atan (also atg), tan (also tg), ln, exp, abs, sqrt and cbrt. *)
Theorem group_and_function (M : platform) (arg : string) :
  arg <> EmptyString -> balanced arg = true ->
  parse M (String "(" (arg +:+ ")")) = parse M arg /\
  (forall name : string, In name regex.fun_names ->
     exists f : float -> float,
       named_function M name = Ret f /\
       parse M (name +:+ String "(" (arg +:+ ")")) =
         (inner ← parse M arg; Ret (inner ++ [Unary f]))) /\
  map (named_function M) regex.fun_names =
    map Ret
      [detail.function.asin M; detail.function.sin M; detail.function.acos M;
       detail.function.cos M; detail.function.atan M; detail.function.atan M;
       detail.function.tan M; detail.function.tan M; detail.function.ln M;
       detail.function.exp M; detail.function.abs; detail.function.sqrt;
       detail.function.cbrt M].
Proof.
  intros Harg Hbalanced.
  assert (Hb : balance (preparse arg) 0 = Some 0%nat).
  { rewrite preparse_spec, balance_with_implicit_multiplication.
    unfold balanced in Hbalanced.
    destruct (balance arg 0) as [[| depth] |]; try discriminate Hbalanced.
    reflexivity. }
  assert (Hne : preparse arg <> EmptyString).
  { rewrite preparse_spec. destruct arg; [contradiction | discriminate]. }
  assert (Hparse : parse M arg = parse_impl M (preparse arg)).
  { unfold parse. destruct arg; [contradiction | reflexivity]. }
  assert (Hinside : implicit_multiplication "(" (arg +:+ ")") = preparse arg +:+ ")").
  { rewrite implicit_multiplication_close, implicit_multiplication_inside,
      preparse_spec. reflexivity. }
  split; [| split; [| reflexivity]].
  - rewrite Hparse. unfold parse. rewrite preparse_spec.
    cbn [with_implicit_multiplication]. rewrite Hinside.
    unfold parse_impl at 1.
    change (leading_zero (String "(" (preparse arg +:+ ")"))) with (@nil variant_t).
    cbn [String.length]. rewrite append_length. cbn [String.length].
    rewrite (parse_loop_last_group M _ _ _ Hb Hne) by lia.
    pose proof (parse_loop_nonempty M (S (String.length (preparse arg)))
                  (preparse arg) (leading_zero (preparse arg)) []) as Hnonempty.
    fold (parse_impl M (preparse arg)) in Hnonempty.
    destruct (parse_impl M (preparse arg)) as [inner | | |];
      cbn [mbind outcome_bind drain]; try reflexivity.
    destruct inner; [exfalso; apply (Hnonempty [] eq_refl); reflexivity | reflexivity].
  - intros name Hin.
    destruct (named_function_token M name Hin) as (f & Hf & Htoken).
    destruct (name_properties name Hin) as (Him & Hzero & Hlen & Hcons).
    exists f. split; [exact Hf |].
    assert (Hname : parse M (name +:+ String "(" (arg +:+ ")")) =
                      parse_impl M (preparse (name +:+ String "(" (arg +:+ ")")))).
    { destruct (Hcons (String "(" (arg +:+ ")"))) as (c & r' & ->). reflexivity. }
    rewrite Hparse, Hname, preparse_spec, Him, Hinside.
    unfold parse_impl at 1. rewrite Hzero.
    rewrite (parse_loop_name M name Hin).
    rewrite append_length. cbn [String.length]. rewrite append_length.
    cbn [String.length].
    replace (String.length name + S (String.length (preparse arg) + 1))%nat
      with (S (String.length name + String.length (preparse arg) + 1))%nat by lia.
    rewrite (parse_loop_last_group M _ _ _ Hb Hne) by lia.
    destruct (parse_impl M (preparse arg)) as [inner | | |];
      cbn [mbind outcome_bind drain]; try reflexivity.
    rewrite Htoken. cbn [mbind outcome_bind drain].
    destruct inner; reflexivity.
Qed.

(** The theorem on "x+1": "(x+1)" and "sqrt(x+1)". *)
Lemma group_and_function_witness :
  parse example_platform "(x+1)" = parse example_platform "x+1" /\
  (forall name : string, In name regex.fun_names ->
     exists f : float -> float,
       named_function example_platform name = Ret f /\
       parse example_platform (name +:+ "(x+1)") =
         (inner ← parse example_platform "x+1"; Ret (inner ++ [Unary f]))) /\
  map (named_function example_platform) regex.fun_names =
    map Ret
      [detail.function.asin example_platform; detail.function.sin example_platform;
       detail.function.acos example_platform; detail.function.cos example_platform;
       detail.function.atan example_platform; detail.function.atan example_platform;
       detail.function.tan example_platform; detail.function.tan example_platform;
       detail.function.ln example_platform; detail.function.exp example_platform;
       detail.function.abs; detail.function.sqrt;
       detail.function.cbrt example_platform].
Proof.
  apply (group_and_function example_platform "x+1"); [discriminate | reflexivity].
Defined.

(** ** Formulas: precedence, parentheses and function calls *)

Lemma symbol_variant_known (M : platform) (symbol : ascii) :
  known_symbol symbol = true ->
  symbol_token M symbol = Ret (symbol_variant M symbol).
Proof.
  intros H. unfold symbol_variant.
  destruct (symbol_token_known M symbol H) as (tok & -> & _). reflexivity.
Qed.

Lemma operator_known (op : ascii) :
  detail.is_binary_f op = true -> known_symbol op = true.
Proof. intros H. unfold known_symbol. rewrite H. reflexivity. Qed.

Lemma well_formed_name (name : string) :
  existsb (String.eqb name) regex.fun_names = true -> In name regex.fun_names.
Proof.
  intros H. apply existsb_exists in H as (x & Hin & Hx).
  apply String.eqb_eq in Hx. subst x. exact Hin.
Qed.

Lemma well_formed_constant (name : string) :
  existsb (String.eqb name) constant_names = true -> In name constant_names.
Proof.
  intros H. apply existsb_exists in H as (x & Hin & Hx).
  apply String.eqb_eq in Hx. subst x. exact Hin.
Qed.

Lemma name_known (name : string) :
  In name regex.fun_names -> known_symbol (pushed_symbol name) = true.
Proof.
  intros Hin. simpl in Hin.
  repeat (destruct Hin as [<- | Hin]; [reflexivity |]).
  contradiction.
Qed.

(** The inner loop of the operator case moves to [buffer] the symbols that
    are not weaker than the operator read, and stops at a weaker one. *)
Lemma pop_not_weaker_pending (M : platform) (op : ascii) (waiting : list ascii) :
  forall (buffer : list variant_t) (sign_buffer : list ascii),
    Forall (fun back => known_symbol back = true /\
                        detail.sign_priority op <= detail.sign_priority back)
           waiting ->
    weaker_top sign_buffer (detail.sign_priority op) = true ->
    pop_not_weaker M op buffer (waiting ++ sign_buffer) =
      Ret (buffer ++ map (symbol_variant M) waiting, sign_buffer).
Proof.
  induction waiting as [| back waiting IH]; intros buffer sign_buffer Hw Hs.
  - cbn [app map]. rewrite app_nil_r.
    destruct sign_buffer as [| back below]; [reflexivity |].
    cbn [pop_not_weaker weaker_top] in *. unfold detail.stronger_sign.
    rewrite Hs. reflexivity.
  - apply Forall_cons in Hw as [[Hb Hp] Hw].
    cbn [app pop_not_weaker]. unfold detail.stronger_sign.
    destruct (Z.ltb_spec (detail.sign_priority back) (detail.sign_priority op));
      [lia |].
    cbn [negb]. rewrite (symbol_variant_known M _ Hb). cbn [mbind outcome_bind].
    rewrite (IH _ _ Hw Hs). cbn [map]. rewrite <- app_assoc. reflexivity.
Qed.

(** The symbols a formula leaves on [sign_buffer] are not weaker than any
    operator that may stand over it. *)
Lemma pending_binds (t : formula) :
  well_formed t = true ->
  forall (strict : bool) (p : Z),
    binds strict p t = true ->
    Forall (fun back => known_symbol back = true /\
                        p <= detail.sign_priority back)
           (pending t).
Proof.
  induction t as [n | c | k | op l IHl r IHr | t IH | name t IH];
    intros Hwf strict p Hp; try constructor.
  - cbn [well_formed pending binds] in *.
    apply andb_prop in Hwf as [Hwf Hr]. apply andb_prop in Hwf as [Hwf Hl].
    apply andb_prop in Hwf as [Hwf Wr]. apply andb_prop in Hwf as [Hop Wl].
    assert (Hle : p <= detail.sign_priority op).
    { destruct strict; [apply Z.ltb_lt in Hp | apply Z.leb_le in Hp]; lia. }
    apply Forall_app. split.
    + eapply Forall_impl; [exact (IHr Wr true _ Hr) |].
      cbn beta. intros back [Hb Hq]. split; [exact Hb | lia].
    + constructor; [split; [exact (operator_known _ Hop) | exact Hle] | constructor].
  - cbn [well_formed binds] in *. apply andb_prop in Hwf as [Hname _].
    split; [exact (name_known _ (well_formed_name _ Hname)) |].
    apply Z.leb_le in Hp. exact Hp.
  - constructor.
Qed.

Lemma pending_known (t : formula) :
  well_formed t = true ->
  Forall (fun back => known_symbol back = true) (pending t).
Proof.
  induction t as [n | c | k | op l IHl r IHr | t IH | name t IH];
    intros Hwf; try constructor.
  - cbn [well_formed pending] in *.
    apply andb_prop in Hwf as [Hwf _]. apply andb_prop in Hwf as [Hwf _].
    apply andb_prop in Hwf as [Hwf Wr]. apply andb_prop in Hwf as [Hop _].
    apply Forall_app. split; [exact (IHr Wr) |].
    constructor; [exact (operator_known _ Hop) | constructor].
  - cbn [well_formed] in Hwf. apply andb_prop in Hwf as [Hname _].
    exact (name_known _ (well_formed_name _ Hname)).
  - constructor.
Qed.

Lemma buffered_tokens (M : platform) (t : formula) :
  well_formed t = true ->
  buffered M t ++ map (symbol_variant M) (pending t) = formula_tokens M t.
Proof.
  induction t as [n | c | k | op l IHl r IHr | t IH | name t IH];
    intros Hwf; try reflexivity; try apply app_nil_r.
  - cbn [well_formed buffered pending formula_tokens] in *.
    apply andb_prop in Hwf as [Hwf _]. apply andb_prop in Hwf as [Hwf _].
    apply andb_prop in Hwf as [Hwf Wr]. apply andb_prop in Hwf as [Hop _].
    rewrite map_app, <- app_assoc, (app_assoc (buffered M r)), (IHr Wr).
    cbn [map]. unfold symbol_variant at 1.
    rewrite (symbol_token_operator M _ Hop). reflexivity.
  - cbn [well_formed buffered pending formula_tokens map] in *.
    apply andb_prop in Hwf as [Hname _]. apply well_formed_name in Hname.
    destruct (named_function_token M name Hname) as (f & Hf & Htoken).
    unfold symbol_variant, function_named. rewrite Htoken, Hf. reflexivity.
Qed.

Lemma formula_tokens_nonempty (M : platform) (t : formula) :
  formula_tokens M t <> [].
Proof.
  induction t as [n | c | k | op l IHl r IHr | t IH | name t IH];
    cbn [formula_tokens]; try discriminate; try exact IH.
  - intros H. apply app_eq_nil in H as [H _]. exact (IHl H).
  - intros H. apply app_eq_nil in H as [H _]. exact (IH H).
Qed.

Lemma buffered_nonempty (M : platform) (t : formula) : buffered M t <> [].
Proof.
  induction t as [n | c | k | op l IHl r IHr | t IH | name t IH];
    cbn [buffered]; try apply formula_tokens_nonempty.
  intros H. apply app_eq_nil in H as [_ H]. exact (IHr H).
Qed.

Lemma drain_symbols (M : platform) (waiting : list ascii) :
  forall buffer : list variant_t,
    buffer <> [] ->
    Forall (fun back => known_symbol back = true) waiting ->
    drain M buffer waiting = Ret (buffer ++ map (symbol_variant M) waiting).
Proof.
  induction waiting as [| back waiting IH]; intros buffer Hne Hw.
  - cbn [drain map]. rewrite app_nil_r. destruct buffer; [contradiction | reflexivity].
  - apply Forall_cons in Hw as [Hb Hw].
    cbn [drain map]. rewrite (symbol_variant_known M _ Hb). cbn [mbind outcome_bind].
    rewrite IH; [rewrite <- app_assoc; reflexivity | | exact Hw].
    destruct buffer; discriminate.
Qed.

(** The turn of the loop that reads a parameter in front of an operator or
    of the end of the line. *)
Lemma parse_loop_letter (M : platform) (fuel : nat) (c : ascii) (rest : string)
    (buffer : list variant_t) (sign_buffer : list ascii) :
  parameter_letter c = true -> ends_literal rest = true ->
  parse_loop M (S fuel) (String c rest) buffer sign_buffer =
    parse_loop M fuel rest (buffer ++ [Param c]) sign_buffer.
Proof.
  intros Hc Hrest.
  destruct (parameter_letter_branches c rest Hc)
    as (Hd & Hb & Ho & Hcl & Hs & Hf & Hp & He).
  cbn [parse_loop].
  replace (regex.real (String c rest)) with (@None (string * string))
    by (unfold regex.real; cbn [regex.digits]; rewrite Hd; reflexivity).
  rewrite Hb, Ho, Hcl, Hs, Hf, Hp, He. cbn [andb regex.valid].
  rewrite Hd. change (regex.oper c) with (detail.is_binary_f c). rewrite Hb.
  cbn [orb]. destruct rest as [| op rest]; [reflexivity |].
  cbn [ends_literal] in Hrest. cbn [regex.valid].
  change (regex.oper op) with (detail.is_binary_f op). rewrite Hrest, orb_true_r.
  reflexivity.
Qed.

(** The turn of the loop that reads [pi] or [e] in front of an operator or
    of the end of the line. *)
Lemma parse_loop_constant (M : platform) (fuel : nat) (name rest : string)
    (buffer : list variant_t) (sign_buffer : list ascii) :
  In name constant_names -> ends_literal rest = true ->
  parse_loop M (S fuel) (name +:+ rest) buffer sign_buffer =
    parse_loop M fuel rest (buffer ++ [Const (constant_value M name)]) sign_buffer.
Proof.
  intros Hin Hrest. simpl in Hin.
  do 4 (destruct Hin as [<- | Hin]; [cbn [String.append]; reflexivity |]).
  destruct Hin as [<- | Hin]; [| contradiction].
  cbn [String.append].
  destruct rest as [| op rest]; [reflexivity |].
  cbn [ends_literal] in Hrest.
  each_char op; try discriminate Hrest; reflexivity.
Qed.

Lemma constant_properties (name : string) :
  In name constant_names ->
  no_parenthesis name = true /\
  exists c r, name = String c r /\ detail.is_binary_f c = false.
Proof.
  intros Hin. simpl in Hin.
  repeat (destruct Hin as [<- | Hin];
          [split; [reflexivity | eexists _, _; split; reflexivity] |]).
  contradiction.
Qed.

(** The text of a formula begins with no operator, and its parentheses are
    balanced. *)
Lemma formula_text_shape (t : formula) :
  well_formed t = true ->
  (exists c r, formula_text t = String c r /\ detail.is_binary_f c = false) /\
  (forall (rest : string) (depth : nat),
     balance (formula_text t +:+ rest) depth = balance rest depth).
Proof.
  induction t as [n | c | k | op l IHl r IHr | t IH | name t IH];
    cbn [well_formed formula_text]; intros Hwf.
  - pose proof (short_integer_digits _ Hwf) as Hd. split.
    + destruct n as [| c n]; [discriminate Hwf |].
      cbn [all_digits] in Hd. apply andb_prop in Hd as [Hc _].
      exists c, n. split; [reflexivity |].
      each_char c; try discriminate Hc; reflexivity.
    + intros rest depth. apply balance_plain, all_digits_plain, Hd.
  - destruct (parameter_letter_branches c EmptyString Hwf)
      as (_ & Hb & Ho & Hcl & _). split; [eauto |].
    intros rest depth. apply balance_char. unfold is_parenthesis.
    rewrite Ho, Hcl. reflexivity.
  - destruct (constant_properties k (well_formed_constant _ Hwf))
      as (Hplain & Hfirst).
    split; [exact Hfirst |].
    intros rest depth. apply balance_plain, Hplain.
  - apply andb_prop in Hwf as [Hwf _]. apply andb_prop in Hwf as [Hwf _].
    apply andb_prop in Hwf as [Hwf Wr]. apply andb_prop in Hwf as [Hop Wl].
    destruct (IHl Wl) as ((c & rl & El & Hc) & Bl). destruct (IHr Wr) as (_ & Br).
    split.
    + rewrite El. exists c, (rl +:+ String op (formula_text r)). auto.
    + intros rest depth. rewrite append_assoc, Bl.
      change (String op (formula_text r) +:+ rest)
        with (String op (formula_text r +:+ rest)).
      rewrite balance_char; [apply Br |].
      each_char op; try discriminate Hop; reflexivity.
  - destruct (IH Hwf) as (_ & B). split; [eexists _, _; split; reflexivity |].
    intros rest depth.
    change (String "(" (formula_text t +:+ ")") +:+ rest)
      with (String "("%char ((formula_text t +:+ ")") +:+ rest)).
    rewrite append_assoc. cbn [balance Ascii.eqb Bool.eqb]. rewrite B. reflexivity.
  - apply andb_prop in Hwf as [Hname Hwf]. apply well_formed_name in Hname.
    destruct (IH Hwf) as (_ & B). split.
    + simpl in Hname.
      repeat (destruct Hname as [<- | Hname];
              [eexists _, _; split; reflexivity |]).
      contradiction.
    + intros rest depth. rewrite append_assoc.
      assert (Hplain : no_parenthesis name = true).
      { simpl in Hname.
        repeat (destruct Hname as [<- | Hname]; [reflexivity |]). contradiction. }
      rewrite (balance_plain _ _ Hplain).
      change (String "(" (formula_text t +:+ ")") +:+ rest)
        with (String "("%char ((formula_text t +:+ ")") +:+ rest)).
      rewrite append_assoc. cbn [balance Ascii.eqb Bool.eqb]. rewrite B. reflexivity.
Qed.

Lemma formula_text_nonempty (t : formula) :
  well_formed t = true -> formula_text t <> EmptyString.
Proof.
  intros Hwf. destruct (formula_text_shape t Hwf) as ((c & r & -> & _) & _).
  discriminate.
Qed.

Lemma formula_leading_zero (t : formula) (rest : string) :
  well_formed t = true -> leading_zero (formula_text t +:+ rest) = [].
Proof.
  intros Hwf. destruct (formula_text_shape t Hwf) as ((c & r & -> & Hc) & _).
  change (String c r +:+ rest) with (String c (r +:+ rest)).
  unfold leading_zero. rewrite Hc. reflexivity.
Qed.

(** The turn of the loop at a group whose inside is a formula that is
    parsed into its tokens. *)
Lemma parse_loop_formula_group (M : platform) (t : formula) (rest : string)
    (buffer : list variant_t) (sign_buffer : list ascii) (fuel : nat) :
  well_formed t = true ->
  (forall fuel', (String.length (formula_text t) < fuel')%nat ->
     parse_loop M fuel' (formula_text t) [] [] = Ret (formula_tokens M t)) ->
  (S (String.length (formula_text t)) + String.length rest < fuel)%nat ->
  parse_loop M (S fuel) (String "(" (formula_text t +:+ String ")" rest))
             buffer sign_buffer =
    parse_loop M (S (String.length rest)) rest
               (buffer ++ formula_tokens M t) sign_buffer.
Proof.
  intros Hwf Hinner Hfuel.
  destruct (formula_text_shape t Hwf) as (_ & Hbalance).
  specialize (Hbalance EmptyString 0%nat). rewrite append_empty in Hbalance.
  rewrite (parse_loop_group M _ _ _ _ _ Hbalance (formula_text_nonempty t Hwf)).
  pose proof (formula_leading_zero t EmptyString Hwf) as Hzero.
  rewrite append_empty in Hzero. rewrite Hzero, Hinner by lia.
  cbn [mbind outcome_bind]. apply parse_loop_fuel; lia.
Qed.

(** The loop over the text of a formula: its tokens go to [buffer] but for
    those of the symbols still waiting on [sign_buffer]. *)
Lemma parse_loop_formula (M : platform) (t : formula) :
  well_formed t = true ->
  forall (rest : string) (buffer : list variant_t) (sign_buffer : list ascii)
         (fuel : nat),
    ends_literal rest = true ->
    (forall op l r, t = Operation op l r ->
       weaker_top sign_buffer (detail.sign_priority op) = true) ->
    (String.length (formula_text t +:+ rest) < fuel)%nat ->
    parse_loop M fuel (formula_text t +:+ rest) buffer sign_buffer =
      parse_loop M (S (String.length rest)) rest
        (buffer ++ buffered M t) (pending t ++ sign_buffer).
Proof.
  induction t as [n | c | k | op l IHl r IHr | t IH | name t IH];
    intros Hwf rest buffer sign_buffer fuel Hrest Hweak Hfuel.
  - (* a literal *)
    cbn [well_formed formula_text buffered formula_tokens pending app] in *.
    destruct fuel as [| fuel]; [lia |].
    rewrite (parse_loop_literal M _ _ _ _ _ Hwf Hrest).
    apply parse_loop_fuel; [| lia].
    rewrite append_length in Hfuel.
    destruct n; [discriminate Hwf | cbn [String.length] in Hfuel; lia].
  - (* a parameter *)
    cbn [well_formed formula_text buffered formula_tokens pending app] in *.
    change (String c EmptyString +:+ rest) with (String c rest) in *.
    cbn [String.length] in Hfuel.
    destruct fuel as [| fuel]; [lia |].
    rewrite (parse_loop_letter M _ _ _ _ _ Hwf Hrest).
    apply parse_loop_fuel; lia.
  - (* a constant *)
    cbn [well_formed formula_text buffered formula_tokens pending app] in *.
    apply well_formed_constant in Hwf.
    destruct (constant_properties k Hwf) as (_ & c & r & Ek & _).
    destruct fuel as [| fuel]; [lia |].
    rewrite (parse_loop_constant M _ _ _ _ _ Hwf Hrest).
    apply parse_loop_fuel; [| lia].
    rewrite append_length, Ek in Hfuel. cbn [String.length] in Hfuel. lia.
  - (* an operator *)
    cbn [well_formed formula_text buffered pending] in *.
    apply andb_prop in Hwf as [Hwf Hr]. apply andb_prop in Hwf as [Hwf Hl].
    apply andb_prop in Hwf as [Hwf Wr]. apply andb_prop in Hwf as [Hop Wl].
    specialize (Hweak op l r eq_refl).
    rewrite append_assoc in *.
    change (String op (formula_text r) +:+ rest)
      with (String op (formula_text r +:+ rest)) in *.
    rewrite (IHl Wl (String op (formula_text r +:+ rest)) buffer sign_buffer fuel);
      [| exact Hop | | exact Hfuel].
    2:{ intros op' l' r' ->. cbn [binds] in Hl. apply Z.leb_le in Hl.
        destruct sign_buffer as [| back below]; [reflexivity |].
        cbn [weaker_top] in *. apply Z.ltb_lt in Hweak. apply Z.ltb_lt. lia. }
    cbn [String.length].
    rewrite (parse_loop_operator M _ _ _ _ _ Hop).
    rewrite (pop_not_weaker_pending M op (pending l) _ sign_buffer
               (pending_binds l Wl false _ Hl) Hweak).
    cbn [mbind outcome_bind].
    rewrite <- app_assoc, (buffered_tokens M l Wl).
    rewrite (IHr Wr rest _ (op :: sign_buffer) _ Hrest); [| | lia].
    + rewrite <- !app_assoc. reflexivity.
    + intros op' l' r' ->. cbn [binds weaker_top] in *. exact Hr.
  - (* a group *)
    cbn [well_formed formula_text buffered formula_tokens pending app] in *.
    change (String "(" (formula_text t +:+ ")") +:+ rest)
      with (String "("%char ((formula_text t +:+ ")") +:+ rest)) in *.
    rewrite append_assoc in *.
    change (String ")" EmptyString +:+ rest) with (String ")" rest) in *.
    cbn [String.length] in Hfuel. rewrite append_length in Hfuel.
    cbn [String.length] in Hfuel.
    destruct fuel as [| fuel]; [lia |].
    apply parse_loop_formula_group; [exact Hwf | | lia].
    intros fuel' Hfuel'.
    pose proof (IH Hwf EmptyString [] [] fuel' eq_refl) as Hinner.
    rewrite append_empty in Hinner. rewrite Hinner; [| intros; reflexivity | lia].
    cbn [String.length parse_loop app]. rewrite app_nil_r.
    rewrite (drain_symbols M _ _ (buffered_nonempty M t) (pending_known t Hwf)).
    rewrite (buffered_tokens M t Hwf). reflexivity.
  - (* a function call *)
    cbn [well_formed formula_text buffered formula_tokens pending app] in *.
    apply andb_prop in Hwf as [Hname Hwf]. apply well_formed_name in Hname.
    rewrite append_assoc in *.
    change (String "(" (formula_text t +:+ ")") +:+ rest)
      with (String "("%char ((formula_text t +:+ ")") +:+ rest)) in *.
    rewrite append_assoc in *.
    change (String ")" EmptyString +:+ rest) with (String ")" rest) in *.
    rewrite append_length in Hfuel. cbn [String.length] in Hfuel.
    rewrite append_length in Hfuel. cbn [String.length] in Hfuel.
    destruct (name_properties name Hname) as (_ & _ & Hlen & _).
    destruct fuel as [| fuel]; [lia |].
    rewrite (parse_loop_name M name Hname).
    destruct fuel as [| fuel]; [lia |].
    apply parse_loop_formula_group; [exact Hwf | | lia].
    intros fuel' Hfuel'.
    pose proof (IH Hwf EmptyString [] [] fuel' eq_refl) as Hinner.
    rewrite append_empty in Hinner. rewrite Hinner; [| intros; reflexivity | lia].
    cbn [String.length parse_loop app]. rewrite app_nil_r.
    rewrite (drain_symbols M _ _ (buffered_nonempty M t) (pending_known t Hwf)).
    rewrite (buffered_tokens M t Hwf). reflexivity.
Qed.

(** [preparse] finds nothing to do in the text of a formula. *)
Lemma implicit_multiplication_rest (a : string) :
  no_parenthesis a = true ->
  forall (rest : string) (previous : ascii),
    (forall x, implicit_multiplication x rest = rest) ->
    implicit_multiplication previous (a +:+ rest) = a +:+ rest.
Proof.
  induction a as [| c a IH]; intros Hplain rest previous Hrest; [apply Hrest |].
  change (String c a +:+ rest) with (String c (a +:+ rest)).
  cbn [no_parenthesis implicit_multiplication] in *. unfold is_parenthesis in Hplain.
  destruct (Ascii.eqb c "("); [discriminate Hplain |]. cbn [andb].
  apply andb_prop in Hplain as [_ Hplain]. rewrite (IH Hplain _ _ Hrest).
  reflexivity.
Qed.

Lemma implicit_multiplication_name (name : string) :
  In name regex.fun_names ->
  forall (previous : ascii) (r : string),
    implicit_multiplication previous (name +:+ String "(" r) =
      name +:+ String "(" (implicit_multiplication "(" r).
Proof.
  intros Hin previous r. simpl in Hin.
  repeat (destruct Hin as [<- | Hin]; [reflexivity |]).
  contradiction.
Qed.

Lemma implicit_multiplication_formula (t : formula) :
  well_formed t = true ->
  forall (rest : string) (previous : ascii),
    Ascii.eqb previous ")" || isdigit previous = false ->
    (forall x, implicit_multiplication x rest = rest) ->
    implicit_multiplication previous (formula_text t +:+ rest) =
      formula_text t +:+ rest.
Proof.
  induction t as [n | c | k | op l IHl r IHr | t IH | name t IH];
    cbn [well_formed formula_text]; intros Hwf rest previous Hprevious Hrest.
  - apply implicit_multiplication_rest; [| exact Hrest].
    apply all_digits_plain, short_integer_digits, Hwf.
  - destruct (parameter_letter_branches c EmptyString Hwf) as (_ & _ & Ho & _).
    change (String c EmptyString +:+ rest) with (String c rest).
    cbn [implicit_multiplication]. rewrite Ho, Hrest. reflexivity.
  - apply implicit_multiplication_rest; [| exact Hrest].
    apply (constant_properties k (well_formed_constant _ Hwf)).
  - apply andb_prop in Hwf as [Hwf _]. apply andb_prop in Hwf as [Hwf _].
    apply andb_prop in Hwf as [Hwf Wr]. apply andb_prop in Hwf as [Hop Wl].
    rewrite append_assoc.
    change (String op (formula_text r) +:+ rest)
      with (String op (formula_text r +:+ rest)).
    apply (IHl Wl); [exact Hprevious |].
    intros x. cbn [implicit_multiplication].
    replace (Ascii.eqb op "(") with false
      by (each_char op; try discriminate Hop; reflexivity).
    cbn [andb]. rewrite (IHr Wr); [reflexivity | | exact Hrest].
    each_char op; try discriminate Hop; reflexivity.
  - change (String "(" (formula_text t +:+ ")") +:+ rest)
      with (String "("%char ((formula_text t +:+ ")") +:+ rest)).
    rewrite append_assoc.
    change (String ")" EmptyString +:+ rest) with (String ")" rest).
    cbn [implicit_multiplication]. rewrite Hprevious, andb_false_r.
    rewrite (IH Hwf); [reflexivity | reflexivity |].
    intros x. cbn [implicit_multiplication Ascii.eqb Bool.eqb andb].
    rewrite Hrest. reflexivity.
  - apply andb_prop in Hwf as [Hname Hwf]. apply well_formed_name in Hname.
    rewrite append_assoc.
    change (String "(" (formula_text t +:+ ")") +:+ rest)
      with (String "("%char ((formula_text t +:+ ")") +:+ rest)).
    rewrite append_assoc.
    change (String ")" EmptyString +:+ rest) with (String ")" rest).
    rewrite (implicit_multiplication_name name Hname).
    rewrite (IH Hwf); [reflexivity | reflexivity |].
    intros x. cbn [implicit_multiplication Ascii.eqb Bool.eqb andb].
    rewrite Hrest. reflexivity.
Qed.

Lemma preparse_formula (t : formula) :
  well_formed t = true -> preparse (formula_text t) = formula_text t.
Proof.
  intros Hwf. rewrite preparse_spec.
  replace (with_implicit_multiplication (formula_text t))
    with (implicit_multiplication "+" (formula_text t))
    by (destruct (formula_text t); [reflexivity |];
        cbn; rewrite andb_false_r; reflexivity).
  pose proof (implicit_multiplication_formula t Hwf EmptyString "+"%char eq_refl
                ltac:(intros; reflexivity)) as H.
  rewrite append_empty in H. exact H.
Qed.

(** The postfix evaluation of the tokens of a formula pushes its value. *)
Lemma postfix_values_formula (M : platform) (d : gmap ascii float) (t : formula) :
  forall (v : float) (tokens : list variant_t) (stack : list float),
    formula_value M d t = Some v ->
    postfix_values d (formula_tokens M t ++ tokens) stack =
      postfix_values d tokens (v :: stack).
Proof.
  induction t as [n | c | k | op l IHl r IHr | t IH | name t IH];
    cbn [formula_tokens formula_value]; intros v tokens stack Hv.
  - injection Hv as <-. reflexivity.
  - cbn [app postfix_values postfix_value]. rewrite Hv. reflexivity.
  - injection Hv as <-. reflexivity.
  - destruct (formula_value M d l) as [a |]; [| discriminate Hv].
    destruct (formula_value M d r) as [b |]; [| discriminate Hv].
    rewrite <- !app_assoc, (IHl a), (IHr b) by reflexivity.
    cbn [app postfix_values postfix_value]. rewrite Hv. reflexivity.
  - exact (IH v tokens stack Hv).
  - destruct (formula_value M d t) as [a |]; [| discriminate Hv].
    injection Hv as <-.
    rewrite <- !app_assoc, (IH a) by reflexivity. reflexivity.
Qed.

(** X18: the parser, the builder and the evaluator on formulas.  A formula
    of short integer literals, parameters, the constants pi and e, the
    operators + - * / ^ %, parentheses and function calls, printed with the
    parentheses of its groups and calls only, is parsed into its postfix
    token sequence
    whenever it can be printed that way: each operator binds no tighter
    than the root of its left operand and less tightly than the root of
    its right operand, and a function binds at least as tightly as the
    operator over its call (every function but [abs] does, under every
    operator).  So a stronger operator takes its operands first, operators
    of one level, ^ among them, are taken from left to right, and a group
    or a call is an operand.  [build] then returns, and [eval()] returns
    the value of the formula under the dictionary, when that binds the
    parameters and no remainder of the formula is undefined; so does
    [compute] for a formula without parameters.  The
    operators, the functions and the constants of a formula are those of
    [detail::function], [pi] and [std::exp(1)]. *)
Theorem formula_is_parsed_by_precedence (M : platform) (t : formula) :
  well_formed t = true ->
  parse M (formula_text t) = Ret (formula_tokens M t) /\
  (forall (this : expression) (v : float),
     formula_value M (_dictionary this) t = Some v ->
     exists this',
       build M policy_build (formula_text t) this = (this', Ret tt) /\
       _dictionary this' = _dictionary this /\
       eval M this' = Ret (Some v)) /\
  (forall v : float,
     formula_value M ∅ t = Some v ->
     compute M (formula_text t) = Ret (Some v)) /\
  map (operator_function M) ["+"; "-"; "*"; "/"; "^"; "%"]%char =
    [detail.function.plus; detail.function.minus; detail.function.multiplies;
     detail.function.divides; detail.function.pow M; detail.function.modulus] /\
  map (function_named M) regex.fun_names =
    [detail.function.asin M; detail.function.sin M; detail.function.acos M;
     detail.function.cos M; detail.function.atan M; detail.function.atan M;
     detail.function.tan M; detail.function.tan M; detail.function.ln M;
     detail.function.exp M; detail.function.abs; detail.function.sqrt;
     detail.function.cbrt M] /\
  map (constant_value M) constant_names = [pi; pi; pi; pi; libm_exp M 1%float].
Proof.
  intros Hwf.
  assert (Hparse : parse M (formula_text t) = Ret (formula_tokens M t)).
  { pose proof (parse_loop_formula M t Hwf EmptyString [] []
                  (S (String.length (formula_text t))) eq_refl
                  ltac:(intros; reflexivity)) as Hloop.
    rewrite append_empty in Hloop. specialize (Hloop ltac:(lia)).
    pose proof (formula_leading_zero t EmptyString Hwf) as Hzero.
    rewrite append_empty in Hzero.
    pose proof (formula_text_nonempty t Hwf) as Hne.
    unfold parse. rewrite (preparse_formula t Hwf).
    destruct (formula_text t) as [| c r] eqn:E; [contradiction |].
    unfold parse_impl. rewrite Hzero, Hloop.
    cbn [String.length parse_loop app]. rewrite app_nil_r.
    rewrite (drain_symbols M _ _ (buffered_nonempty M t) (pending_known t Hwf)).
    rewrite (buffered_tokens M t Hwf). reflexivity. }
  assert (Hbuild : forall (d : gmap ascii float) (v : float),
    formula_value M d t = Some v ->
    exists head : node_ptr,
      (forall this : expression,
         build_tree (formula_tokens M t) this = (set_head this head, Ret tt)) /\
      head <> null /\ eval_impl M d head = Ret v).
  { intros d v Hv. apply build_tree_value.
    rewrite <- (app_nil_r (formula_tokens M t)).
    rewrite (postfix_values_formula M d t v [] [] Hv). reflexivity. }
  split; [exact Hparse |]. split; [| split; [| repeat split]].
  - intros this v Hv. destruct (Hbuild _ v Hv) as (head & Hb & Hhead & He).
    exists (set_head this head). unfold build, build_impl. rewrite Hparse, Hb.
    split; [reflexivity |]. split; [reflexivity |].
    unfold eval. cbn [set_head _head _dictionary].
    destruct head; [contradiction |]. rewrite He. reflexivity.
  - intros v Hv. destruct (Hbuild _ v Hv) as (head & Hb & Hhead & He).
    unfold compute, construct, build, build_impl. rewrite Hparse, Hb.
    cbn [mbind outcome_bind]. unfold eval.
    cbn [set_head _head _dictionary expression_default].
    destruct head; [contradiction |]. rewrite He. reflexivity.
Qed.

(** The theorem on "(x+1)*sqrt(16)-2^3^2" with x bound to 3: the value is
    ((3+1)*4)-((2^3)^2). *)
Lemma formula_is_parsed_by_precedence_witness :
  parse example_platform "(x+1)*sqrt(16)-2^3^2" =
    Ret [Param "x"; Const 1; Binary detail.function.plus;
         Const 16; Unary detail.function.sqrt; Binary detail.function.multiplies;
         Const 2; Const 3; Binary (detail.function.pow example_platform);
         Const 2; Binary (detail.function.pow example_platform);
         Binary detail.function.minus] /\
  exists this',
    build example_platform policy_build "(x+1)*sqrt(16)-2^3^2"
          (Expression null (<["x"%char := 3%float]> ∅)) = (this', Ret tt) /\
    _dictionary this' =
      _dictionary (Expression null (<["x"%char := 3%float]> ∅)) /\
    eval example_platform this' = Ret (Some (-48)%float).
Proof.
  destruct (formula_is_parsed_by_precedence example_platform
              (Operation "-"
                 (Operation "*"
                    (Group (Operation "+" (Letter "x") (Literal "1")))
                    (Apply "sqrt" (Literal "16")))
                 (Operation "^" (Operation "^" (Literal "2") (Literal "3"))
                                (Literal "2")))
              eq_refl) as (Hparse & Heval & _).
  split; [exact Hparse |].
  apply (Heval (Expression null (<["x"%char := 3%float]> ∅)) (-48)%float).
  reflexivity.
Defined.

(** ** A sign at the head of the line *)

(** X20: an operator at the head of the string is read as if a 0 stood in
    front of it: [parse] returns the same tokens for "-x" and for "0-x"
    (and for "*x" and "0*x"), so [build] under either policy and [compute]
    do the same on both. *)
Theorem leading_operator_has_zero (M : platform) (op : ascii) (rest : string) :
  detail.is_binary_f op = true ->
  parse M (String op rest) = parse M (String "0" (String op rest)) /\
  (forall (p : policy) (this : expression),
     build M p (String op rest) this = build M p (String "0" (String op rest)) this) /\
  compute M (String op rest) = compute M (String "0" (String op rest)).
Proof.
  intros Hop.
  assert (Hparse : parse M (String op rest) = parse M (String "0" (String op rest))).
  { unfold parse. rewrite !preparse_spec.
    cbn [with_implicit_multiplication implicit_multiplication].
    replace (Ascii.eqb op "(") with false
      by (each_char op; try discriminate Hop; reflexivity).
    cbn [andb]. unfold parse_impl, leading_zero. rewrite Hop.
    change (detail.is_binary_f "0") with false. cbv iota.
    cbn [String.length].
    change (String "0" (String op (implicit_multiplication op rest)))
      with ("0" +:+ String op (implicit_multiplication op rest)).
    rewrite (parse_loop_literal M _ "0"
               (String op (implicit_multiplication op rest)) _ _ eq_refl Hop).
    reflexivity. }
  split; [exact Hparse |]. split.
  - intros p this. unfold build, build_impl. rewrite Hparse. reflexivity.
  - unfold compute, construct, build, build_impl. rewrite Hparse. reflexivity.
Qed.

(** The theorem on "-5". *)
Lemma leading_operator_has_zero_witness :
  parse example_platform "-5" = parse example_platform "0-5" /\
  (forall (p : policy) (this : expression),
     build example_platform p "-5" this = build example_platform p "0-5" this) /\
  compute example_platform "-5" = compute example_platform "0-5".
Proof.
  apply (leading_operator_has_zero example_platform "-" "5"). reflexivity.
Defined.

(** ** White space at the head of the line *)

(** The turn of the loop that skips a space. *)
Lemma parse_loop_space (M : platform) (fuel : nat) (c : ascii) (r : string)
    (buffer : list variant_t) (sign_buffer : list ascii) :
  isspace c = true ->
  parse_loop M (S fuel) (String c r) buffer sign_buffer =
    parse_loop M fuel r buffer sign_buffer.
Proof. intros Hc. each_char c; try discriminate Hc; reflexivity. Qed.

Lemma parse_space (M : platform) (c : ascii) (line : string) :
  isspace c = true -> leading_zero line = [] ->
  parse M (String c line) = parse M line.
Proof.
  intros Hc Hzero. unfold parse. rewrite preparse_spec.
  cbn [with_implicit_multiplication].
  assert (Hprevious : Ascii.eqb c ")" || isdigit c = false)
    by (each_char c; try discriminate Hc; reflexivity).
  assert (Hbinary : detail.is_binary_f c = false)
    by (each_char c; try discriminate Hc; reflexivity).
  unfold parse_impl. cbn [leading_zero String.length]. rewrite Hbinary.
  rewrite (parse_loop_space M _ _ _ _ _ Hc).
  destruct line as [| x r]; [reflexivity |].
  rewrite preparse_spec.
  cbn [implicit_multiplication with_implicit_multiplication].
  rewrite Hprevious, andb_false_r. cbn [String.length leading_zero] in *.
  rewrite Hzero. reflexivity.
Qed.

(** X21: white space at the head of the string is skipped, unless an
    operator follows it (the 0 that is read in front of a leading operator
    is decided by the very first character): for a space character [c] and
    a line that does not begin with an operator, [parse] returns for [c]
    followed by the line what it returns for the line.  A string of white
    space only is parsed as the empty string is, into the constant 0, which
    [compute] returns. *)
Theorem leading_space_is_skipped (M : platform) :
  (forall (c : ascii) (line : string),
     isspace c = true -> leading_zero line = [] ->
     parse M (String c line) = parse M line /\
     compute M (String c line) = compute M line) /\
  (forall s : string,
     blank s = true ->
     parse M s = Ret [Const 0] /\ compute M s = Ret (Some 0%float)).
Proof.
  assert (Hcompute : forall a b : string,
            parse M a = parse M b -> compute M a = compute M b).
  { intros a b H. unfold compute, construct, build, build_impl. rewrite H.
    reflexivity. }
  split.
  - intros c line Hc Hzero. pose proof (parse_space M c line Hc Hzero) as H.
    split; [exact H | exact (Hcompute _ _ H)].
  - assert (Hparse : forall s, blank s = true -> parse M s = Ret [Const 0]).
    { induction s as [| c r IH]; [reflexivity |].
      cbn [blank]. intros H. apply andb_prop in H as [Hc Hr].
      rewrite parse_space; [exact (IH Hr) | exact Hc |].
      destruct r as [| x r']; [reflexivity |].
      cbn [blank] in Hr. apply andb_prop in Hr as [Hx _].
      unfold leading_zero.
      replace (detail.is_binary_f x) with false; [reflexivity |].
      each_char x; try discriminate Hx; reflexivity. }
    intros s Hs. split; [exact (Hparse s Hs) |].
    rewrite (Hcompute s EmptyString); [reflexivity |].
    rewrite (Hparse s Hs). reflexivity.
Qed.
